(** * search.py: a state-space search engine and the vacuum planning problem

    A shallow embedding of [search.py]: the [Node] search-tree record, the
    graph searches (breadth-first, depth-first, best-first and its
    uniform-cost and A* specialisations), the one-step reflex rule, and the
    [VacuumPlanning] problem with its cost functions and heuristics.

    Conventions.
    - Python integers are [Z]; a Python number that may be an [int] or a
      [float] is a [num]; floats are the kernel's binary64 floats, and
      the operations that mix the two follow Python: an integer is
      converted with one rounding or [OverflowError], comparisons are
      exact.
    - A Python exception is the [None] of an [option], or [Raised] in the
      outcome of a search.
    - The [while] loops of the searches recurse on a fuel argument; running
      out of fuel is the outcome [OutOfFuel]. *)

From Stdlib Require Import ZArith List Bool String Ascii Lia PeanoNat.
From Stdlib Require Import ListSet Permutation QArith.
From Stdlib Require Import PrimFloat Uint63 Floats.
Import ListNotations.

Set Implicit Arguments.
Set Warnings "-register-all".
Close Scope Q_scope.
Close Scope Z_scope.

(* ------------------------------------------------------------------ *)
(** ** Exceptions *)

Notation "x <- e ;; k" := (match e with Some x => k | None => None end)
  (at level 61, e at next level, right associativity).

(** [[g(x) for x in l]] where [g] may raise. *)
Fixpoint mapM {A B : Type} (g : A -> option B) (l : list A) : option (list B) :=
  match l with
  | [] => Some []
  | x :: l' => y <- g x ;; ys <- mapM g l' ;; Some (y :: ys)
  end.

(** What a call of a search function does. *)
Inductive outcome (R : Type) : Type :=
| Returned (r : R)
| Raised
| OutOfFuel.
Arguments Raised {R}.
Arguments OutOfFuel {R}.

(* ------------------------------------------------------------------ *)
(** ** Python lists *)

(** [l.pop()]: the last element and the list without it. *)
Fixpoint list_pop {A : Type} (l : list A) : option (A * list A) :=
  match l with
  | [] => None
  | x :: l' =>
      match list_pop l' with
      | None => Some (x, [])
      | Some (y, r) => Some (y, x :: r)
      end
  end.

(** [l.remove(x)]: drops the first occurrence, [ValueError] without one. *)
Fixpoint list_remove {A : Type} (eqb : A -> A -> bool) (x : A) (l : list A)
  : option (list A) :=
  match l with
  | [] => None
  | y :: l' => if eqb y x then Some l' else r <- list_remove eqb x l' ;; Some (y :: r)
  end.

(** [l.index(x)] *)
Fixpoint list_index {A : Type} (eqb : A -> A -> bool) (x : A) (l : list A)
  : option Z :=
  match l with
  | [] => None
  | y :: l' => if eqb y x then Some 0%Z else i <- list_index eqb x l' ;; Some (i + 1)%Z
  end.

(** [l.sort(key=...)]: Python's sort is stable; so is insertion after the
    elements whose key is not greater. *)
Fixpoint sort_insert {A : Type} (key : A -> nat) (x : A) (l : list A) : list A :=
  match l with
  | [] => [x]
  | y :: l' => if (key x <? key y)%nat then x :: y :: l' else y :: sort_insert key x l'
  end.

Definition list_sort {A : Type} (key : A -> nat) (l : list A) : list A :=
  fold_left (fun acc x => sort_insert key x acc) l [].

(* ------------------------------------------------------------------ *)
(** ** Python numbers *)

Inductive num : Type :=
| NInt (z : Z)
| NFloat (x : float).

(** The floats are the binary64 floats of the kernel; [SpecFloat] gives
    their values, [m * 2^e] with a sign, and the operations with their
    rounding to nearest, ties to even.  An integer is the value
    [z * 2^0]; its mantissa has as many digits as the integer. *)
Definition Z2SF (z : Z) : spec_float :=
  match z with
  | Z0 => S754_zero false
  | Zpos p => S754_finite false p 0
  | Zneg p => S754_finite true p 0
  end.

(** A conversion or a division of integers whose rounded result is
    beyond the largest float raises [OverflowError]. *)
Definition finite_result (x : spec_float) : option float :=
  match x with
  | S754_infinity _ => None
  | _ => Some (SF2Prim x)
  end.

(** [float(z)]: the float nearest to the integer. *)
Definition float_of_Z (z : Z) : option float :=
  finite_result (binary_normalize prec emax z 0 false).

(** [a + b]: integers add exactly; with a float, the integer is
    converted first. *)
Definition num_add (a b : num) : option num :=
  match a, b with
  | NInt x, NInt y => Some (NInt (x + y))
  | NInt x, NFloat y => fx <- float_of_Z x ;; Some (NFloat (PrimFloat.add fx y))
  | NFloat x, NInt y => fy <- float_of_Z y ;; Some (NFloat (PrimFloat.add x fy))
  | NFloat x, NFloat y => Some (NFloat (PrimFloat.add x y))
  end.

(** [y / n] on integers, true division: the quotient of the two integers
    rounded once; [ZeroDivisionError] on [n = 0]. *)
Definition int_truediv (y n : Z) : option num :=
  if (n =? 0)%Z then None
  else q <- finite_result (SFdiv prec emax (Z2SF y) (Z2SF n)) ;; Some (NFloat q).

(** An integer and a float compare by their values, without conversion;
    nothing compares with a NaN. *)
Definition Z_compare_float (z : Z) (x : float) : option comparison :=
  match Prim2SF x with
  | S754_nan => None
  | S754_infinity s => Some (if s then Gt else Lt)
  | S754_zero _ => Some (Z.compare z 0)
  | S754_finite s m e =>
      let v := if s then Zneg m else Zpos m in
      Some (match e with
            | Zneg k => Z.compare (Z.shiftl z (Zpos k)) v
            | _ => Z.compare z (Z.shiftl v e)
            end)
  end.

(** [a < b], [a >= b], [a == b] *)
Definition num_lt (a b : num) : bool :=
  match a, b with
  | NInt x, NInt y => (x <? y)%Z
  | NInt x, NFloat y =>
      match Z_compare_float x y with Some Lt => true | _ => false end
  | NFloat x, NInt y =>
      match Z_compare_float y x with Some Gt => true | _ => false end
  | NFloat x, NFloat y => PrimFloat.ltb x y
  end.

Definition num_ge (a b : num) : bool :=
  match a, b with
  | NInt x, NInt y => (x >=? y)%Z
  | NInt x, NFloat y =>
      match Z_compare_float x y with Some (Gt | Eq) => true | _ => false end
  | NFloat x, NInt y =>
      match Z_compare_float y x with Some (Lt | Eq) => true | _ => false end
  | NFloat x, NFloat y => PrimFloat.leb y x
  end.

Definition num_eq (a b : num) : bool :=
  match a, b with
  | NInt x, NInt y => (x =? y)%Z
  | NInt x, NFloat y =>
      match Z_compare_float x y with Some Eq => true | _ => false end
  | NFloat x, NInt y =>
      match Z_compare_float y x with Some Eq => true | _ => false end
  | NFloat x, NFloat y => PrimFloat.eqb x y
  end.

(** The float of an integer below [2^53] in absolute value, which has
    the value of the integer: the conversion of the primitive floats on
    the 63-bit integer, with the sign put back. *)
Definition exact_float (z : Z) : float :=
  if (z <? 0)%Z then PrimFloat.opp (PrimFloat.of_uint63 (Uint63.of_Z (- z)))
  else PrimFloat.of_uint63 (Uint63.of_Z z).

(* ------------------------------------------------------------------ *)
(** ** Randomness

    [random.choice(seq)] draws one element of a non-empty sequence, each
    position with the same probability, and raises [IndexError] on an empty
    one.  A computation that may draw is a tree: it returns, raises, or
    asks for a draw among the listed options and continues. *)

Inductive Rand (X A : Type) : Type :=
| RRet (a : A)
| RRaise
| RChoice (options : list X) (k : X -> Rand X A).
Arguments RRaise {X A}.
Arguments RRet {X} {A} a.

Definition random_choice {X : Type} (seq : list X) : Rand X X :=
  match seq with
  | [] => RRaise
  | _ :: _ => RChoice seq (fun x => RRet x)
  end.

Fixpoint rand_bind {X A B : Type} (m : Rand X A) (g : A -> Rand X B) : Rand X B :=
  match m with
  | RRet a => g a
  | RRaise => RRaise
  | RChoice o k => RChoice o (fun x => rand_bind (k x) g)
  end.

(** The distribution of results: each draw among [n] options gives every
    position the weight [1/n]. *)
Fixpoint rand_dist {X A : Type} (m : Rand X A) : list (Q * A) :=
  match m with
  | RRet a => [(1%Q, a)]
  | RRaise => []
  | RChoice o k =>
      flat_map (fun x => map (fun wa => (fst wa / inject_Z (Z.of_nat (List.length o)), snd wa)%Q)
                             (rand_dist (k x))) o
  end.

(* ------------------------------------------------------------------ *)
(** ** The search engine

    The engine is written once for every state, action and number type, as
    the Python code is: [State_eq_dec] is [==] on states, [state_lt] is [<]
    on states ([Node.__lt__]), [is_LEFT a] is [a == 'LEFT'], [C0] is the
    integer [0], and [C_add], [C_lt], [C_ge], [C_eq] are [+], [<], [>=] and
    [==] on numbers; [+] may raise, as may the evaluation function [f] of
    the best-first search that is built from it. *)

Section Engine.

Context {State Action C : Type}.
Variable State_eq_dec : forall x y : State, {x = y} + {x <> y}.
Variable state_lt : State -> State -> bool.
Variable is_LEFT : Action -> bool.
Variable C0 : C.
Variable C_add : C -> C -> option C.
Variables C_lt C_ge C_eq : C -> C -> bool.

(** *** class Node *)

Inductive Node : Type := mkNode {
  state : State;
  parent : option Node;
  action : option Action;
  path_cost : C;
  depth : nat
}.

(** [Node.__init__]; a [Node] is always true as a condition. *)
Definition Node_init (st : State) (par : option Node) (act : option Action)
           (cost : C) : Node :=
  mkNode st par act cost
         (match par with Some p => S (depth p) | None => 0 end).

(** [Node.__eq__]: nodes are equal when their states are. *)
Definition node_eq (a b : Node) : bool :=
  if State_eq_dec (state a) (state b) then true else false.

(** [Node.path]: [path_back] is the list the loop builds. *)
Fixpoint path_back (node : Node) : list Node :=
  match node with
  | mkNode _ par _ _ _ =>
      node :: match par with Some p => path_back p | None => [] end
  end.

Definition path (node : Node) : list Node := rev (path_back node).

(** [Node.solution] *)
Definition solution (node : Node) : list (option Action) :=
  map action (tl (path node)).

(** *** class Problem

    [problem_state] is the attribute [state] that [reflexAgentSearch]
    reads; [problem_path_cost] is the method [path_cost], which
    [Node.child_node] calls with the node itself as first argument. *)

Record Problem : Type := mkProblem {
  initial : State;
  problem_state : State;
  actions : State -> option (list Action);
  result : State -> Action -> State;
  goal_test : State -> bool;
  problem_path_cost : Node -> State -> Action -> State -> option C;
  h : Node -> C
}.

Variable problem : Problem.

(** [Node.child_node] *)
Definition child_node (node : Node) (act : Action) : option Node :=
  let next_state := result problem (state node) act in
  pathCost <- problem_path_cost problem node (state node) act next_state ;;
  Some (Node_init next_state (Some node) (Some act) pathCost).

(** [Node.expand] *)
Definition expand (node : Node) : option (list Node) :=
  acts <- actions problem (state node) ;;
  mapM (child_node node)
       (list_sort (fun a => if is_LEFT a then 0 else 1) acts).

(** *** Frontier and explored set of the uninformed searches *)

(** [c in front] on a deque or a list of nodes *)
Definition in_nodes (c : Node) (front : list Node) : bool :=
  existsb (fun x => node_eq x c) front.

(** [s in explore]; the explored set is a list without repetition, and
    [explore.add(s)] is [set_add]. *)
Definition in_explore (s : State) (explore : set State) : bool :=
  set_mem State_eq_dec s explore.

Definition explore_add (s : State) (explore : set State) : set State :=
  set_add State_eq_dec s explore.

(** How the [for] loop over the actions of a node ends: by returning a
    goal child, or with the new frontier. *)
Inductive scan : Type :=
| Found (c : Node)
| Continue (front : list Node).

(** *** breadth_first_graph_search *)

Fixpoint bfs_for (node : Node) (acts : list Action) (front : list Node)
         (explore : set State) : option scan :=
  match acts with
  | [] => Some (Continue front)
  | act :: rest =>
      c <- child_node node act ;;
      if negb (in_explore (state c) explore || in_nodes c front) then
        if goal_test problem (state c) then Some (Found c)
        else bfs_for node rest (front ++ [c]) explore
      else bfs_for node rest front explore
  end.

Fixpoint bfs_loop (fuel : nat) (front : list Node) (explore : set State)
  : outcome (option Node * set State) :=
  match fuel with
  | O => OutOfFuel
  | S fuel' =>
      match front with
      | [] => Returned (None, explore)
      | node :: front1 =>
          let explore1 := explore_add (state node) explore in
          match actions problem (state node) with
          | None => Raised
          | Some acts =>
              match bfs_for node acts front1 explore1 with
              | None => Raised
              | Some (Found c) => Returned (Some c, explore1)
              | Some (Continue front2) => bfs_loop fuel' front2 explore1
              end
          end
      end
  end.

Definition breadth_first_graph_search (fuel : nat)
  : outcome (option Node * set State) :=
  let node := Node_init (initial problem) None None C0 in
  if goal_test problem (state node) then Returned (Some node, [state node])
  else bfs_loop fuel [node] [].

(** *** depth_first_graph_search *)

Fixpoint dfs_for (node : Node) (acts : list Action) (front : list Node)
         (explore : set State) : option scan :=
  match acts with
  | [] => Some (Continue front)
  | act :: rest =>
      c <- child_node node act ;;
      if negb (in_explore (state c) explore || in_nodes c front) then
        if goal_test problem (state c) then Some (Found c)
        else dfs_for node rest (front ++ [c]) explore
      else dfs_for node rest front explore
  end.

Fixpoint dfs_loop (fuel : nat) (front : list Node) (explore : set State)
  : outcome (option Node * set State) :=
  match fuel with
  | O => OutOfFuel
  | S fuel' =>
      match list_pop front with
      | None => Returned (None, explore)
      | Some (node, front1) =>
          let explore1 := explore_add (state node) explore in
          match actions problem (state node) with
          | None => Raised
          | Some acts =>
              match dfs_for node acts front1 explore1 with
              | None => Raised
              | Some (Found c) => Returned (Some c, explore1)
              | Some (Continue front2) => dfs_loop fuel' front2 explore1
              end
          end
      end
  end.

Definition depth_first_graph_search (fuel : nat)
  : outcome (option Node * set State) :=
  let node := Node_init (initial problem) None None C0 in
  if goal_test problem (state node) then Returned (Some node, [state node])
  else dfs_loop fuel [node] [].

(** *** memoize

    [memoize(inp, 'f')] stores [inp(obj)] in the attribute [f] of the
    node at the first call and reads it back afterwards; a call that
    raises stores nothing.  The nodes are never modified otherwise and the
    functions the searches memoize read only the node, so the memoized
    function is the function. *)
Definition memoize {A B : Type} (inp : A -> B) : A -> B := inp.

(** *** PriorityQueue *)

(** Modelled from the spec: the class [PriorityQueue] of [utils], which is
    not among the sources.  A queue ordered by ascending [f]: [append]
    stores the item with its value [f(item)], [pop] removes and returns an
    item of minimum value (among equal values the order of the items
    decides, which for nodes is the order of their states), [in] tests
    membership by node equality, [q[key]] is the value stored with the
    first item equal to [key], and [del q[key]] removes that entry; both
    raise [KeyError] without one. *)
Definition entry : Type := (C * Node)%type.

Definition entry_lt (a b : entry) : bool :=
  if C_eq (fst a) (fst b) then
    if node_eq (snd a) (snd b) then false
    else state_lt (state (snd a)) (state (snd b))
  else C_lt (fst a) (fst b).

Definition pq_append (f : Node -> option C) (q : list entry) (item : Node)
  : option (list entry) :=
  v <- f item ;; Some (q ++ [(v, item)]).

Fixpoint pq_extract_min (q : list entry) : option (entry * list entry) :=
  match q with
  | [] => None
  | e :: q' =>
      match pq_extract_min q' with
      | None => Some (e, [])
      | Some (m, r) => if entry_lt m e then Some (m, e :: r) else Some (e, q')
      end
  end.

Definition pq_pop (q : list entry) : option (Node * list entry) :=
  match pq_extract_min q with
  | Some (m, r) => Some (snd m, r)
  | None => None
  end.

Definition pq_contains (q : list entry) (key : Node) : bool :=
  existsb (fun e => node_eq (snd e) key) q.

Definition pq_getitem (q : list entry) (key : Node) : option C :=
  match find (fun e => node_eq (snd e) key) q with
  | Some e => Some (fst e)
  | None => None
  end.

Fixpoint pq_delitem (q : list entry) (key : Node) : option (list entry) :=
  match q with
  | [] => None
  | e :: q' =>
      if node_eq (snd e) key then Some q'
      else r <- pq_delitem q' key ;; Some (e :: r)
  end.

(** *** best_first_graph_search *)

(** The body of the loop over the expanded nodes, for one child [c]. *)
Definition bfgs_child (f : Node -> option C) (explore : set State)
           (front : list entry) (c : Node) : option (list entry) :=
  let c_state := state c in
  if negb (in_explore c_state explore || pq_contains front c) then
    pq_append f front c
  else if pq_contains front c then
    fc <- f c ;;
    v <- pq_getitem front c ;;
    if negb (C_ge fc v) then
      front1 <- pq_delitem front c ;;
      pq_append f front1 c
    else Some front
  else Some front.

Fixpoint bfgs_for (f : Node -> option C) (explore : set State)
         (expanded_nodes : list Node) (front : list entry)
  : option (list entry) :=
  match expanded_nodes with
  | [] => Some front
  | c :: rest =>
      front1 <- bfgs_child f explore front c ;;
      bfgs_for f explore rest front1
  end.

Fixpoint bfgs_loop (f : Node -> option C) (fuel : nat) (front : list entry)
         (explore : set State) : outcome (option Node * set State) :=
  match fuel with
  | O => OutOfFuel
  | S fuel' =>
      match pq_pop front with
      | None => Returned (None, explore)
      | Some (node, front1) =>
          if goal_test problem (state node) then Returned (Some node, explore)
          else
            let explore1 := explore_add (state node) explore in
            match expand node with
            | None => Raised
            | Some expanded_nodes =>
                match bfgs_for f explore1 expanded_nodes front1 with
                | None => Raised
                | Some front2 => bfgs_loop f fuel' front2 explore1
                end
            end
      end
  end.

Definition best_first_graph_search (f : option (Node -> option C)) (fuel : nat)
  : outcome (option Node * set State) :=
  let f := memoize (match f with
                    | Some g => g
                    | None => fun n => Some (h problem n)
                    end) in
  let node := Node_init (initial problem) None None C0 in
  match pq_append f [] node with
  | None => Raised
  | Some front => bfgs_loop f fuel front []
  end.

(** *** reflexAgentSearch *)

Definition reflexAgentSearch : Rand Node (Node * option (set State)) :=
  let node := Node_init (problem_state problem) None None C0 in
  match expand node with
  | None => RRaise
  | Some neighbors =>
      match find (fun neigh => goal_test problem (state neigh)) neighbors with
      | Some neigh => RRet (neigh, None)
      | None =>
          rand_bind (random_choice neighbors) (fun randPic => RRet (randPic, None))
      end
  end.

(** *** uniform_cost_search, astar_search *)

Definition uniform_cost_search (fuel : nat) : outcome (option Node * set State) :=
  best_first_graph_search (Some (fun node => Some (path_cost node))) fuel.

Definition astar_search (h' : option (Node -> C)) (fuel : nat)
  : outcome (option Node * set State) :=
  let h := memoize (match h' with Some g => g | None => h problem end) in
  best_first_graph_search (Some (fun n => C_add (path_cost n) (h n))) fuel.

(** *** Nodes built from a root

    [follow node acts] builds the chain of children of [node] along the
    actions; [descends root n] says that [n] is [root] or was built from it
    by calls of [child_node]. *)

Fixpoint follow (node : Node) (acts : list Action) : option Node :=
  match acts with
  | [] => Some node
  | act :: rest => c <- child_node node act ;; follow c rest
  end.

Inductive descends (root : Node) : Node -> Prop :=
| descends_root : descends root root
| descends_child (n c : Node) (act : Action) :
    descends root n -> child_node n act = Some c -> descends root c.

(** [legal root n]: [n] was built from [root] by calls of [child_node]
    with actions that [actions] lists for the state they are taken in: a
    path of the problem, with its cost [path_cost n]. *)
Inductive legal (root : Node) : Node -> Prop :=
| legal_root : legal root root
| legal_child (n c : Node) (avail : list Action) (act : Action) :
    legal root n -> actions problem (state n) = Some avail -> In act avail ->
    child_node n act = Some c -> legal root c.

(** What the loop over the actions of the uninformed searches does with
    children that are given in a list, in the order of the list. *)
Fixpoint scan_children (cs : list Node) (front : list Node) (explore : set State)
  : scan :=
  match cs with
  | [] => Continue front
  | c :: rest =>
      if negb (in_explore (state c) explore || in_nodes c front) then
        if goal_test problem (state c) then Found c
        else scan_children rest (front ++ [c]) explore
      else scan_children rest front explore
  end.

(** A state is reachable when legal actions lead to it from the initial
    state. *)
Inductive reachable : State -> Prop :=
| reachable_initial : reachable (initial problem)
| reachable_step (s : State) (acts : list Action) (act : Action) :
    reachable s -> actions problem s = Some acts -> In act acts ->
    reachable (result problem s act).

End Engine.

Arguments Node : clear implicits.
Arguments Problem : clear implicits.
Arguments scan : clear implicits.
Arguments entry : clear implicits.

(* ------------------------------------------------------------------ *)
(** ** class VacuumPlanning *)

Module Vacuum.

Local Open Scope string_scope.
Local Open Scope Z_scope.

(** A state is a cell [(x, y)]; an action is a string. *)
Definition State : Type := (Z * Z)%type.
Definition Action : Type := string.

Definition State_eq_dec (a b : State) : {a = b} + {a <> b}.
Proof. decide equality; apply Z.eq_dec. Defined.

(** [<] on two-element lists of integers *)
Definition state_lt (a b : State) : bool :=
  (fst a <? fst b) || ((fst a =? fst b) && (snd a <? snd b)).

Definition is_LEFT (a : Action) : bool := String.eqb a "LEFT".

Definition VNode : Type := Node State Action num.

(** [node.action] and [node.path_cost] of a node of this problem *)
Definition node_action (node : VNode) : option Action := action node.
Definition node_path_cost (node : VNode) : num := path_cost node.

(** *** The environment

    The environment class is not among the sources.  The problem reads
    its list of things, its agent, its cost function, search type and
    heuristic selectors, and calls its methods [things_near] (the things
    around a location, of which the problem looks at the walls) and
    [some_things_at] (is a thing of the class at the location). *)

Inductive kind : Type := Wall | Dirt | OtherThing.

Definition kind_eqb (a b : kind) : bool :=
  match a, b with
  | Wall, Wall | Dirt, Dirt | OtherThing, OtherThing => true
  | _, _ => false
  end.

Record Thing : Type := mkThing { thing_kind : kind; location : State }.

Record Agent : Type := mkAgent { agent_location : State; direction : string }.

Record Env : Type := mkEnv {
  things : list Thing;
  agent : Agent;
  costFunc : string;
  searchType : string;
  heuristic : string;
  things_near : State -> list Thing;
  some_things_at : State -> kind -> bool
}.

Definition set_direction (e : Env) (d : string) : Env :=
  mkEnv (things e) (mkAgent (agent_location (agent e)) d) (costFunc e)
        (searchType e) (heuristic e) (things_near e) (some_things_at e).

(** The problem object: [self.agent] is [self.env.agent] and [self.map]
    is [self.env.things], the same objects. *)
Record VacuumPlanning : Type := mkVacuumPlanning {
  env : Env;
  self_state : State;
  self_initial : State;
  self_searchType : string
}.

Definition self_agent (self : VacuumPlanning) : Agent := agent (env self).
Definition self_map (self : VacuumPlanning) : list Thing := things (env self).

(** [VacuumPlanning.__init__] *)
Definition init (e : Env) (searchtype : string) : VacuumPlanning :=
  mkVacuumPlanning (set_direction e "UP") (agent_location (agent e))
                   (agent_location (agent e)) searchtype.

(** [VacuumPlanning.actions]: the body of the loop for one slot. *)
Definition actions_slot (state : State) (slot : Thing)
           (possible_actions : list Action) : option (list Action) :=
  match thing_kind slot with
  | Wall =>
      let (x, y) := location slot in
      p1 <- (if (x =? fst state) && (y =? snd state + 1)
             then list_remove String.eqb "UP" possible_actions
             else Some possible_actions) ;;
      p2 <- (if (x =? fst state) && (y =? snd state - 1)
             then list_remove String.eqb "DOWN" p1 else Some p1) ;;
      p3 <- (if (x =? fst state + 1) && (y =? snd state)
             then list_remove String.eqb "RIGHT" p2 else Some p2) ;;
      if (x =? fst state - 1) && (y =? snd state)
      then list_remove String.eqb "LEFT" p3 else Some p3
  | _ => Some possible_actions
  end.

Fixpoint actions_loop (state : State) (slots : list Thing)
         (possible_actions : list Action) : option (list Action) :=
  match slots with
  | [] => Some possible_actions
  | slot :: rest =>
      p <- actions_slot state slot possible_actions ;;
      actions_loop state rest p
  end.

Definition actions (self : VacuumPlanning) (state : State)
  : option (list Action) :=
  let possible_neighbors := things_near (env self) state in
  let possible_actions := ["UP"; "DOWN"; "LEFT"; "RIGHT"] in
  actions_loop state possible_neighbors possible_actions.

(** [VacuumPlanning.result]: the new state, and the problem object after
    the call. *)
Definition result (self : VacuumPlanning) (state : State) (action : Action)
  : State * VacuumPlanning :=
  let self1 := mkVacuumPlanning (set_direction (env self) action)
                                (self_state self) (self_initial self)
                                (self_searchType self) in
  let new_state :=
    if String.eqb action "RIGHT" then (fst state + 1, snd state)
    else if String.eqb action "LEFT" then (fst state - 1, snd state)
    else if String.eqb action "UP" then (fst state, snd state + 1)
    else if String.eqb action "DOWN" then (fst state, snd state - 1)
    else state in
  (new_state, self1).

(** [VacuumPlanning.goal_test] *)
Definition goal_test (self : VacuumPlanning) (state : State) : bool :=
  some_things_at (env self) state Dirt.

(** [VacuumPlanning.computeTurnCost]; an argument is [None] or a string. *)
Definition opt_string_eqb (a b : option string) : bool :=
  match a, b with
  | Some x, Some y => String.eqb x y
  | None, None => true
  | _, _ => false
  end.

Definition directions : list (option string) :=
  [Some "UP"; Some "RIGHT"; Some "DOWN"; Some "LEFT"].

Definition computeTurnCost (action1 action : option string) : Z :=
  match list_index opt_string_eqb action1 directions,
        list_index opt_string_eqb action directions with
  | Some index1, Some index2 =>
      let tc := Z.abs (index2 - index1) in
      let val1 := Z.min tc (4 - tc) * 3 in
      val1
  | _, _ => 0
  end.

(** [VacuumPlanning.path_cost] *)
Definition path_cost (self : VacuumPlanning) (curNode : VNode)
           (state1 : State) (action : Action) (state2 : State) : option num :=
  let beg := fst in
  let beside := snd in
  let cost := node_path_cost curNode in
  if String.eqb (costFunc (env self)) "Step" then
    num_add cost (NInt 1)
  else if String.eqb (costFunc (env self)) "StepTurn" then
    let turnc := computeTurnCost (node_action curNode) (Some action) in
    cost1 <- num_add cost (NInt 1) ;;
    num_add cost1 (NInt turnc)
  else if String.eqb (costFunc (env self)) "StayLeft" then
    num_add cost (NInt (beg state2))
  else if String.eqb (costFunc (env self)) "StayUp" then
    newc <- num_add cost (NInt 1) ;;
    q <- int_truediv (beside state2) (Z.of_nat (List.length (self_map self))) ;;
    cost <- num_add newc q ;;
    if String.eqb (searchType (env self)) "UCS" && String.eqb action "DOWN"
    then num_add cost (NInt 5)
    else Some cost
  else Some cost.

(** [findMinManhattanDist], [findMinEuclidDist]: the running minimum
    starts at [float('inf')], which every integer is below. *)
Definition is_Dirt (t : Thing) : bool := kind_eqb (thing_kind t) Dirt.

Definition dirty_rooms (self : VacuumPlanning) : list State :=
  map location (filter is_Dirt (things (env self))).

Inductive ext : Type := Inf | Fin (z : Z).

Definition lt_ext (z : Z) (m : ext) : bool :=
  match m with Inf => true | Fin y => z <? y end.

Definition ext_num (m : ext) : num :=
  match m with Inf => NFloat PrimFloat.infinity | Fin z => NInt z end.

Definition findMinManhattanDist (self : VacuumPlanning) (pos : State) : num :=
  let dirty_rooms := dirty_rooms self in
  match dirty_rooms with
  | [] => NInt 0
  | _ :: _ =>
      ext_num
        (fold_left
           (fun min_distance room =>
              let d1 := Z.abs (fst pos - fst room) in
              let d2 := Z.abs (snd pos - snd room) in
              let td := d1 + d2 in
              if lt_ext td min_distance then Fin td else min_distance)
           dirty_rooms Inf)
  end.

Definition findMinEuclidDist (self : VacuumPlanning) (pos : State) : num :=
  let dirty_rooms := dirty_rooms self in
  match dirty_rooms with
  | [] => NInt 0
  | _ :: _ =>
      ext_num
        (fold_left
           (fun mind room =>
              let d1 := (fst pos - fst room) ^ 2 in
              let d2 := (snd pos - snd room) ^ 2 in
              let d3 := d1 + d2 in
              if lt_ext d3 mind then Fin d3 else mind)
           dirty_rooms Inf)
  end.

(** [VacuumPlanning.h] *)
Definition h (self : VacuumPlanning) (node : VNode) : num :=
  if String.eqb (heuristic (env self)) "Manhattan"
  then findMinManhattanDist self (state node)
  else findMinEuclidDist self (state node).

(** The problem as the searches see it.  No method reads the direction
    of the agent, the one thing [result] writes, so the searches may run
    on the problem object as it is when they start. *)
Definition as_problem (self : VacuumPlanning) : Problem State Action num :=
  mkProblem (self_initial self) (self_state self) (actions self)
            (fun s a => fst (result self s a)) (goal_test self)
            (path_cost self) (h self).

(** The searches on a vacuum problem. *)
Definition bfs (self : VacuumPlanning) (fuel : nat) :=
  breadth_first_graph_search State_eq_dec (NInt 0) (as_problem self) fuel.
Definition dfs (self : VacuumPlanning) (fuel : nat) :=
  depth_first_graph_search State_eq_dec (NInt 0) (as_problem self) fuel.
Definition ucs (self : VacuumPlanning) (fuel : nat) :=
  uniform_cost_search State_eq_dec state_lt is_LEFT (NInt 0)
                      num_lt num_ge num_eq (as_problem self) fuel.
Definition greedy (self : VacuumPlanning) (fuel : nat) :=
  best_first_graph_search State_eq_dec state_lt is_LEFT (NInt 0)
                          num_lt num_ge num_eq (as_problem self) None fuel.
Definition astar (self : VacuumPlanning) (fuel : nat) :=
  astar_search State_eq_dec state_lt is_LEFT (NInt 0) num_add
               num_lt num_ge num_eq (as_problem self) None fuel.
Definition reflex (self : VacuumPlanning) :=
  reflexAgentSearch is_LEFT (NInt 0) (as_problem self).

(** The body of the loop of [uniform_cost_search] for one child. *)
Definition ucs_child (explore : set State) (front : list (entry State Action num))
           (c : VNode) : option (list (entry State Action num)) :=
  bfgs_child State_eq_dec num_ge (fun node => Some (node_path_cost node))
             explore front c.

(** *** A grid environment for the examples

    A thing is near a location when it is at most one cell away, and
    [some_things_at] looks for a thing of the class at the location. *)
Definition distance_squared (a b : State) : Z :=
  (fst a - fst b) ^ 2 + (snd a - snd b) ^ 2.

Definition state_eqb (a b : State) : bool :=
  (fst a =? fst b) && (snd a =? snd b).

Definition grid_env (ths : list Thing) (loc : State)
           (costfn searchtype heur : string) : Env :=
  mkEnv ths (mkAgent loc "UP") costfn searchtype heur
        (fun s => filter (fun t => distance_squared s (location t) <=? 1) ths)
        (fun s k => existsb (fun t => kind_eqb (thing_kind t) k
                                      && state_eqb (location t) s) ths).

Definition walls (cells : list State) : list Thing := map (mkThing Wall) cells.
Definition dirt (cells : list State) : list Thing := map (mkThing Dirt) cells.

(** The cells of the square [lo..hi] x [lo..hi] that are not [free]. *)
Definition range (lo hi : Z) : list Z :=
  map (fun i => lo + Z.of_nat i) (seq 0 (Z.to_nat (hi - lo + 1))).

Definition box_walls (lo hi : Z) (free : list State) : list Thing :=
  walls (filter (fun c => negb (existsb (state_eqb c) free))
                (flat_map (fun x => map (fun y => (x, y)) (range lo hi))
                          (range lo hi))).

End Vacuum.

(* ------------------------------------------------------------------ *)
(** ** Notions the properties are stated with *)

Module Notions.

Local Open Scope string_scope.
Local Open Scope Z_scope.

(** The four directions, and which of them an argument of
    [computeTurnCost] names, if any. *)
Inductive Dir : Type := DUp | DRight | DDown | DLeft.

Definition parse_direction (a : option string) : option Dir :=
  match a with
  | None => None
  | Some s =>
      if String.eqb s "UP" then Some DUp
      else if String.eqb s "RIGHT" then Some DRight
      else if String.eqb s "DOWN" then Some DDown
      else if String.eqb s "LEFT" then Some DLeft
      else None
  end.

(** A quarter turn clockwise on the cycle UP, RIGHT, DOWN, LEFT. *)
Definition turn (d : Dir) : Dir :=
  match d with DUp => DRight | DRight => DDown | DDown => DLeft | DLeft => DUp end.

Definition Dir_eqb (a b : Dir) : bool :=
  match a, b with
  | DUp, DUp | DRight, DRight | DDown, DDown | DLeft, DLeft => true
  | _, _ => false
  end.

(** The number of clockwise quarter turns from [a] to [b]. *)
Definition clockwise (a b : Dir) : Z :=
  if Dir_eqb a b then 0
  else if Dir_eqb (turn a) b then 1
  else if Dir_eqb (turn (turn a)) b then 2
  else 3.

(** The least number of quarter turns, in either sense, between two
    directions. *)
Definition rotation_distance (a b : Dir) : Z :=
  Z.min (clockwise a b) (clockwise b a).

(** The two distances of the heuristics. *)
Definition manhattan (p q : Z * Z) : Z :=
  Z.abs (fst p - fst q) + Z.abs (snd p - snd q).

Definition euclid_squared (p q : Z * Z) : Z :=
  (fst p - fst q) ^ 2 + (snd p - snd q) ^ 2.

Definition selected_distance (selector : string) : Z * Z -> Z * Z -> Z :=
  if String.eqb selector "Manhattan" then manhattan else euclid_squared.

(** The position of a direction in the list [directions]. *)
Definition dir_index (d : Dir) : Z :=
  match d with DUp => 0 | DRight => 1 | DDown => 2 | DLeft => 3 end.

(** The loop of the two [findMin...] methods, for a distance [d]: the
    running minimum after the rooms, from a start value. *)
Definition running_min (d : Vacuum.State -> Z) (rooms : list Vacuum.State)
           (start : Vacuum.ext) : Vacuum.ext :=
  fold_left (fun m room => if Vacuum.lt_ext (d room) m then Vacuum.Fin (d room) else m)
            rooms start.

Definition below (m : Vacuum.ext) (z : Z) : Prop :=
  match m with Vacuum.Inf => False | Vacuum.Fin v => v <= z end.

Definition not_above (m start : Vacuum.ext) : Prop :=
  match m, start with
  | _, Vacuum.Inf => True
  | Vacuum.Fin v, Vacuum.Fin a => v <= a
  | Vacuum.Inf, Vacuum.Fin _ => False
  end.

(** [subseq l m]: [l] is [m] with some elements left out. *)
Inductive subseq {A : Type} : list A -> list A -> Prop :=
| subseq_nil : subseq [] []
| subseq_skip (x : A) (l m : list A) : subseq l m -> subseq l (x :: m)
| subseq_keep (x : A) (l m : list A) : subseq l m -> subseq (x :: l) (x :: m).

End Notions.


(* ------------------------------------------------------------------ *)
(** ** Examples: rooms, problems and paths *)

Module Examples.

Import Vacuum.
Local Open Scope string_scope.
Local Open Scope Z_scope.

(** One step in a direction. *)
Definition move (d : Notions.Dir) (s : State) : State :=
  match d with
  | Notions.DUp => (fst s, snd s + 1)
  | Notions.DDown => (fst s, snd s - 1)
  | Notions.DRight => (fst s + 1, snd s)
  | Notions.DLeft => (fst s - 1, snd s)
  end.

(** The root node of a search from a state. *)
Definition root (s : State) : VNode := Node_init s None None (NInt 0).

(** A 3 x 3 room, cells [(0,0)] to [(2,2)], with walls all around. *)
Definition room3_cells : list State :=
  [(0,0); (0,1); (0,2); (1,0); (1,1); (1,2); (2,0); (2,1); (2,2)].

Definition room3 (dirty : list State) (loc : State)
           (costfn searchtype heur : string) : VacuumPlanning :=
  init (grid_env (box_walls (-1) 3 room3_cells ++ dirt dirty) loc
                 costfn searchtype heur)
       searchtype.

(** The agent in the middle, dirt to its left and above it. *)
Definition two_dirty_neighbors : VacuumPlanning :=
  room3 [(0,1); (1,2)] (1,1) "Step" "BFS" "Manhattan".

(** The agent in the middle, nothing dirty but the far corner. *)
Definition corner_dirty (costfn searchtype : string) : VacuumPlanning :=
  room3 [(2,2)] (1,1) costfn searchtype "Manhattan".

(** The agent on a dirty cell. *)
Definition agent_on_dirt (searchtype : string) : VacuumPlanning :=
  room3 [(1,1)] (1,1) "Step" searchtype "Manhattan".

(** Two corridors from [(0,1)] to [(3,2)], and the dirty cell [(3,3)]
    above their end: the upper corridor goes RIGHT, UP, RIGHT, RIGHT, the
    lower one DOWN, RIGHT, RIGHT, RIGHT, UP, UP. *)
Definition corridors_cells : list State :=
  [(0,1); (1,1); (1,2); (2,2); (3,2); (3,3); (0,0); (1,0); (2,0); (3,0); (3,1)].

Definition corridors : VacuumPlanning :=
  init (grid_env (box_walls (-1) 4 corridors_cells ++ dirt [(3,3)]) (0,1)
                 "StepTurn" "UCS" "Manhattan")
       "UCS".

Definition upper_path : list Action := ["RIGHT"; "UP"; "RIGHT"; "RIGHT"; "UP"].
Definition lower_path : list Action :=
  ["DOWN"; "RIGHT"; "RIGHT"; "RIGHT"; "UP"; "UP"; "UP"].

(** The node a sequence of actions builds from the root at a state. *)
Definition walk (self : VacuumPlanning) (s : State) (acts : list Action)
  : option VNode :=
  follow (as_problem self) (root s) acts.

(** [walk], with the check that each action is among the actions of the
    state it is taken in. *)
Fixpoint legal_walk_from (self : VacuumPlanning) (node : VNode)
         (acts : list Action) : option VNode :=
  match acts with
  | [] => Some node
  | act :: rest =>
      avail <- actions self (state node) ;;
      if existsb (String.eqb act) avail then
        c <- child_node (as_problem self) node act ;;
        legal_walk_from self c rest
      else None
  end.

Definition legal_walk (self : VacuumPlanning) (s : State) (acts : list Action)
  : option VNode :=
  legal_walk_from self (root s) acts.

(** Do the moves that [actions] allows lead from the cells to the cells? *)
Definition closed_under_moves (self : VacuumPlanning) (cells : list State) : bool :=
  forallb (fun s =>
             match actions self s with
             | Some acts =>
                 forallb (fun a => existsb (state_eqb (fst (result self s a))) cells) acts
             | None => false
             end)
          cells.

(** The costs that are integers, and the step of the Step cost function. *)
Definition is_int (c : num) : Prop := exists z, c = NInt z.

(** [a + b] where the sum does not raise, as with two integers. *)
Definition num_sum (a b : num) : num :=
  match num_add a b with Some c => c | None => a end.

Definition one_more (c : num) (s : State) (a : Action) (s' : State) : num :=
  num_sum c (NInt 1).

(** The step of the StayLeft cost function: the x coordinate of the
    state entered is added. *)
Definition column_more (c : num) (s : State) (a : Action) (s' : State) : num :=
  num_sum c (NInt (fst s')).

(** The 3 x 3 room under the StayLeft cost. *)
Definition stay_left_room : VacuumPlanning :=
  corner_dirty "StayLeft" "UCS".

End Examples.


(* ------------------------------------------------------------------ *)
(** ** The invariant of uniform-cost search *)

Section UniformCostNotions.

Context {State Action C : Type}.
Variable C0 : C.
Variable C_ge : C -> C -> bool.
Variable problem : Problem State Action C.

(** [a <= b] on costs is [b >= a]. *)
Definition cost_le (a b : C) : Prop := C_ge b a = true.

(** The frontier holds an entry for the state [s] of value at most [x]. *)
Definition covered (front : list (entry State Action C)) (s : State) (x : C) : Prop :=
  exists e, In e front /\ state (snd e) = s /\ cost_le (fst e) x.

(** Every entry of [front] has an entry of [front'] for the same state
    that is not worse. *)
Definition improves (front front' : list (entry State Action C)) : Prop :=
  forall e, In e front -> covered front' (state (snd e)) (fst e).

(** The entries of a frontier: each holds a path of the problem with its
    cost as value, no state has two entries, and none is explored. *)
Record frontier_ok (root : Node State Action C)
       (front : list (entry State Action C)) (explore : set State) : Prop := {
  entries_legal : forall e, In e front ->
                            fst e = path_cost (snd e) /\ legal problem root (snd e);
  entries_distinct : NoDup (map (fun e => state (snd e)) front);
  entries_fresh : forall e, In e front -> ~ In (state (snd e)) explore
}.

(** An explored state [s]: it is no goal, and whatever path leads to it,
    each of its successors is explored or has an entry in the frontier
    that is not worse than the path extended to the successor. *)
Definition settled (root : Node State Action C)
           (front : list (entry State Action C)) (explore : set State)
           (s : State) : Prop :=
  goal_test problem s = false
  /\ forall (n c : Node State Action C) (avail : list Action) (act : Action),
      legal problem root n -> state n = s ->
      actions problem s = Some avail -> In act avail ->
      child_node problem n act = Some c ->
      In (state c) explore \/ covered front (state c) (path_cost c).

Record ucs_invariant (root : Node State Action C)
       (front : list (entry State Action C)) (explore : set State) : Prop := {
  inv_frontier : frontier_ok root front explore;
  inv_settled : forall s, In s explore -> settled root front explore s;
  inv_initial : In (initial problem) explore \/ covered front (initial problem) C0;
  inv_nodup : NoDup explore;
  inv_reachable : forall s, In s explore -> reachable problem s
}.

End UniformCostNotions.


(* ------------------------------------------------------------------ *)
(** ** The invariant of termination *)

Section TerminationNotions.

Context {State Action C : Type}.
Variable problem : Problem State Action C.

(** The states waiting in a frontier are distinct, reachable and not
    explored; the explored states are distinct and reachable. *)
Record waiting (states : list State) (explore : set State) : Prop := {
  waiting_distinct : NoDup states;
  waiting_fresh : forall s, In s states -> ~ In s explore;
  waiting_reachable : forall s, In s states -> reachable problem s;
  explored_distinct : NoDup explore;
  explored_reachable : forall s, In s explore -> reachable problem s
}.

End TerminationNotions.


(* ------------------------------------------------------------------ *)
(** ** What a graph search has seen, and what it answers *)

Section SearchNotions.

Context {State Action C : Type}.
Variable problem : Problem State Action C.
Variable root : Node State Action C.

(** The nodes of a frontier are paths of the problem; no explored state
    is a goal; every successor of an explored state is explored or waits
    in the frontier, and so does the initial state. *)
Record closed_search (nodes : list (Node State Action C)) (explore : set State)
  : Prop := {
  nodes_legal : forall n, In n nodes -> legal problem root n;
  explored_no_goal : forall s, In s explore -> goal_test problem s = false;
  explored_closed :
    forall s avail act,
      In s explore -> actions problem s = Some avail -> In act avail ->
      In (result problem s act) explore
      \/ In (result problem s act) (map (@state _ _ _) nodes);
  initial_seen :
    In (initial problem) explore \/ In (initial problem) (map (@state _ _ _) nodes)
}.

(** A method of the problem raises on a path from the root: [actions] at
    its last state, or [path_cost] for one of the actions of that state. *)
Definition problem_raises : Prop :=
  exists n, legal problem root n
            /\ (actions problem (state n) = None
                \/ exists avail act,
                    actions problem (state n) = Some avail /\ In act avail
                    /\ child_node problem n act = None).

(** What the outcome of a graph search says. *)
Definition answers (o : outcome (option (Node State Action C) * set State)) : Prop :=
  match o with
  | Returned (Some n, _) => legal problem root n /\ goal_test problem (state n) = true
  | Returned (None, explored) =>
      forall s, reachable problem s -> In s explored /\ goal_test problem s = false
  | Raised => problem_raises
  | OutOfFuel => True
  end.

(** The evaluation function of a best-first search raises on a path
    from the root. *)
Definition evaluation_raises (f : Node State Action C -> option C) : Prop :=
  exists n, legal problem root n /\ f n = None.

(** What the outcome of a best-first search with the function [f] says. *)
Definition answers_with (f : Node State Action C -> option C)
           (o : outcome (option (Node State Action C) * set State)) : Prop :=
  match o with
  | Raised => problem_raises \/ evaluation_raises f
  | _ => answers o
  end.

End SearchNotions.

Arguments nodes_legal {State Action C problem root nodes explore} _ n _.
Arguments explored_no_goal {State Action C problem root nodes explore} _ s _.
Arguments explored_closed {State Action C problem root nodes explore} _ s avail act _ _ _.
Arguments initial_seen {State Action C problem root nodes explore} _.

(* ------------------------------------------------------------------ *)
(** ** The invariant of breadth-first search *)

Section BreadthFirstNotions.

Context {State Action C : Type}.
Variable problem : Problem State Action C.
Variable root : Node State Action C.

(** The frontier holds a node for the state [s] of depth at most [d]. *)
Definition shallow (nodes : list (Node State Action C)) (s : State) (d : nat) : Prop :=
  exists n, In n nodes /\ state n = s /\ depth n <= d.

(** The frontier holds nodes of depth [d], then nodes of depth [d + 1]. *)
Definition layered (nodes : list (Node State Action C)) (d : nat) : Prop :=
  exists A B, nodes = A ++ B
              /\ Forall (fun n => depth n = d) A
              /\ Forall (fun n => depth n = S d) B.

(** An explored state [s]: it is no goal, no path reaches it in fewer
    than [d] steps, and each of its successors is explored or has a node
    of depth at most [d + 1] in the frontier. *)
Definition explored_at_depth (nodes : list (Node State Action C)) (explore : set State)
           (s : State) : Prop :=
  goal_test problem s = false
  /\ exists d,
      (forall n, legal problem root n -> state n = s -> d <= depth n)
      /\ forall avail act,
          actions problem s = Some avail -> In act avail ->
          In (result problem s act) explore
          \/ shallow nodes (result problem s act) (S d).

Record bfs_invariant (nodes : list (Node State Action C)) (explore : set State)
  : Prop := {
  bfs_legal : forall n, In n nodes ->
                        legal problem root n /\ goal_test problem (state n) = false;
  bfs_layers : exists d, layered nodes d;
  bfs_explored : forall s, In s explore -> explored_at_depth nodes explore s;
  bfs_initial : In (initial problem) explore \/ shallow nodes (initial problem) 0
}.

End BreadthFirstNotions.

Arguments bfs_legal {State Action C problem root nodes explore} _ n _.
Arguments bfs_layers {State Action C problem root nodes explore} _.
Arguments bfs_explored {State Action C problem root nodes explore} _ s _.
Arguments bfs_initial {State Action C problem root nodes explore} _.

(* ------------------------------------------------------------------ *)
(** ** Notions for the moves of the vacuum problem *)

Module Moves.

Import Vacuum.
Local Open Scope string_scope.
Local Open Scope Z_scope.

(** The directions that a thing near [state] blocks: a wall in the cell
    above blocks UP, below DOWN, to the right RIGHT, to the left LEFT. *)
Definition blocked_by (state : State) (slot : Thing) : list Action :=
  match thing_kind slot with
  | Wall =>
      let (x, y) := location slot in
      (if (x =? fst state) && (y =? snd state + 1) then ["UP"] else [])
      ++ (if (x =? fst state) && (y =? snd state - 1) then ["DOWN"] else [])
      ++ (if (x =? fst state + 1) && (y =? snd state) then ["RIGHT"] else [])
      ++ (if (x =? fst state - 1) && (y =? snd state) then ["LEFT"] else [])
  | _ => []
  end.

(** The blocked directions, one for each wall that [things_near] reports
    in a neighbouring cell, in the order of the report. *)
Definition blocked (self : VacuumPlanning) (state : State) : list Action :=
  flat_map (blocked_by state) (things_near (env self) state).

Definition is_blocked (self : VacuumPlanning) (state : State) (a : Action) : bool :=
  existsb (String.eqb a) (blocked self state).

(** Successive calls of [l.remove]. *)
Fixpoint remove_each (ds : list Action) (l : list Action) : option (list Action) :=
  match ds with
  | [] => Some l
  | d :: rest => l1 <- list_remove String.eqb d l ;; remove_each rest l1
  end.

(** The sum of the turn costs along a sequence of actions, after the
    action [prev]. *)
Fixpoint turn_costs (prev : option Action) (sol : list (option Action)) : Z :=
  match sol with
  | [] => 0
  | a :: rest => computeTurnCost prev a + turn_costs a rest
  end.

(** [VacuumPlanning.distance_manhattan], a function of the class that
    takes the two positions (it has no [self]). *)
Definition distance_manhattan (pos1 pos2 : State) : Z :=
  Z.abs (fst pos1 - fst pos2) + Z.abs (snd pos1 - snd pos2).

(** The sum of the x coordinates of the states of a path after its
    first. *)
Definition columns (n : VNode) : Z :=
  fold_right Z.add 0 (map (fun m : VNode => fst (state m)) (tl (path n))).

(** The 3 x 3 room with nothing dirty, and a problem on an environment
    without things, under the StayUp cost. *)
Definition clean_room : VacuumPlanning :=
  Examples.room3 [] (1, 1) "Step" "UCS" "Manhattan".

Definition no_things : VacuumPlanning :=
  init (grid_env [] (0, 0) "StayUp" "BFS" "Manhattan") "BFS".

End Moves.

(* ------------------------------------------------------------------ *)
(** ** A* search as uniform-cost search

    A* search orders the frontier by [f(n) = n.path_cost + h(n)].  On the
    problem whose path cost is this [f], that is where a step from [s] by
    [a] costs [1 + h(result(s, a)) - h(s)], uniform-cost search makes the
    same choices; [with_h] turns a node into the node of that problem. *)

Module Reduced.

Import Vacuum.
Local Open Scope Z_scope.

(** The value of [findMinManhattanDist], an integer. *)
Definition hz (self : VacuumPlanning) (s : State) : Z :=
  match findMinManhattanDist self s with NInt z => z | NFloat _ => 0 end.

Definition reduced_step (self : VacuumPlanning) (c : num) (s : State) (a : Action)
           (s' : State) : num :=
  Examples.num_sum c (NInt (1 + hz self (fst (result self s a)) - hz self s)).

Definition reduced_problem (self : VacuumPlanning) : Problem State Action num :=
  mkProblem (self_initial self) (self_state self) (actions self)
            (fun s a => fst (result self s a)) (goal_test self)
            (fun n s a s' => Some (reduced_step self (node_path_cost n) s a s'))
            (h self).

Fixpoint with_h (self : VacuumPlanning) (n : VNode) : VNode :=
  match n with
  | mkNode s p a c d =>
      mkNode s (match p with Some q => Some (with_h self q) | None => None end) a
             (Examples.num_sum c (findMinManhattanDist self s)) d
  end.

Definition with_h_entry (self : VacuumPlanning) (e : entry State Action num)
  : entry State Action num :=
  (fst e, with_h self (snd e)).

Definition with_h_outcome (self : VacuumPlanning)
           (o : outcome (option VNode * set State)) : outcome (option VNode * set State) :=
  match o with
  | Returned (Some n, explored) => Returned (Some (with_h self n), explored)
  | Returned (None, explored) => Returned (None, explored)
  | Raised => Raised
  | OutOfFuel => OutOfFuel
  end.

(** The evaluation function of A* search. *)
Definition f_astar (self : VacuumPlanning) (n : VNode) : option num :=
  num_add (node_path_cost n) (h self n).

End Reduced.


(* ------------------------------------------------------------------ *)
(** * Properties *)

Unset Implicit Arguments.

(* ------------------------------------------------------------------ *)
(** ** Python numbers

    On integers below [2^53] in absolute value the conversion to a float
    is exact and does not raise, and the true division of two such
    integers is the division of the two floats: the quotient of the
    integers and the quotient of their floats are rounded from the same
    rational number. *)

Module FloatFacts.

Local Open Scope Z_scope.

Lemma digits2_pos_size (p : positive) : digits2_pos p = Pos.size p.
Proof. induction p; simpl; congruence. Qed.

Lemma Zdigits2_log2 (m : Z) : 0 < m -> Zdigits2 m = Z.log2 m + 1.
Proof.
  destruct m as [|p|p]; try lia. intros _.
  destruct p; cbn [Zdigits2 digits2_pos Z.log2]; rewrite ?digits2_pos_size; lia.
Qed.

Lemma Zdigits2_nonneg (m : Z) : 0 <= Zdigits2 m.
Proof. destruct m; simpl; lia. Qed.

Lemma Zdigits2_succ (m : Z) : 0 <= m -> Zdigits2 (m + 1) <= Zdigits2 m + 1.
Proof.
  intros Hm. destruct (Z.eq_dec m 0) as [->|Hne]; [simpl; lia|].
  rewrite !Zdigits2_log2 by lia.
  pose proof (Z.log2_succ_le m). unfold Z.succ in *. lia.
Qed.

Lemma Zdigits2_le (m n : Z) : 0 <= m <= n -> Zdigits2 m <= Zdigits2 n.
Proof.
  intros [Hm Hn]. destruct (Z.eq_dec m 0) as [->|Hne]; [apply Zdigits2_nonneg|].
  rewrite !Zdigits2_log2 by lia.
  pose proof (Z.log2_le_mono m n Hn). lia.
Qed.

Lemma Zdigits2_lt_pow2 (m k : Z) : 0 <= k -> 0 <= m < 2 ^ k -> Zdigits2 m <= k.
Proof.
  intros Hk [Hm Hlt]. destruct (Z.eq_dec m 0) as [->|Hne]; [simpl; lia|].
  rewrite Zdigits2_log2 by lia.
  assert (Z.log2 m < k) by (apply Z.log2_lt_pow2; lia). lia.
Qed.

Lemma Zdigits2_gt (m : Z) : 0 <= m -> m < 2 ^ Zdigits2 m.
Proof.
  intros Hm. destruct (Z.eq_dec m 0) as [->|Hne]; [simpl; lia|].
  rewrite Zdigits2_log2 by lia.
  pose proof (Z.log2_spec m). unfold Z.succ in *. lia.
Qed.

Lemma shr_1_digits (mrs : shr_record) :
  Zdigits2 (shr_m (shr_1 mrs)) = Z.max 0 (Zdigits2 (shr_m mrs) - 1)
  /\ (0 <= shr_m mrs -> 0 <= shr_m (shr_1 mrs)).
Proof.
  destruct mrs as [m r s]. destruct m as [|p|p]; [simpl; lia| |];
    destruct p; cbn [shr_1 shr_m Zdigits2 digits2_pos]; lia.
Qed.

Lemma shr_digits (p : positive) :
  forall mrs,
    Zdigits2 (shr_m (iter_pos shr_1 p mrs)) = Z.max 0 (Zdigits2 (shr_m mrs) - Zpos p)
    /\ (0 <= shr_m mrs -> 0 <= shr_m (iter_pos shr_1 p mrs)).
Proof.
  induction p as [p IH|p IH|]; intros mrs; cbn [iter_pos].
  - destruct (shr_1_digits mrs) as [H1 N1].
    destruct (IH (shr_1 mrs)) as [H2 N2].
    destruct (IH (iter_pos shr_1 p (shr_1 mrs))) as [H3 N3].
    split; [rewrite H3, H2, H1; lia|auto].
  - destruct (IH mrs) as [H2 N2].
    destruct (IH (iter_pos shr_1 p mrs)) as [H3 N3].
    split; [rewrite H3, H2; lia|auto].
  - apply shr_1_digits.
Qed.

Lemma shr_record_of_loc_m (m : Z) (l : location) : shr_m (shr_record_of_loc m l) = m.
Proof. destruct l as [|[]]; reflexivity. Qed.

Lemma fexp_eq (k : Z) : fexp prec emax k = Z.max (k - 53) (-1074).
Proof. reflexivity. Qed.

(** What [shr_fexp] does to the exponent and to the number of digits. *)
Lemma shr_fexp_bound (m e : Z) (l : location) (mrs : shr_record) (e' : Z) :
  0 <= m -> shr_fexp prec emax m e l = (mrs, e') ->
  0 <= shr_m mrs
  /\ e' = Z.max e (fexp prec emax (Zdigits2 m + e))
  /\ Zdigits2 (shr_m mrs) = Z.max 0 (Zdigits2 m - (e' - e)).
Proof.
  intros Hm. unfold shr_fexp, shr.
  pose proof (Zdigits2_nonneg m) as Hd.
  destruct (fexp prec emax (Zdigits2 m + e) - e) as [|p|p] eqn:Hn.
  - intros H. injection H as <- <-. rewrite shr_record_of_loc_m. lia.
  - intros H. injection H as <- <-.
    destruct (shr_digits p (shr_record_of_loc m l)) as [H1 H2].
    rewrite shr_record_of_loc_m in *. rewrite H1. lia.
  - intros H. injection H as <- <-. rewrite shr_record_of_loc_m. lia.
Qed.

Lemma round_nearest_even_bound (m : Z) (l : location) :
  0 <= m -> m <= round_nearest_even m l <= m + 1.
Proof.
  intros Hm. destruct l as [|[]]; cbn [round_nearest_even]; try lia.
  destruct (Z.even m); lia.
Qed.

(** Rounding gives no infinity when the value is below [2^1023]. *)
Lemma binary_round_aux_finite (sx : bool) (mx ex : Z) (lx : location) :
  0 <= mx -> ex <= 971 -> Zdigits2 mx + ex <= 1023 ->
  forall s, binary_round_aux prec emax sx mx ex lx <> S754_infinity s.
Proof.
  intros Hm He Hd s. unfold binary_round_aux.
  destruct (shr_fexp prec emax mx ex lx) as [mrs' e'] eqn:H1.
  destruct (shr_fexp_bound mx ex lx mrs' e' Hm H1) as (N1 & E1 & D1).
  pose proof (round_nearest_even_bound (shr_m mrs') (loc_of_shr_record mrs') N1) as Hr.
  set (m1 := round_nearest_even (shr_m mrs') (loc_of_shr_record mrs')) in *.
  destruct (shr_fexp prec emax m1 e' loc_Exact) as [mrs'' e''] eqn:H2.
  assert (Hm1 : 0 <= m1) by lia.
  destruct (shr_fexp_bound m1 e' loc_Exact mrs'' e'' Hm1 H2) as (N2 & E2 & D2).
  assert (Hd1 : Zdigits2 m1 <= Zdigits2 (shr_m mrs') + 1).
  { transitivity (Zdigits2 (shr_m mrs' + 1)); [apply Zdigits2_le; lia|].
    now apply Zdigits2_succ. }
  pose proof (Zdigits2_nonneg mx) as Hdx.
  rewrite fexp_eq in E1, E2.
  assert (He'' : e'' <= 971) by lia.
  destruct (shr_m mrs''); try discriminate.
  destruct (Z.leb_spec e'' (emax - prec)) as [_|Hgt]; [discriminate|].
  change (emax - prec) with 971 in Hgt. lia.
Qed.

Lemma iter_xO (a n : positive) :
  Zpos (Pos.iter xO a n) = Zpos a * 2 ^ Zpos n
  /\ Zpos (digits2_pos (Pos.iter xO a n)) = Zpos (digits2_pos a) + Zpos n.
Proof.
  induction n as [|n IH] using Pos.peano_ind.
  - cbn [Pos.iter digits2_pos]. lia.
  - rewrite Pos.iter_succ. cbn [digits2_pos]. destruct IH as [IH1 IH2].
    rewrite Pos2Z.inj_xO, IH1, Pos2Z.inj_succ, Z.pow_succ_r by lia. lia.
Qed.

(** A mantissa of 53 digits with an exponent in the range is left as it
    is. *)
Lemma binary_round_aux_canonical (s : bool) (mz : positive) (ez : Z) :
  Zpos (digits2_pos mz) = 53 -> -1074 <= ez <= 971 ->
  binary_round_aux prec emax s (Zpos mz) ez loc_Exact = S754_finite s mz ez.
Proof.
  intros Hd He. unfold binary_round_aux, shr_fexp.
  cbn [Zdigits2 shr_record_of_loc]. rewrite Hd.
  replace (fexp prec emax (53 + ez) - ez) with 0 by (rewrite fexp_eq; lia).
  cbn [shr shr_m loc_of_shr_record round_nearest_even Zdigits2]. rewrite Hd.
  replace (fexp prec emax (53 + ez) - ez) with 0 by (rewrite fexp_eq; lia).
  cbn [shr shr_m].
  destruct (Z.leb_spec ez (emax - prec)) as [_|Hgt]; [reflexivity|].
  change (emax - prec) with 971 in Hgt. lia.
Qed.

(** The float of a positive integer of at most 53 digits: the integer
    shifted to 53 digits. *)
Lemma shl_align_small (m : positive) :
  Zpos (digits2_pos m) <= 53 ->
  shl_align m 0 (Zpos (digits2_pos m) - 53)
  = (fst (shl_align m 0 (Zpos (digits2_pos m) - 53)), Zpos (digits2_pos m) - 53)
  /\ Zpos (fst (shl_align m 0 (Zpos (digits2_pos m) - 53)))
     = Zpos m * 2 ^ (53 - Zpos (digits2_pos m))
  /\ Zpos (digits2_pos (fst (shl_align m 0 (Zpos (digits2_pos m) - 53)))) = 53.
Proof.
  intros Hd. unfold shl_align. rewrite Z.sub_0_r.
  destruct (Zpos (digits2_pos m) - 53) as [|p|p] eqn:Hn; [|lia|]; cbn [fst].
  - replace (53 - Zpos (digits2_pos m)) with 0 by lia. repeat split; lia.
  - destruct (iter_xO m p) as [H1 H2].
    replace (53 - Zpos (digits2_pos m)) with (Zpos p) by lia. repeat split; lia.
Qed.

Lemma binary_round_small (s : bool) (m : positive) :
  Zpos (digits2_pos m) <= 53 ->
  binary_round prec emax s m 0
  = S754_finite s (fst (shl_align m 0 (Zpos (digits2_pos m) - 53)))
                (Zpos (digits2_pos m) - 53).
Proof.
  intros Hd. unfold binary_round.
  rewrite Z.add_0_r, fexp_eq.
  replace (Z.max (Zpos (digits2_pos m) - 53) (-1074)) with (Zpos (digits2_pos m) - 53)
    by lia.
  destruct (shl_align_small m Hd) as (-> & _ & H53).
  apply binary_round_aux_canonical; [exact H53|lia].
Qed.

Lemma small_digits (m : positive) : Zpos m < 2 ^ 53 -> Zpos (digits2_pos m) <= 53.
Proof.
  intros H. change (Zpos (digits2_pos m)) with (Zdigits2 (Zpos m)).
  apply Zdigits2_lt_pow2; lia.
Qed.

(** [exact_float z] is the float whose value is [z]. *)
Lemma exact_float_spec (z : Z) :
  Z.abs z < 2 ^ 53 ->
  Prim2SF (exact_float z) = binary_normalize prec emax z 0 false.
Proof.
  intros Hz. unfold exact_float.
  assert (Hw : 2 ^ 53 < wB) by reflexivity.
  destruct (Z.ltb_spec z 0) as [Hneg|Hpos].
  - rewrite opp_spec, of_uint63_spec, of_Z_spec, Z.mod_small by lia.
    destruct z as [|p|p]; try lia. cbn [Z.opp binary_normalize].
    rewrite !binary_round_small by (apply small_digits; lia). reflexivity.
  - rewrite of_uint63_spec, of_Z_spec, Z.mod_small by lia. reflexivity.
Qed.

Lemma binary_normalize_small (z : Z) :
  Z.abs z < 2 ^ 53 ->
  binary_normalize prec emax z 0 false
  = match z with
    | Z0 => S754_zero false
    | Zpos p => S754_finite false (fst (shl_align p 0 (Zpos (digits2_pos p) - 53)))
                            (Zpos (digits2_pos p) - 53)
    | Zneg p => S754_finite true (fst (shl_align p 0 (Zpos (digits2_pos p) - 53)))
                            (Zpos (digits2_pos p) - 53)
    end.
Proof.
  intros Hz. destruct z as [|p|p]; cbn [binary_normalize]; [reflexivity| |];
    apply binary_round_small, small_digits; lia.
Qed.

Lemma finite_result_Prim2SF (x : float) :
  (forall s, Prim2SF x <> S754_infinity s) -> finite_result (Prim2SF x) = Some x.
Proof.
  intros H. unfold finite_result.
  destruct (Prim2SF x) as [s|s| |s m e] eqn:E; rewrite <- ?E, ?SF2Prim_Prim2SF;
    try reflexivity.
  exfalso. exact (H s eq_refl).
Qed.

(** [float(z)] for a small integer: the exact float, no [OverflowError]. *)
Lemma float_of_Z_small (z : Z) :
  Z.abs z < 2 ^ 53 -> float_of_Z z = Some (exact_float z).
Proof.
  intros Hz. unfold float_of_Z. rewrite <- (exact_float_spec z Hz).
  apply finite_result_Prim2SF. intros s.
  rewrite (exact_float_spec z Hz), (binary_normalize_small z Hz).
  destruct z; discriminate.
Qed.

(** *** Division *)

Lemma div_eucl_div_mod (a b : Z) : Z.div_eucl a b = (a / b, a mod b).
Proof. unfold Z.div, Z.modulo. destruct (Z.div_eucl a b). reflexivity. Qed.

(** The location of a remainder does not change when the divisor and the
    remainder are doubled. *)
Lemma new_location_double (m r : Z) : new_location (2 * m) (2 * r) = new_location m r.
Proof.
  unfold new_location. rewrite Z.even_mul. cbn [Z.even orb].
  destruct (Z.even m) eqn:Hev; unfold new_location_even, new_location_odd;
    (replace (2 * r =? 0) with (r =? 0)
      by (destruct (Z.eqb_spec (2 * r) 0), (Z.eqb_spec r 0); lia || reflexivity));
    (destruct (r =? 0); [reflexivity|]); f_equal.
  - destruct (Z.compare_spec (2 * (2 * r)) (2 * m)), (Z.compare_spec (2 * r) m);
      try reflexivity; lia.
  - assert (Hodd : Z.odd m = true) by (rewrite <- Z.negb_even, Hev; reflexivity).
    apply Z.odd_spec in Hodd. destruct Hodd as (j & Hj).
    destruct (Z.compare_spec (2 * (2 * r)) (2 * m)),
             (Z.compare_spec (2 * r + 1) m); try reflexivity; lia.
Qed.

Lemma new_location_scale (j : Z) :
  0 <= j -> forall m r, new_location (m * 2 ^ j) (r * 2 ^ j) = new_location m r.
Proof.
  intros Hj. pattern j. apply natlike_ind; [| |exact Hj].
  - intros m r. now rewrite !Z.mul_1_r.
  - intros k Hk IH m r. rewrite Z.pow_succ_r by exact Hk.
    replace (m * (2 * 2 ^ k)) with (2 * (m * 2 ^ k)) by ring.
    replace (r * (2 * 2 ^ k)) with (2 * (r * 2 ^ k)) by ring.
    rewrite new_location_double. apply IH.
Qed.

(** The core of a division whose dividend is shifted to the left. *)
Lemma SFdiv_core_shifted (m1 : positive) (e1 : Z) (m2 : positive) (e2 e' : Z) :
  e' = Z.min (fexp prec emax (Zdigits2 (Zpos m1) + e1 - (Zdigits2 (Zpos m2) + e2)))
             (e1 - e2) ->
  0 < e1 - e2 - e' ->
  SFdiv_core_binary prec emax (Zpos m1) e1 (Zpos m2) e2
  = ((Zpos m1 * 2 ^ (e1 - e2 - e')) / Zpos m2, e',
     new_location (Zpos m2) ((Zpos m1 * 2 ^ (e1 - e2 - e')) mod Zpos m2)).
Proof.
  intros He' Hs. unfold SFdiv_core_binary. rewrite <- He'.
  destruct (e1 - e2 - e') as [|p|p] eqn:E; try lia.
  rewrite Z.shiftl_mul_pow2 by lia. now rewrite div_eucl_div_mod.
Qed.

(** Dividing two small integers gives the same as dividing their floats. *)
Lemma SFdiv_core_small (my mn : positive) :
  Zpos (digits2_pos my) <= 53 -> Zpos (digits2_pos mn) <= 53 ->
  let dy := Zpos (digits2_pos my) in
  let dn := Zpos (digits2_pos mn) in
  SFdiv_core_binary prec emax (Zpos (fst (shl_align my 0 (dy - 53)))) (dy - 53)
                    (Zpos (fst (shl_align mn 0 (dn - 53)))) (dn - 53)
  = SFdiv_core_binary prec emax (Zpos my) 0 (Zpos mn) 0
  /\ exists q l,
      SFdiv_core_binary prec emax (Zpos my) 0 (Zpos mn) 0 = (q, dy - dn - 53, l)
      /\ 0 <= q /\ Zdigits2 q <= 53 + dn.
Proof.
  intros Hy Hn dy dn.
  destruct (shl_align_small my Hy) as (_ & Hmy & Hdy).
  destruct (shl_align_small mn Hn) as (_ & Hmn & Hdn).
  fold dy in Hmy, Hdy. fold dn in Hmn, Hdn.
  assert (Hy1 : 1 <= dy) by (unfold dy; lia).
  assert (Hn1 : 1 <= dn) by (unfold dn; lia).
  rewrite (SFdiv_core_shifted (fst (shl_align my 0 (dy - 53))) (dy - 53)
             (fst (shl_align mn 0 (dn - 53))) (dn - 53) (dy - dn - 53));
    [|cbn [Zdigits2]; rewrite Hdy, Hdn, fexp_eq; lia|lia].
  rewrite (SFdiv_core_shifted my 0 mn 0 (dy - dn - 53));
    [|cbn [Zdigits2]; fold dy dn; rewrite fexp_eq; lia|lia].
  replace (dy - 53 - (dn - 53) - (dy - dn - 53)) with 53 by lia.
  replace (0 - 0 - (dy - dn - 53)) with (53 + dn - dy) by lia.
  rewrite Hmy, Hmn.
  assert (Hnum : Zpos my * 2 ^ (53 - dy) * 2 ^ 53
                 = Zpos my * 2 ^ (53 + dn - dy) * 2 ^ (53 - dn)).
  { rewrite <- !Z.mul_assoc, <- !Z.pow_add_r by lia. do 2 f_equal. lia. }
  rewrite Hnum.
  assert (Hk : 2 ^ (53 - dn) <> 0) by (apply Z.pow_nonzero; lia).
  rewrite Z.div_mul_cancel_r, Z.mul_mod_distr_r by lia.
  rewrite new_location_scale by lia.
  split; [reflexivity|].
  eexists _, _. split; [reflexivity|].
  assert (Hpos : 0 < 2 ^ (53 + dn - dy)) by (apply Z.pow_pos_nonneg; lia).
  assert (Hq0 : 0 <= Zpos my * 2 ^ (53 + dn - dy) / Zpos mn)
    by (apply Z.div_pos; [apply Z.mul_nonneg_nonneg; lia|lia]).
  split; [exact Hq0|].
  apply Zdigits2_lt_pow2; [lia|]. split; [exact Hq0|].
  apply Z.le_lt_trans with (Zpos my * 2 ^ (53 + dn - dy)).
  - apply Z.div_le_upper_bound; [lia|].
    assert (Ha : 0 <= Zpos my * 2 ^ (53 + dn - dy))
      by (apply Z.mul_nonneg_nonneg; lia).
    rewrite <- (Z.mul_1_l (Zpos my * 2 ^ (53 + dn - dy))) at 1.
    apply Z.mul_le_mono_nonneg_r; [exact Ha|lia].
  - pose proof (Zdigits2_gt (Zpos my) ltac:(lia)) as Hgt. cbn [Zdigits2] in Hgt.
    fold dy in Hgt.
    assert (Hpow : 2 ^ (53 + dn) = 2 ^ dy * 2 ^ (53 + dn - dy))
      by (rewrite <- Z.pow_add_r by lia; f_equal; lia).
    rewrite Hpow. apply Z.mul_lt_mono_pos_r; [exact Hpos|exact Hgt].
Qed.

Lemma SFdiv_small (y n : Z) :
  Z.abs y < 2 ^ 53 -> 0 < n < 2 ^ 53 ->
  SFdiv prec emax (Z2SF y) (Z2SF n)
  = SFdiv prec emax (binary_normalize prec emax y 0 false)
          (binary_normalize prec emax n 0 false)
  /\ forall s, SFdiv prec emax (Z2SF y) (Z2SF n) <> S754_infinity s.
Proof.
  intros Hy Hn.
  rewrite (binary_normalize_small y Hy), (binary_normalize_small n) by lia.
  destruct n as [|mn|mn]; try lia.
  assert (Hdn : Zpos (digits2_pos mn) <= 53) by (apply small_digits; lia).
  destruct y as [|my|my]; cbn [Z2SF SFdiv]; [split; [reflexivity|discriminate]| |];
    (assert (Hdy : Zpos (digits2_pos my) <= 53) by (apply small_digits; lia);
     destruct (SFdiv_core_small my mn Hdy Hdn) as (-> & q & l & -> & Hq & Hd);
     split; [reflexivity|];
     apply binary_round_aux_finite; [exact Hq|lia|lia]).
Qed.

(** [y / n] on small integers is the quotient of the two floats; it does
    not raise. *)
Lemma int_truediv_small (y n : Z) :
  Z.abs y < 2 ^ 53 -> 0 < n < 2 ^ 53 ->
  int_truediv y n = Some (NFloat (exact_float y / exact_float n)%float).
Proof.
  intros Hy Hn. unfold int_truediv.
  destruct (Z.eqb_spec n 0) as [H0|_]; [lia|].
  destruct (SFdiv_small y n Hy Hn) as [Heq Hfin].
  assert (Hdiv : Prim2SF (exact_float y / exact_float n)%float
                 = SFdiv prec emax (Z2SF y) (Z2SF n)).
  { rewrite div_spec, !exact_float_spec by lia. symmetry. exact Heq. }
  rewrite <- Hdiv, finite_result_Prim2SF; [reflexivity|].
  intros s. rewrite Hdiv. apply Hfin.
Qed.

Lemma int_truediv_zero (y : Z) : int_truediv y 0 = None.
Proof. reflexivity. Qed.

End FloatFacts.

(* ------------------------------------------------------------------ *)
(** ** The turn cost *)

Module TurnCost.

Import Vacuum Notions.
Local Open Scope string_scope.
Local Open Scope Z_scope.

Lemma index_of_direction (a : option string) :
  list_index opt_string_eqb a directions = option_map dir_index (parse_direction a).
Proof.
  destruct a as [s|]; [|reflexivity].
  unfold directions; cbn [list_index opt_string_eqb parse_direction].
  rewrite (String.eqb_sym "UP" s), (String.eqb_sym "RIGHT" s),
    (String.eqb_sym "DOWN" s), (String.eqb_sym "LEFT" s).
  destruct (String.eqb s "UP"); [reflexivity|].
  destruct (String.eqb s "RIGHT"); [reflexivity|].
  destruct (String.eqb s "DOWN"); [reflexivity|].
  destruct (String.eqb s "LEFT"); reflexivity.
Qed.

Lemma computeTurnCost_parsed (action1 action : option string) :
  computeTurnCost action1 action =
    match parse_direction action1, parse_direction action with
    | Some d1, Some d2 => 3 * rotation_distance d1 d2
    | _, _ => 0
    end.
Proof.
  unfold computeTurnCost. rewrite !index_of_direction.
  destruct (parse_direction action1) as [d1|]; simpl; [|reflexivity].
  destruct (parse_direction action) as [d2|]; simpl; [|reflexivity].
  destruct d1, d2; reflexivity.
Qed.

Lemma rotation_distance_sym (a b : Dir) :
  rotation_distance a b = rotation_distance b a.
Proof. unfold rotation_distance. apply Z.min_comm. Qed.

Lemma rotation_distance_range (a b : Dir) :
  rotation_distance a b = 0 \/ rotation_distance a b = 1 \/ rotation_distance a b = 2.
Proof. destruct a, b; cbv; auto. Qed.

End TurnCost.

(** C9. [computeTurnCost] is 0 as soon as one argument is not one of UP,
    RIGHT, DOWN, LEFT (so for the [None] action of a root); for two
    directions it is 3 times their rotation distance on the 4-cycle; its
    value is always 0, 3 or 6; and it is symmetric. *)
Theorem computeTurnCost_spec :
  (forall a1 a : option string,
      Vacuum.computeTurnCost a1 a =
        match Notions.parse_direction a1, Notions.parse_direction a with
        | Some d1, Some d2 => (3 * Notions.rotation_distance d1 d2)%Z
        | _, _ => 0%Z
        end)
  /\ (forall a : option string,
        Vacuum.computeTurnCost None a = 0%Z /\ Vacuum.computeTurnCost a None = 0%Z)
  /\ (forall a1 a : option string,
        Vacuum.computeTurnCost a1 a = 0%Z \/ Vacuum.computeTurnCost a1 a = 3%Z
        \/ Vacuum.computeTurnCost a1 a = 6%Z)
  /\ (forall a1 a : option string,
        Vacuum.computeTurnCost a1 a = Vacuum.computeTurnCost a a1).
Proof.
  split; [|split; [|split]]; intros.
  - apply TurnCost.computeTurnCost_parsed.
  - split; [reflexivity|].
    rewrite TurnCost.computeTurnCost_parsed.
    destruct (Notions.parse_direction a); reflexivity.
  - rewrite TurnCost.computeTurnCost_parsed.
    destruct (Notions.parse_direction a1) as [d1|]; [|auto].
    destruct (Notions.parse_direction a) as [d2|]; [|auto].
    destruct (TurnCost.rotation_distance_range d1 d2) as [E|[E|E]]; rewrite E; auto.
  - rewrite !TurnCost.computeTurnCost_parsed.
    destruct (Notions.parse_direction a1) as [d1|], (Notions.parse_direction a) as [d2|];
      try reflexivity.
    now rewrite TurnCost.rotation_distance_sym.
Qed.

(* ------------------------------------------------------------------ *)
(** ** The heuristics *)

Module Heuristic.

Import Vacuum Notions.
Local Open Scope Z_scope.

Lemma running_min_spec (d : State -> Z) (rooms : list State) :
  forall start,
    let m := running_min d rooms start in
    Forall (fun room => below m (d room)) rooms
    /\ not_above m start
    /\ (m = start \/ exists room, In room rooms /\ m = Fin (d room)).
Proof.
  induction rooms as [|room rooms IH]; intros start; simpl.
  - repeat split; [constructor | destruct start; simpl; lia | now left].
  - set (start' := if lt_ext (d room) start then Fin (d room) else start).
    destruct (IH start') as (Hall & Hle & Hin).
    fold (running_min d rooms start') in *.
    assert (Hs : not_above start' start /\ below start' (d room)
                 /\ (start' = start \/ start' = Fin (d room))).
    { unfold start'. destruct start as [|a]; simpl.
      - repeat split; [lia | now right].
      - destruct (Z.ltb_spec (d room) a); simpl; repeat split; try lia; auto. }
    destruct Hs as (Hs1 & Hs2 & Hs3).
    assert (Htrans : forall z, below start' z -> below (running_min d rooms start') z).
    { intros z. destruct (running_min d rooms start'), start'; simpl in *; try tauto; lia. }
    repeat split.
    + constructor; [now apply Htrans | exact Hall].
    + destruct (running_min d rooms start'), start', start; simpl in *; try tauto; lia.
    + destruct Hin as [Hin|(r & Hr & Hm)].
      * rewrite Hin. destruct Hs3 as [->| ->]; [now left | right; exists room; auto].
      * right. exists r. auto.
Qed.

Lemma running_min_nonempty (d : State -> Z) (room : State) (rooms : list State) :
  exists r, In r (room :: rooms)
            /\ running_min d (room :: rooms) Inf = Fin (d r)
            /\ Forall (fun r' => d r <= d r') (room :: rooms).
Proof.
  destruct (running_min_spec d (room :: rooms) Inf) as (Hall & _ & Hin).
  destruct Hin as [Hin|(r & Hr & Hm)].
  - rewrite Hin in Hall. inversion Hall as [|? ? Hb _]. destruct Hb.
  - exists r. split; [exact Hr|]. split; [exact Hm|].
    rewrite Hm in Hall. exact Hall.
Qed.

Lemma findMinManhattanDist_eq (self : VacuumPlanning) (pos : State) :
  findMinManhattanDist self pos =
    match dirty_rooms self with
    | [] => NInt 0
    | _ :: _ => ext_num (running_min (manhattan pos) (dirty_rooms self) Inf)
    end.
Proof. reflexivity. Qed.

Lemma findMinEuclidDist_eq (self : VacuumPlanning) (pos : State) :
  findMinEuclidDist self pos =
    match dirty_rooms self with
    | [] => NInt 0
    | _ :: _ => ext_num (running_min (euclid_squared pos) (dirty_rooms self) Inf)
    end.
Proof. reflexivity. Qed.

Lemma h_eq (self : VacuumPlanning) (node : VNode) :
  h self node =
    match dirty_rooms self with
    | [] => NInt 0
    | _ :: _ =>
        ext_num (running_min (selected_distance (heuristic (env self)) (state node))
                             (dirty_rooms self) Inf)
    end.
Proof.
  unfold h, selected_distance.
  destruct (String.eqb (heuristic (env self)) "Manhattan").
  - apply findMinManhattanDist_eq.
  - apply findMinEuclidDist_eq.
Qed.

(** The dirty rooms are the locations of the things of the environment
    that are dirt. *)
Lemma kind_eqb_Dirt (t : Thing) : is_Dirt t = true <-> thing_kind t = Dirt.
Proof. unfold is_Dirt. destruct (thing_kind t); simpl; split; congruence. Qed.

Lemma dirty_rooms_spec (self : VacuumPlanning) (room : State) :
  In room (dirty_rooms self)
  <-> exists t, In t (things (env self)) /\ thing_kind t = Dirt /\ location t = room.
Proof.
  unfold dirty_rooms. rewrite in_map_iff. split.
  - intros (t & Hloc & Ht). apply filter_In in Ht. destruct Ht as [Hin Hk].
    exists t. split; [exact Hin|]. split; [now apply kind_eqb_Dirt|exact Hloc].
  - intros (t & Hin & Hk & Hloc). exists t. split; [exact Hloc|].
    apply filter_In. split; [exact Hin|now apply kind_eqb_Dirt].
Qed.

Lemma dirty_rooms_nil (self : VacuumPlanning) :
  dirty_rooms self = []
  <-> forall t, In t (things (env self)) -> thing_kind t <> Dirt.
Proof.
  split.
  - intros Hnil t Hin Hk.
    assert (H : In (location t) (dirty_rooms self)) by (apply dirty_rooms_spec; eauto).
    rewrite Hnil in H. exact H.
  - intros Hno. destruct (dirty_rooms self) as [|room rooms] eqn:E; [reflexivity|].
    assert (H : In room (dirty_rooms self)) by (rewrite E; now left).
    apply dirty_rooms_spec in H. destruct H as (t & Hin & Hk & _).
    exfalso. exact (Hno t Hin Hk).
Qed.

End Heuristic.

(** C6. [h(node)] is the least distance from the state of the node to a
    dirty room, that is to the location of a thing of the environment
    that is dirt: the Manhattan distance when the selector is
    ['Manhattan'] and the squared Euclidean distance otherwise; it is 0
    when the environment holds no dirt. *)
Theorem h_is_nearest_dirty_room :
  forall (self : Vacuum.VacuumPlanning) (node : Vacuum.VNode),
    let things := Vacuum.things (Vacuum.env self) in
    let dist := Notions.selected_distance (Vacuum.heuristic (Vacuum.env self)) (state node) in
    ((forall t, In t things -> Vacuum.thing_kind t <> Vacuum.Dirt)
     /\ Vacuum.h self node = NInt 0)
    \/ (exists dirt,
           In dirt things /\ Vacuum.thing_kind dirt = Vacuum.Dirt
           /\ Vacuum.h self node = NInt (dist (Vacuum.location dirt))
           /\ forall other,
               In other things -> Vacuum.thing_kind other = Vacuum.Dirt ->
               (dist (Vacuum.location dirt) <= dist (Vacuum.location other))%Z).
Proof.
  intros self node things dist. rewrite Heuristic.h_eq. fold dist.
  destruct (Vacuum.dirty_rooms self) as [|room rooms'] eqn:Hrooms.
  - left. split; [|reflexivity]. now apply Heuristic.dirty_rooms_nil.
  - right.
    destruct (Heuristic.running_min_nonempty dist room rooms') as (r & Hin & Hm & Hall).
    rewrite <- Hrooms in Hin, Hall.
    apply Heuristic.dirty_rooms_spec in Hin. destruct Hin as (t & Hin & Hk & <-).
    exists t. rewrite Hm. repeat split; auto.
    intros other Hother Hkind.
    apply (proj1 (Forall_forall _ _) Hall (Vacuum.location other)).
    apply Heuristic.dirty_rooms_spec. eauto.
Qed.

(* ------------------------------------------------------------------ *)
(** ** The effect of [result] *)

(** The problem the searches see is the same after a call of [result]:
    the direction of the agent is read by none of its methods. *)
Lemma result_keeps_the_problem (self : Vacuum.VacuumPlanning) (state : Vacuum.State)
      (action : Vacuum.Action) :
  Vacuum.as_problem (snd (Vacuum.result self state action)) = Vacuum.as_problem self.
Proof. reflexivity. Qed.

(** C3, as stated, fails: [result] is not free of effects.  In the room
    with the agent facing UP, [result((1,1), 'RIGHT')] leaves a problem
    object whose agent faces RIGHT. *)
Lemma result_changes_the_agent :
  Vacuum.direction (Vacuum.self_agent (Examples.corner_dirty "Step" "BFS")) = "UP"%string
  /\ Vacuum.direction
       (Vacuum.self_agent
          (snd (Vacuum.result (Examples.corner_dirty "Step" "BFS") (1, 1)%Z "RIGHT"%string)))
     = "RIGHT"%string
  /\ snd (Vacuum.result (Examples.corner_dirty "Step" "BFS") (1, 1)%Z "RIGHT"%string)
     <> Examples.corner_dirty "Step" "BFS".
Proof.
  split; [reflexivity|]. split; [reflexivity|].
  intros H.
  apply (f_equal (fun p => Vacuum.direction (Vacuum.self_agent p))) in H.
  vm_compute in H. discriminate H.
Qed.

(** C3, amended.  [result(state, action)] returns the successor state,
    which depends on the state and the action only, so that a second call
    returns the same state; its one effect is to set the direction of the
    agent to the action: the location of the agent, the things, selectors
    and methods of the environment and the attributes of the problem are
    as before. *)
Theorem result_spec :
  forall (self : Vacuum.VacuumPlanning) (state : Vacuum.State) (action : Vacuum.Action),
    let new_state := fst (Vacuum.result self state action) in
    let self' := snd (Vacuum.result self state action) in
    new_state = match Notions.parse_direction (Some action) with
                | Some d => Examples.move d state
                | None => state
                end
    /\ (forall other : Vacuum.VacuumPlanning,
           fst (Vacuum.result other state action) = new_state)
    /\ fst (Vacuum.result self' state action) = new_state
    /\ Vacuum.direction (Vacuum.self_agent self') = action
    /\ Vacuum.agent_location (Vacuum.self_agent self')
       = Vacuum.agent_location (Vacuum.self_agent self)
    /\ Vacuum.things (Vacuum.env self') = Vacuum.things (Vacuum.env self)
    /\ Vacuum.costFunc (Vacuum.env self') = Vacuum.costFunc (Vacuum.env self)
    /\ Vacuum.searchType (Vacuum.env self') = Vacuum.searchType (Vacuum.env self)
    /\ Vacuum.heuristic (Vacuum.env self') = Vacuum.heuristic (Vacuum.env self)
    /\ Vacuum.things_near (Vacuum.env self') = Vacuum.things_near (Vacuum.env self)
    /\ Vacuum.some_things_at (Vacuum.env self') = Vacuum.some_things_at (Vacuum.env self)
    /\ Vacuum.self_state self' = Vacuum.self_state self
    /\ Vacuum.self_initial self' = Vacuum.self_initial self
    /\ Vacuum.self_searchType self' = Vacuum.self_searchType self.
Proof.
  intros self state action new_state self'.
  assert (Hnew : forall other,
             fst (Vacuum.result other state action)
             = match Notions.parse_direction (Some action) with
               | Some d => Examples.move d state
               | None => state
               end).
  { intros other. unfold Vacuum.result, Notions.parse_direction. cbn [fst].
    destruct (String.eqb action "RIGHT") eqn:ER.
    - apply String.eqb_eq in ER. subst action. reflexivity.
    - destruct (String.eqb action "LEFT") eqn:EL.
      + apply String.eqb_eq in EL. subst action. reflexivity.
      + destruct (String.eqb action "UP") eqn:EU; [reflexivity|].
        destruct (String.eqb action "DOWN"); reflexivity. }
  split; [apply Hnew|].
  split; [intros other; unfold new_state; now rewrite !Hnew|].
  split; [unfold new_state; now rewrite !Hnew|].
  repeat split.
Qed.

(* ------------------------------------------------------------------ *)
(** ** The StayUp cost *)

Lemma StayUp_selected (e : Vacuum.Env) :
  Vacuum.costFunc e = "StayUp"%string ->
  String.eqb (Vacuum.costFunc e) "Step" = false
  /\ String.eqb (Vacuum.costFunc e) "StepTurn" = false
  /\ String.eqb (Vacuum.costFunc e) "StayLeft" = false
  /\ String.eqb (Vacuum.costFunc e) "StayUp" = true.
Proof. intros ->. repeat split. Qed.

(** C10. Under the StayUp cost function a step adds 1 and then the
    quotient of the y-coordinate of [state2] by the length of the map,
    and 5 more exactly when the search type of the environment is ['UCS']
    and the action is ['DOWN']: in binary64 arithmetic, for a cost so far
    that is a float or an integer, with a map that is not empty (and, as
    for the coordinate and the integer cost, below [2^53]).  With an
    empty map the division raises.  So the cost of one sequence of
    actions differs between a UCS and an A* search with the same StayUp
    configuration: in the 3 x 3 room of 17 things, from [(1,1)], UP then
    DOWN costs [1 + 2/17 + 1 + 1/17 + 5 = 7.1764705882352935] under UCS
    and [2.176470588235294] under A*. *)
Theorem StayUp_path_cost :
  (forall (self : Vacuum.VacuumPlanning) (curNode : Vacuum.VNode)
          (state1 : Vacuum.State) (action : Vacuum.Action) (state2 : Vacuum.State),
      Vacuum.costFunc (Vacuum.env self) = "StayUp"%string ->
      let len := Z.of_nat (List.length (Vacuum.self_map self)) in
      let quotient := (exact_float (snd state2) / exact_float len)%float in
      let penalty :=
        fun cost : float =>
          if (String.eqb (Vacuum.searchType (Vacuum.env self)) "UCS"
              && String.eqb action "DOWN")%bool
          then (cost + 5)%float else cost in
      (0 < len < 2 ^ 53)%Z -> (Z.abs (snd state2) < 2 ^ 53)%Z ->
      (forall x : float,
          path_cost curNode = NFloat x ->
          Vacuum.path_cost self curNode state1 action state2
          = Some (NFloat (penalty (x + 1 + quotient)%float)))
      /\ (forall c : Z,
             path_cost curNode = NInt c -> (Z.abs (c + 1) < 2 ^ 53)%Z ->
             Vacuum.path_cost self curNode state1 action state2
             = Some (NFloat (penalty (exact_float (c + 1) + quotient)%float))))
  /\ (forall (self : Vacuum.VacuumPlanning) (curNode : Vacuum.VNode)
             (state1 : Vacuum.State) (action : Vacuum.Action) (state2 : Vacuum.State),
         Vacuum.costFunc (Vacuum.env self) = "StayUp"%string ->
         Vacuum.self_map self = [] ->
         Vacuum.path_cost self curNode state1 action state2 = None)
  /\ (exists n_ucs n_astar : Vacuum.VNode,
         Examples.walk (Examples.corner_dirty "StayUp" "UCS") (1, 1)%Z
                       ["UP"; "DOWN"]%string = Some n_ucs
         /\ Examples.walk (Examples.corner_dirty "StayUp" "A*") (1, 1)%Z
                          ["UP"; "DOWN"]%string = Some n_astar
         /\ path_cost n_ucs = NFloat 0x1.cb4b4b4b4b4b4p+2%float
         /\ path_cost n_astar = NFloat 0x1.1696969696969p+1%float
         /\ num_eq (path_cost n_ucs) (path_cost n_astar) = false).
Proof.
  assert (H1 : float_of_Z 1 = Some 1%float)
    by (rewrite FloatFacts.float_of_Z_small; reflexivity).
  assert (H5 : float_of_Z 5 = Some 5%float)
    by (rewrite FloatFacts.float_of_Z_small; reflexivity).
  split; [|split].
  - intros self curNode state1 action state2 H len quotient penalty Hlen Hy.
    destruct (StayUp_selected (Vacuum.env self) H) as (E1 & E2 & E3 & E4).
    unfold Vacuum.path_cost, Vacuum.node_path_cost. rewrite E1, E2, E3, E4.
    fold len. rewrite (FloatFacts.int_truediv_small (snd state2) len Hy Hlen).
    fold quotient. split.
    + intros x ->. cbn [num_add]. rewrite H1. unfold penalty.
      destruct (_ && _)%bool; [cbn [num_add]; rewrite H5|]; reflexivity.
    + intros c -> Hc. cbn [num_add].
      rewrite (FloatFacts.float_of_Z_small (c + 1) Hc). unfold penalty.
      destruct (_ && _)%bool; [cbn [num_add]; rewrite H5|]; reflexivity.
  - intros self curNode state1 action state2 H Hmap.
    destruct (StayUp_selected (Vacuum.env self) H) as (E1 & E2 & E3 & E4).
    unfold Vacuum.path_cost, Vacuum.node_path_cost. rewrite E1, E2, E3, E4, Hmap.
    destruct (path_cost curNode) as [c|x]; cbn [num_add]; [|rewrite H1]; reflexivity.
  - destruct (Examples.walk (Examples.corner_dirty "StayUp" "UCS") (1, 1)%Z
                            ["UP"; "DOWN"]%string) as [n1|] eqn:N1;
      [|vm_compute in N1; discriminate N1].
    destruct (Examples.walk (Examples.corner_dirty "StayUp" "A*") (1, 1)%Z
                            ["UP"; "DOWN"]%string) as [n2|] eqn:N2;
      [|vm_compute in N2; discriminate N2].
    exists n1, n2. split; [reflexivity|]. split; [reflexivity|].
    vm_compute in N1. vm_compute in N2.
    injection N1 as <-. injection N2 as <-.
    repeat split; vm_compute; reflexivity.
Qed.

(** One step DOWN from the root at [(1,1)] of the room under UCS:
    [1 + 0/17 + 5]. *)
Lemma StayUp_path_cost_witness :
  Vacuum.path_cost (Examples.corner_dirty "StayUp" "UCS")
                   (Examples.root (1, 1)%Z) (1, 1)%Z "DOWN"%string (1, 0)%Z
  = Some (NFloat (exact_float 1 + exact_float 0 / exact_float 17 + 5)%float)
  /\ (exact_float 1 + exact_float 0 / exact_float 17 + 5)%float = 6%float.
Proof.
  split; [|reflexivity].
  refine (proj2 (proj1 StayUp_path_cost
                   (Examples.corner_dirty "StayUp" "UCS") (Examples.root (1, 1)%Z)
                   (1, 1)%Z "DOWN"%string (1, 0)%Z eq_refl _ _) 0%Z eq_refl _).
  - split; reflexivity.
  - reflexivity.
  - reflexivity.
Defined.

(* ------------------------------------------------------------------ *)
(** ** Nodes, paths and solutions *)

Section NodeFacts.

Context {State Action C : Type}.
Variable problem : Problem State Action C.

Local Abbreviation Node := (Node State Action C).

Lemma path_back_cons (node : Node) :
  path_back node = node :: match parent node with Some p => path_back p | None => [] end.
Proof. destruct node; reflexivity. Qed.

Lemma path_nonempty (node : Node) : path node <> [].
Proof.
  unfold path. rewrite path_back_cons. simpl.
  intros H. apply app_eq_nil in H. destruct H as [_ H]. discriminate H.
Qed.

Lemma path_child (p c : Node) :
  parent c = Some p -> path c = path p ++ [c].
Proof.
  intros Hp. unfold path. rewrite (path_back_cons c), Hp. reflexivity.
Qed.

Lemma solution_child (p c : Node) :
  parent c = Some p -> solution c = solution p ++ [action c].
Proof.
  intros Hp. unfold solution. rewrite (path_child p c Hp).
  pose proof (path_nonempty p) as Hne.
  destruct (path p) as [|x l]; [congruence|].
  simpl. now rewrite map_app.
Qed.

Lemma solution_root (s : State) (a : option Action) (c : C) (d : nat) :
  solution (mkNode s None a c d) = [].
Proof. reflexivity. Qed.

Lemma child_node_fields (n c : Node) (act : Action) :
  child_node problem n act = Some c ->
  state c = result problem (state n) act
  /\ parent c = Some n
  /\ action c = Some act
  /\ depth c = S (depth n)
  /\ problem_path_cost problem n (state n) act (state c) = Some (path_cost c).
Proof.
  unfold child_node.
  destruct (problem_path_cost problem n (state n) act (result problem (state n) act))
    as [pc|] eqn:E; [|discriminate].
  intros H. injection H as <-. simpl. auto.
Qed.

End NodeFacts.

(** C7. A node built from a root by [k] calls of [child_node] has depth
    [k]; its [solution()] has exactly [k] actions, and applying them in
    order with [result] from the state of the root gives the state of the
    node. *)
Theorem solution_replays_to_state :
  forall (State Action C : Type) (problem : Problem State Action C)
         (s0 : State) (c0 : C) (n : Node State Action C),
    descends problem (Node_init s0 None None c0) n ->
    exists acts : list Action,
      solution n = map Some acts
      /\ List.length acts = depth n
      /\ fold_left (result problem) acts s0 = state n.
Proof.
  intros State Action C problem s0 c0 n H.
  induction H as [|n c act Hd IH Hc].
  - exists []. repeat split.
  - destruct IH as (acts & Hsol & Hlen & Hfold).
    destruct (child_node_fields problem n c act Hc) as (Hst & Hpar & Hact & Hdep & _).
    exists (acts ++ [act]). repeat split.
    + rewrite (solution_child n c Hpar), Hsol, Hact, map_app. reflexivity.
    + rewrite length_app, Hdep, Hlen. simpl. lia.
    + rewrite fold_left_app, Hfold, Hst. reflexivity.
Qed.

(* ------------------------------------------------------------------ *)
(** ** The order of expansion and the reflex rule *)

Section SortFacts.

Context {A : Type}.
Variable p : A -> bool.

Local Abbreviation key := (fun a : A => if p a then 0 else 1).

Lemma sort_insert_last (x : A) (l : list A) :
  p x = false -> sort_insert key x l = l ++ [x].
Proof.
  intros Hx. induction l as [|y l IH]; simpl; [reflexivity|].
  rewrite Hx. destruct (p y); simpl; now rewrite IH.
Qed.

Lemma sort_insert_first (x : A) (L R : list A) :
  p x = true -> forallb p L = true -> forallb (fun a => negb (p a)) R = true ->
  sort_insert key x (L ++ R) = L ++ x :: R.
Proof.
  intros Hx HL HR. induction L as [|y L IH]; simpl in *.
  - destruct R as [|y R]; simpl in *; [reflexivity|].
    apply andb_prop in HR. destruct HR as [Hy _].
    rewrite Hx. destruct (p y); [discriminate|reflexivity].
  - apply andb_prop in HL. destruct HL as [Hy HL].
    rewrite Hx, Hy. simpl. now rewrite IH.
Qed.

Lemma list_sort_from (l L R : list A) :
  forallb p L = true -> forallb (fun a => negb (p a)) R = true ->
  fold_left (fun acc x => sort_insert key x acc) l (L ++ R)
  = (L ++ filter p l) ++ (R ++ filter (fun a => negb (p a)) l).
Proof.
  revert L R. induction l as [|x l IH]; intros L R HL HR; simpl.
  - now rewrite !app_nil_r.
  - destruct (p x) eqn:Hx; simpl.
    + rewrite sort_insert_first by assumption.
      change (L ++ x :: R) with (L ++ [x] ++ R). rewrite app_assoc.
      rewrite IH; [now rewrite <- !app_assoc| |exact HR].
      rewrite forallb_app, HL. simpl. now rewrite Hx.
    + rewrite sort_insert_last by assumption. rewrite app_assoc.
      rewrite <- (app_assoc L R [x]).
      rewrite IH; [now rewrite <- !app_assoc|exact HL|].
      rewrite forallb_app, HR. simpl. now rewrite Hx.
Qed.

(** Sorting on the key [0 if p else 1] puts the elements with [p] first
    and keeps the order of the elements within each group. *)
Lemma list_sort_partition (l : list A) :
  list_sort key l = filter p l ++ filter (fun a => negb (p a)) l.
Proof.
  unfold list_sort. exact (list_sort_from l [] [] eq_refl eq_refl).
Qed.

End SortFacts.

Section ReflexFacts.

Context {State Action C : Type}.
Variable is_LEFT : Action -> bool.
Variable C0 : C.
Variable problem : Problem State Action C.

Lemma mapM_Forall {X Y : Type} (g : X -> option Y) (P : Y -> Prop) (l : list X) :
  forall ys, (forall x y, g x = Some y -> P y) -> mapM g l = Some ys -> Forall P ys.
Proof.
  induction l as [|x l IH]; intros ys Hg; simpl.
  - intros H. injection H as <-. constructor.
  - destruct (g x) as [y|] eqn:E; [|discriminate].
    destruct (mapM g l) as [ys'|]; [|discriminate].
    intros H. injection H as <-. constructor; eauto.
Qed.

Lemma expand_children (node : Node State Action C) (cs : list (Node State Action C)) :
  expand is_LEFT problem node = Some cs ->
  Forall (fun c => parent c = Some node /\ depth c = S (depth node)) cs.
Proof.
  unfold expand. destruct (actions problem (state node)) as [acts|]; [|discriminate].
  apply mapM_Forall. intros act c Hc.
  destruct (child_node_fields problem _ _ _ Hc) as (_ & Hp & _ & Hd & _). auto.
Qed.

Lemma find_first {X : Type} (g : X -> bool) (pre post : list X) (x : X) :
  existsb g pre = false -> g x = true -> find g (pre ++ x :: post) = Some x.
Proof.
  induction pre as [|y pre IH]; simpl; intros Hpre Hx.
  - now rewrite Hx.
  - apply orb_false_elim in Hpre. destruct Hpre as [Hy Hpre]. rewrite Hy. auto.
Qed.

Lemma find_none_existsb {X : Type} (g : X -> bool) (l : list X) :
  existsb g l = false -> find g l = None.
Proof.
  induction l as [|y l IH]; simpl; [reflexivity|].
  intros H. apply orb_false_elim in H. destruct H as [Hy H]. rewrite Hy. auto.
Qed.

Lemma flat_map_singleton {X Y : Type} (g : X -> Y) (l : list X) :
  flat_map (fun x => [g x]) l = map g l.
Proof. induction l as [|x l IH]; simpl; [reflexivity|now rewrite IH]. Qed.

End ReflexFacts.

(** C5. The reflex rule expands the current state once: every neighbor is
    a child of the node of the current state.  When a neighbor satisfies
    [goal_test], the first such neighbor in the order of expansion is
    returned and no random draw is made; when none does, the result is one
    draw of [random.choice] among all the neighbors, each with the same
    weight.  The explored set returned is [None] in both cases. *)
Theorem reflexAgentSearch_spec :
  forall (State Action C : Type) (is_LEFT : Action -> bool) (C0 : C)
         (problem : Problem State Action C)
         (neighbors : list (Node State Action C)),
    let node := Node_init (problem_state problem) None None C0 in
    let goal := fun neigh : Node State Action C => goal_test problem (state neigh) in
    expand is_LEFT problem node = Some neighbors ->
    Forall (fun c => parent c = Some node /\ depth c = 1) neighbors
    /\ (forall pre neigh post,
           neighbors = pre ++ neigh :: post ->
           existsb goal pre = false -> goal neigh = true ->
           reflexAgentSearch is_LEFT C0 problem = RRet (neigh, None))
    /\ (existsb goal neighbors = false -> neighbors <> [] ->
        reflexAgentSearch is_LEFT C0 problem
        = RChoice neighbors (fun randPic => RRet (randPic, None))
        /\ rand_dist (reflexAgentSearch is_LEFT C0 problem)
           = map (fun neigh =>
                    ((1 / inject_Z (Z.of_nat (List.length neighbors)))%Q, (neigh, None)))
                 neighbors).
Proof.
  intros State Action C is_LEFT C0 problem neighbors node goal Hexp.
  split; [|split].
  - exact (expand_children is_LEFT problem node neighbors Hexp).
  - intros pre neigh post -> Hpre Hgoal.
    unfold reflexAgentSearch. fold node. rewrite Hexp.
    fold goal. now rewrite (find_first goal pre post neigh Hpre Hgoal).
  - intros Hnone Hne.
    assert (E : reflexAgentSearch is_LEFT C0 problem
                = RChoice neighbors (fun randPic => RRet (randPic, None))).
    { unfold reflexAgentSearch. fold node. rewrite Hexp. fold goal.
      rewrite (find_none_existsb goal neighbors Hnone).
      destruct neighbors; [congruence|reflexivity]. }
    split; [exact E|].
    rewrite E. simpl. apply flat_map_singleton.
Qed.

(* ------------------------------------------------------------------ *)
(** ** The priority queue and the replacement rule *)

Section QueueFacts.

Context {State Action C : Type}.
Variable State_eq_dec : forall x y : State, {x = y} + {x <> y}.

Local Abbreviation N := (Node State Action C).
Local Abbreviation E := (entry State Action C).

Lemma node_eq_true (a b : N) :
  node_eq State_eq_dec a b = true <-> state a = state b.
Proof. unfold node_eq. destruct (State_eq_dec (state a) (state b)); split; congruence. Qed.

Lemma node_eq_false (a b : N) :
  node_eq State_eq_dec a b = false <-> state a <> state b.
Proof. unfold node_eq. destruct (State_eq_dec (state a) (state b)); split; congruence. Qed.

Lemma pq_contains_iff (q : list E) (key : N) :
  pq_contains State_eq_dec q key = true
  <-> exists e, In e q /\ state (snd e) = state key.
Proof.
  unfold pq_contains. rewrite existsb_exists.
  split; intros (e & Hin & He); exists e; split; auto; now apply node_eq_true.
Qed.

(** The first entry of a queue for the state of [key], when there is one. *)
Lemma pq_first_entry (q : list E) (key : N) :
  pq_contains State_eq_dec q key = true ->
  exists pre e post,
    q = pre ++ e :: post
    /\ state (snd e) = state key
    /\ Forall (fun e' => state (snd e') <> state key) pre
    /\ pq_getitem State_eq_dec q key = Some (fst e)
    /\ pq_delitem State_eq_dec q key = Some (pre ++ post).
Proof.
  unfold pq_getitem. induction q as [|e q IH]; simpl; [discriminate|].
  destruct (node_eq State_eq_dec (snd e) key) eqn:He; simpl.
  - intros _. exists [], e, q. apply node_eq_true in He. repeat split; auto.
  - intros Hq. destruct (IH Hq) as (pre & e' & post & -> & Hs & Hpre & Hget & Hdel).
    exists (e :: pre), e', post. rewrite Hdel. apply node_eq_false in He.
    repeat split; auto.
Qed.

End QueueFacts.

(** C1, as stated, fails on equal values.  In the 3 x 3 room with the
    StepTurn cost, the frontier holds the node of [(1,1)] reached by UP,
    RIGHT with value 5; the child reached by RIGHT, UP has the same state
    and the same value 5.  The loop body leaves the frontier as it is: the
    child is discarded, the existing entry is not replaced. *)
Lemma equal_value_keeps_the_existing_entry :
  exists (old child : Vacuum.VNode),
    Examples.walk (Examples.corner_dirty "StepTurn" "UCS") (0, 0)%Z ["UP"; "RIGHT"]%string
    = Some old
    /\ Examples.walk (Examples.corner_dirty "StepTurn" "UCS") (0, 0)%Z ["RIGHT"; "UP"]%string
       = Some child
    /\ state old = state child
    /\ pq_getitem Vacuum.State_eq_dec [(path_cost old, old)] child = Some (NInt 5)
    /\ path_cost child = NInt 5
    /\ Vacuum.ucs_child [] [(path_cost old, old)] child = Some [(path_cost old, old)]
    /\ [(path_cost old, old)] <> [(path_cost child, child)].
Proof.
  destruct (Examples.walk (Examples.corner_dirty "StepTurn" "UCS") (0, 0)%Z
                          ["UP"; "RIGHT"]%string) as [old|] eqn:E1;
    [|vm_compute in E1; discriminate E1].
  destruct (Examples.walk (Examples.corner_dirty "StepTurn" "UCS") (0, 0)%Z
                          ["RIGHT"; "UP"]%string) as [child|] eqn:E2;
    [|vm_compute in E2; discriminate E2].
  exists old, child. vm_compute in E1. vm_compute in E2.
  injection E1 as <-. injection E2 as <-.
  repeat split; try (vm_compute; reflexivity).
  intros H. discriminate H.
Qed.

(** C1, amended.  When the state of a new child is already in the
    frontier, with value [v] at its first entry, the loop body removes
    that entry and appends the child with its value [f(child)] exactly
    when [f(child) >= v] does not hold, that is when the existing value is
    strictly worse; when the existing value is equal or better the
    frontier is left as it is and the child is discarded.  (Where
    [f(child)] raises, so does the loop body.) *)
Theorem frontier_replacement_rule :
  forall (State Action C : Type)
         (State_eq_dec : forall x y : State, {x = y} + {x <> y})
         (C_ge : C -> C -> bool) (f : Node State Action C -> option C)
         (explore : set State) (front : list (entry State Action C))
         (c : Node State Action C),
    pq_contains State_eq_dec front c = true ->
    exists pre e post,
      front = pre ++ e :: post
      /\ state (snd e) = state c
      /\ Forall (fun e' => state (snd e') <> state c) pre
      /\ bfgs_child State_eq_dec C_ge f explore front c
         = (fc <- f c ;;
            Some (if C_ge fc (fst e) then front
                  else (pre ++ post) ++ [(fc, c)])).
Proof.
  intros State Action C State_eq_dec C_ge f explore front c Hin.
  destruct (pq_first_entry State_eq_dec front c Hin)
    as (pre & e & post & Hq & Hs & Hpre & Hget & Hdel).
  exists pre, e, post. repeat split; auto.
  unfold bfgs_child, pq_append. rewrite Hin, orb_true_r. simpl.
  destruct (f c) as [fc|]; [|reflexivity].
  rewrite Hget, Hdel. destruct (C_ge fc (fst e)); reflexivity.
Qed.

(** The rule applies to the frontier of the example. *)
Lemma frontier_replacement_rule_witness :
  exists pre e post,
    [(NInt 5, Examples.root (1, 1)%Z)] = pre ++ e :: post
    /\ state (snd e) = state (Examples.root (1, 1)%Z)
    /\ Forall (fun e' => state (snd e') <> state (Examples.root (1, 1)%Z)) pre
    /\ bfgs_child Vacuum.State_eq_dec num_ge (fun n => Some (path_cost n)) []
                  [(NInt 5, Examples.root (1, 1)%Z)] (Examples.root (1, 1)%Z)
       = Some (if num_ge (path_cost (Examples.root (1, 1)%Z)) (fst e)
               then [(NInt 5, Examples.root (1, 1)%Z)]
               else (pre ++ post)
                      ++ [(path_cost (Examples.root (1, 1)%Z), Examples.root (1, 1)%Z)]).
Proof.
  apply (frontier_replacement_rule _ _ _ Vacuum.State_eq_dec num_ge
           (fun n => Some (path_cost n)) []
           [(NInt 5, Examples.root (1, 1)%Z)] (Examples.root (1, 1)%Z)).
  reflexivity.
Defined.

(* ------------------------------------------------------------------ *)
(** ** The order of the children in the uninformed searches *)

Section ScanFacts.

Context {State Action C : Type}.
Variable State_eq_dec : forall x y : State, {x = y} + {x <> y}.
Variable problem : Problem State Action C.

Local Abbreviation N := (Node State Action C).

Lemma bfs_for_scan (node : N) (acts : list Action) :
  forall (cs front : list N) (explore : set State),
    mapM (child_node problem node) acts = Some cs ->
    bfs_for State_eq_dec problem node acts front explore
    = Some (scan_children State_eq_dec problem cs front explore).
Proof.
  induction acts as [|act acts IH]; intros cs front explore; simpl.
  - intros H. injection H as <-. reflexivity.
  - destruct (child_node problem node act) as [c|]; [|discriminate].
    destruct (mapM (child_node problem node) acts) as [cs'|]; [|discriminate].
    intros H. injection H as <-. simpl.
    destruct (negb _); [destruct (goal_test problem (state c))|]; auto.
Qed.

Lemma dfs_for_scan (node : N) (acts : list Action) :
  forall (cs front : list N) (explore : set State),
    mapM (child_node problem node) acts = Some cs ->
    dfs_for State_eq_dec problem node acts front explore
    = Some (scan_children State_eq_dec problem cs front explore).
Proof.
  induction acts as [|act acts IH]; intros cs front explore; simpl.
  - intros H. injection H as <-. reflexivity.
  - destruct (child_node problem node act) as [c|]; [|discriminate].
    destruct (mapM (child_node problem node) acts) as [cs'|]; [|discriminate].
    intros H. injection H as <-. simpl.
    destruct (negb _); [destruct (goal_test problem (state c))|]; auto.
Qed.

End ScanFacts.

Section ActionOrder.

Import Notions.

Lemma subseq_refl {A : Type} (l : list A) : subseq l l.
Proof. induction l; [apply subseq_nil | now apply subseq_keep]. Qed.

Lemma subseq_trans {A : Type} (l m n : list A) :
  subseq l m -> subseq m n -> subseq l n.
Proof.
  intros H1 H2. revert l H1.
  induction H2 as [|x m n H2 IH|x m n H2 IH]; intros l H1.
  - exact H1.
  - apply subseq_skip. auto.
  - inversion H1; subst; [apply subseq_skip | apply subseq_keep]; auto.
Qed.

Lemma list_remove_subseq {A : Type} (eqb : A -> A -> bool) (x : A) (l : list A) :
  forall r, list_remove eqb x l = Some r -> subseq r l.
Proof.
  induction l as [|y l IH]; simpl; intros r; [discriminate|].
  destruct (eqb y x).
  - intros H. injection H as <-. apply subseq_skip, subseq_refl.
  - destruct (list_remove eqb x l) as [r'|]; [|discriminate].
    intros H. injection H as <-. apply subseq_keep. auto.
Qed.

Lemma remove_if_subseq (b : bool) (x : string) (l r : list string) :
  (if b then list_remove String.eqb x l else Some l) = Some r -> subseq r l.
Proof.
  destruct b.
  - apply list_remove_subseq.
  - intros H. injection H as <-. apply subseq_refl.
Qed.

Lemma actions_slot_subseq (s : Vacuum.State) (slot : Vacuum.Thing) (l r : list string) :
  Vacuum.actions_slot s slot l = Some r -> subseq r l.
Proof.
  unfold Vacuum.actions_slot. destruct (Vacuum.thing_kind slot).
  - destruct (Vacuum.location slot) as [x y].
    match goal with
    | |- match ?e with Some _ => _ | None => _ end = _ -> _ =>
        destruct e as [p1|] eqn:E1; [|discriminate]
    end.
    match goal with
    | |- match ?e with Some _ => _ | None => _ end = _ -> _ =>
        destruct e as [p2|] eqn:E2; [|discriminate]
    end.
    match goal with
    | |- match ?e with Some _ => _ | None => _ end = _ -> _ =>
        destruct e as [p3|] eqn:E3; [|discriminate]
    end.
    intros E4.
    apply remove_if_subseq in E1, E2, E3, E4.
    eauto using subseq_trans.
  - intros H. injection H as <-. apply subseq_refl.
  - intros H. injection H as <-. apply subseq_refl.
Qed.

(** The actions of the vacuum problem come in the order UP, DOWN, LEFT,
    RIGHT, less those that a wall blocks. *)
Lemma vacuum_actions_order (self : Vacuum.VacuumPlanning) (s : Vacuum.State)
      (acts : list Vacuum.Action) :
  Vacuum.actions self s = Some acts ->
  subseq acts ["UP"; "DOWN"; "LEFT"; "RIGHT"]%string.
Proof.
  unfold Vacuum.actions.
  generalize (Vacuum.things_near (Vacuum.env self) s) as slots.
  generalize ["UP"; "DOWN"; "LEFT"; "RIGHT"]%string as l.
  intros l slots. revert l acts.
  induction slots as [|slot slots IH]; intros l acts; simpl.
  - intros H. injection H as <-. apply subseq_refl.
  - destruct (Vacuum.actions_slot s slot l) as [p|] eqn:E; [|discriminate].
    intros H. apply IH in H. apply actions_slot_subseq in E.
    eauto using subseq_trans.
Qed.

End ActionOrder.

(** C2, as stated, fails.  In the 3 x 3 room with the agent in the middle
    and dirt both to its left and above it, [Node.expand] puts the LEFT
    child first, and that child is a goal; breadth-first and depth-first
    search generate and test the UP child first and return it. *)
Lemma uninformed_searches_generate_UP_before_LEFT :
  exists (n_bfs n_dfs first : Vacuum.VNode) (e_bfs e_dfs : set Vacuum.State)
         (rest : list Vacuum.VNode),
    Vacuum.bfs Examples.two_dirty_neighbors 10 = Returned (Some n_bfs, e_bfs)
    /\ action n_bfs = Some "UP"%string
    /\ Vacuum.dfs Examples.two_dirty_neighbors 10 = Returned (Some n_dfs, e_dfs)
    /\ action n_dfs = Some "UP"%string
    /\ expand Vacuum.is_LEFT (Vacuum.as_problem Examples.two_dirty_neighbors)
              (Examples.root (1, 1)%Z)
       = Some (first :: rest)
    /\ action first = Some "LEFT"%string
    /\ scan_children Vacuum.State_eq_dec (Vacuum.as_problem Examples.two_dirty_neighbors)
                     (first :: rest) [] [(1, 1)%Z]
       = Found first.
Proof.
  destruct (Vacuum.bfs Examples.two_dirty_neighbors 10) as [[[n1|] e1]| |] eqn:E1;
    try (vm_compute in E1; discriminate E1).
  destruct (Vacuum.dfs Examples.two_dirty_neighbors 10) as [[[n2|] e2]| |] eqn:E2;
    try (vm_compute in E2; discriminate E2).
  destruct (expand Vacuum.is_LEFT (Vacuum.as_problem Examples.two_dirty_neighbors)
                   (Examples.root (1, 1)%Z)) as [[|first rest]|] eqn:E3;
    try (vm_compute in E3; discriminate E3).
  exists n1, n2, first, e1, e2, rest.
  vm_compute in E1. vm_compute in E2. vm_compute in E3.
  injection E1 as <- <-. injection E2 as <- <-. injection E3 as <- <-.
  repeat split; vm_compute; reflexivity.
Qed.

(** C2, amended.  When breadth-first or depth-first search expands a node,
    the children are generated in the order in which [problem.actions]
    lists the actions, without moving LEFT to the front: an iteration of
    either loop on a node does what [scan_children] does with the children
    of the actions in that order.  For the vacuum problem that order is
    UP, DOWN, LEFT, RIGHT, less the directions that a wall blocks. *)
Theorem uninformed_children_in_actions_order :
  (forall (State Action C : Type)
          (State_eq_dec : forall x y : State, {x = y} + {x <> y})
          (problem : Problem State Action C)
          (node : Node State Action C) (acts : list Action)
          (cs front front1 : list (Node State Action C))
          (explore : set State) (fuel : nat),
      actions problem (state node) = Some acts ->
      mapM (child_node problem node) acts = Some cs ->
      let explore1 := explore_add State_eq_dec (state node) explore in
      bfs_loop State_eq_dec problem (S fuel) (node :: front1) explore
      = match scan_children State_eq_dec problem cs front1 explore1 with
        | Found c => Returned (Some c, explore1)
        | Continue front2 => bfs_loop State_eq_dec problem fuel front2 explore1
        end
      /\ (list_pop front = Some (node, front1) ->
          dfs_loop State_eq_dec problem (S fuel) front explore
          = match scan_children State_eq_dec problem cs front1 explore1 with
            | Found c => Returned (Some c, explore1)
            | Continue front2 => dfs_loop State_eq_dec problem fuel front2 explore1
            end))
  /\ (forall (self : Vacuum.VacuumPlanning) (s : Vacuum.State)
             (acts : list Vacuum.Action),
        actions (Vacuum.as_problem self) s = Some acts ->
        Notions.subseq acts ["UP"; "DOWN"; "LEFT"; "RIGHT"]%string).
Proof.
  split.
  - intros State Action C State_eq_dec problem node acts cs front front1 explore fuel
           Hacts Hcs explore1.
    split.
    + simpl. rewrite Hacts. fold explore1.
      rewrite (bfs_for_scan State_eq_dec problem node acts cs front1 explore1 Hcs).
      reflexivity.
    + intros Hpop. simpl. rewrite Hpop, Hacts. fold explore1.
      rewrite (dfs_for_scan State_eq_dec problem node acts cs front1 explore1 Hcs).
      reflexivity.
  - intros self s acts Hacts. exact (vacuum_actions_order self s acts Hacts).
Qed.

(* ------------------------------------------------------------------ *)
(** ** The explored set *)

Section ExploreFacts.

Context {State : Type}.
Variable State_eq_dec : forall x y : State, {x = y} + {x <> y}.

Lemma in_explore_true (s : State) (e : set State) :
  in_explore State_eq_dec s e = true <-> In s e.
Proof.
  unfold in_explore. split.
  - apply set_mem_correct1.
  - apply set_mem_correct2.
Qed.

Lemma in_explore_false (s : State) (e : set State) :
  in_explore State_eq_dec s e = false <-> ~ In s e.
Proof.
  rewrite <- in_explore_true. destruct (in_explore State_eq_dec s e); split; congruence.
Qed.

Lemma explore_add_iff (x s : State) (e : set State) :
  In x (explore_add State_eq_dec s e) <-> x = s \/ In x e.
Proof. apply set_add_iff. Qed.

Lemma explore_add_NoDup (s : State) (e : set State) :
  NoDup e -> NoDup (explore_add State_eq_dec s e).
Proof. apply set_add_nodup. Qed.

Lemma explore_add_new (s : State) (e : set State) :
  ~ In s e -> explore_add State_eq_dec s e = e ++ [s].
Proof.
  unfold explore_add. induction e as [|y e IH]; simpl; intros H; [reflexivity|].
  destruct (State_eq_dec s y) as [->|_]; [tauto|].
  rewrite IH; tauto.
Qed.

Lemma list_pop_snoc {A : Type} (l r : list A) (x : A) :
  list_pop l = Some (x, r) -> l = r ++ [x].
Proof.
  revert r x. induction l as [|y l IH]; simpl; intros r x; [discriminate|].
  destruct (list_pop l) as [[z r']|] eqn:E.
  - intros H. injection H as <- <-. simpl. f_equal. now apply IH.
  - intros H. injection H as <- <-.
    destruct l as [|z l]; [reflexivity|]. simpl in E.
    destruct (list_pop l) as [[? ?]|]; discriminate.
Qed.

Lemma list_pop_none {A : Type} (l : list A) :
  list_pop l = None -> l = [].
Proof.
  destruct l as [|y l]; simpl; [reflexivity|].
  destruct (list_pop l) as [[? ?]|]; discriminate.
Qed.

End ExploreFacts.

Section ExploredReachable.

Context {State Action C : Type}.
Variable State_eq_dec : forall x y : State, {x = y} + {x <> y}.
Variable problem : Problem State Action C.

Local Abbreviation N := (Node State Action C).
Local Abbreviation E := (entry State Action C).
Local Abbreviation reach := (reachable problem).
Local Abbreviation reachN := (fun n : N => reachable problem (state n)).
Local Abbreviation reachE := (fun e : E => reachable problem (state (snd e))).

Lemma child_reachable (node c : N) (avail : list Action) (act : Action) :
  reach (state node) -> actions problem (state node) = Some avail -> In act avail ->
  child_node problem node act = Some c -> reach (state c).
Proof.
  intros Hr Ha Hin Hc.
  destruct (child_node_fields problem node c act Hc) as (-> & _).
  now apply reachable_step with (acts := avail).
Qed.

Lemma scan_for_reachable (node : N) (avail : list Action) :
  reach (state node) -> actions problem (state node) = Some avail ->
  forall (acts : list Action) (front : list N) (explore : set State) (r : scan State Action C),
    incl acts avail -> Forall reachN front ->
    bfs_for State_eq_dec problem node acts front explore = Some r ->
    match r with
    | Found c => reach (state c)
    | Continue front2 => Forall reachN front2
    end.
Proof.
  intros Hr Ha. induction acts as [|act acts IH]; intros front explore r Hincl Hf; simpl.
  - intros H. injection H as <-. exact Hf.
  - destruct (child_node problem node act) as [c|] eqn:Hc; [|discriminate].
    assert (Hrc : reach (state c)).
    { apply (child_reachable node c avail act Hr Ha); [apply Hincl; now left|exact Hc]. }
    assert (Hincl' : incl acts avail) by (intros a Hin; apply Hincl; now right).
    destruct (negb _).
    + destruct (goal_test problem (state c)).
      * intros H. injection H as <-. exact Hrc.
      * apply IH; [exact Hincl'|]. apply Forall_app. split; [exact Hf|]. now constructor.
    + now apply IH.
Qed.

Lemma dfs_for_is_bfs_for (node : N) (acts : list Action) :
  forall (front : list N) (explore : set State),
    dfs_for State_eq_dec problem node acts front explore
    = bfs_for State_eq_dec problem node acts front explore.
Proof.
  induction acts as [|act acts IH]; intros front explore; simpl; [reflexivity|].
  destruct (child_node problem node act) as [c|]; [|reflexivity].
  now rewrite !IH.
Qed.

Lemma bfs_loop_explored (fuel : nat) :
  forall (front : list N) (explore : set State) (r : option N) (expl : set State),
    Forall reachN front -> Forall reach explore -> NoDup explore ->
    bfs_loop State_eq_dec problem fuel front explore = Returned (r, expl) ->
    Forall reach expl /\ NoDup expl.
Proof.
  induction fuel as [|fuel IH]; intros front explore r expl Hf He Hn; simpl; [discriminate|].
  destruct front as [|node front1].
  - intros H. injection H as <- <-. auto.
  - inversion Hf as [|? ? Hnode Hf1]; subst.
    assert (He1 : Forall reach (explore_add State_eq_dec (state node) explore)).
    { apply Forall_forall. intros x Hx. apply explore_add_iff in Hx.
      destruct Hx as [->|Hx]; [exact Hnode|]. revert x Hx. now apply Forall_forall. }
    assert (Hn1 := explore_add_NoDup State_eq_dec (state node) explore Hn).
    destruct (actions problem (state node)) as [acts|] eqn:Ha; [|discriminate].
    destruct (bfs_for State_eq_dec problem node acts front1 _) as [[c|front2]|] eqn:Hs;
      [| |discriminate].
    + intros H. injection H as <- <-. auto.
    + apply IH; auto.
      apply (scan_for_reachable node acts Hnode Ha acts front1 _ _ (incl_refl _) Hf1 Hs).
Qed.

Lemma dfs_loop_explored (fuel : nat) :
  forall (front : list N) (explore : set State) (r : option N) (expl : set State),
    Forall reachN front -> Forall reach explore -> NoDup explore ->
    dfs_loop State_eq_dec problem fuel front explore = Returned (r, expl) ->
    Forall reach expl /\ NoDup expl.
Proof.
  induction fuel as [|fuel IH]; intros front explore r expl Hf He Hn; simpl; [discriminate|].
  destruct (list_pop front) as [[node front1]|] eqn:Hpop.
  - apply list_pop_snoc in Hpop. subst front.
    apply Forall_app in Hf. destruct Hf as [Hf1 Hnode].
    inversion Hnode as [|? ? Hnode' _]; subst.
    assert (He1 : Forall reach (explore_add State_eq_dec (state node) explore)).
    { apply Forall_forall. intros x Hx. apply explore_add_iff in Hx.
      destruct Hx as [->|Hx]; [exact Hnode'|]. revert x Hx. now apply Forall_forall. }
    assert (Hn1 := explore_add_NoDup State_eq_dec (state node) explore Hn).
    destruct (actions problem (state node)) as [acts|] eqn:Ha; [|discriminate].
    rewrite dfs_for_is_bfs_for.
    destruct (bfs_for State_eq_dec problem node acts front1 _) as [[c|front2]|] eqn:Hs;
      [| |discriminate].
    + intros H. injection H as <- <-. auto.
    + apply IH; auto.
      apply (scan_for_reachable node acts Hnode' Ha acts front1 _ _ (incl_refl _) Hf1 Hs).
  - intros H. injection H as <- <-. auto.
Qed.

End ExploredReachable.
Section BestFirstExplored.

Context {State Action C : Type}.
Variable State_eq_dec : forall x y : State, {x = y} + {x <> y}.
Variable state_lt : State -> State -> bool.
Variable is_LEFT : Action -> bool.
Variables C_lt C_ge C_eq : C -> C -> bool.
Variable problem : Problem State Action C.

Local Abbreviation N := (Node State Action C).
Local Abbreviation E := (entry State Action C).
Local Abbreviation reach := (reachable problem).
Local Abbreviation reachN := (fun n : N => reachable problem (state n)).
Local Abbreviation reachE := (fun e : E => reachable problem (state (snd e))).
Local Abbreviation extract := (pq_extract_min State_eq_dec state_lt C_lt C_eq).

Lemma pq_extract_min_none (q : list E) : extract q = None -> q = [].
Proof.
  destruct q as [|e q]; simpl; [reflexivity|].
  destruct (extract q) as [[m r]|]; [|discriminate].
  destruct (entry_lt _ _ _ _ m e); discriminate.
Qed.

Lemma pq_extract_min_split (q : list E) :
  forall m r, extract q = Some (m, r) ->
              exists pre post, q = pre ++ m :: post /\ r = pre ++ post.
Proof.
  induction q as [|e q IH]; simpl; intros m r; [discriminate|].
  destruct (extract q) as [[m' r']|] eqn:Hq.
  - destruct (entry_lt _ _ _ _ m' e).
    + intros H. injection H as <- <-.
      destruct (IH m' r' eq_refl) as (pre & post & -> & ->).
      exists (e :: pre), post. auto.
    + intros H. injection H as <- <-. exists [], q. auto.
  - intros H. injection H as <- <-. apply pq_extract_min_none in Hq. subst q.
    exists [], []. auto.
Qed.

Lemma pq_delitem_incl (q : list E) (key : N) :
  forall r, pq_delitem State_eq_dec q key = Some r -> incl r q.
Proof.
  induction q as [|e q IH]; simpl; intros r; [discriminate|].
  destruct (node_eq State_eq_dec (snd e) key).
  - intros H. injection H as <-. apply incl_tl, incl_refl.
  - destruct (pq_delitem State_eq_dec q key) as [r'|]; [|discriminate].
    intros H. injection H as <-. apply incl_cons; [now left|].
    apply incl_tl. now apply IH.
Qed.

Lemma bfgs_child_entries (f : N -> option C) (explore : set State)
      (front front' : list E) (c : N) :
  bfgs_child State_eq_dec C_ge f explore front c = Some front' ->
  forall e, In e front' -> In e front \/ exists v, f c = Some v /\ e = (v, c).
Proof.
  unfold bfgs_child, pq_append.
  destruct (negb _).
  - destruct (f c) as [fc|]; [|discriminate].
    intros H. injection H as <-. intros e He. apply in_app_or in He.
    destruct He as [He|[<-|[]]]; eauto.
  - destruct (pq_contains State_eq_dec front c).
    + destruct (f c) as [fc|]; [|discriminate].
      destruct (pq_getitem State_eq_dec front c) as [v|]; [|discriminate].
      destruct (negb (C_ge fc v)).
      * destruct (pq_delitem State_eq_dec front c) as [front1|] eqn:Hd; [|discriminate].
        intros H. injection H as <-. intros e He. apply in_app_or in He.
        destruct He as [He|[<-|[]]]; eauto.
        left. exact (pq_delitem_incl front c front1 Hd e He).
      * intros H. injection H as <-. auto.
    + intros H. injection H as <-. auto.
Qed.

Lemma bfgs_for_reachable (f : N -> option C) (explore : set State) (cs : list N) :
  forall front front',
    Forall reachN cs -> Forall reachE front ->
    bfgs_for State_eq_dec C_ge f explore cs front = Some front' ->
    Forall reachE front'.
Proof.
  induction cs as [|c cs IH]; intros front front' Hcs Hf; simpl.
  - intros H. injection H as <-. exact Hf.
  - inversion Hcs as [|? ? Hc Hcs']; subst.
    destruct (bfgs_child State_eq_dec C_ge f explore front c) as [front1|] eqn:H1;
      [|discriminate].
    apply IH; [exact Hcs'|].
    apply Forall_forall. intros e He.
    destruct (bfgs_child_entries f explore front front1 c H1 e He) as [Hin|(v & _ & ->)].
    + exact (proj1 (Forall_forall _ _) Hf e Hin).
    + exact Hc.
Qed.

Lemma mapM_In {X Y : Type} (g : X -> option Y) (l : list X) :
  forall ys, mapM g l = Some ys ->
             (forall y, In y ys -> exists x, In x l /\ g x = Some y)
             /\ (forall x, In x l -> exists y, In y ys /\ g x = Some y).
Proof.
  induction l as [|x l IH]; simpl; intros ys.
  - intros H. injection H as <-. split; intros ? [].
  - destruct (g x) as [y|] eqn:Hx; [|discriminate].
    destruct (mapM g l) as [ys'|]; [|discriminate].
    intros H. injection H as <-. destruct (IH ys' eq_refl) as [IH1 IH2]. split.
    + intros y' [<-|Hy]; [exists x; auto|].
      destruct (IH1 y' Hy) as (x' & Hx' & Hg). exists x'. auto.
    + intros x' [<-|Hx']; [exists y; simpl; auto|].
      destruct (IH2 x' Hx') as (y' & Hy' & Hg). exists y'. simpl. auto.
Qed.

Lemma mapM_total {X Y : Type} (g : X -> option Y) (l : list X) :
  (forall x, In x l -> g x <> None) -> exists ys, mapM g l = Some ys.
Proof.
  induction l as [|x l IH]; simpl; intros H; [eauto|].
  destruct (g x) as [y|] eqn:Hx; [|exfalso; apply (H x); auto].
  destruct IH as (ys & ->); [intros x' Hx'; apply H; auto|]. eauto.
Qed.

Lemma list_sort_In (acts : list Action) (a : Action) :
  In a (list_sort (fun a => if is_LEFT a then 0 else 1) acts) <-> In a acts.
Proof.
  rewrite list_sort_partition, in_app_iff, !filter_In.
  destruct (is_LEFT a); simpl; intuition congruence.
Qed.

Lemma expand_reachable (node : N) (cs : list N) :
  reach (state node) -> expand is_LEFT problem node = Some cs -> Forall reachN cs.
Proof.
  unfold expand. intros Hr.
  destruct (actions problem (state node)) as [avail|] eqn:Ha; [|discriminate].
  intros Hm. apply Forall_forall. intros c Hc.
  destruct (mapM_In _ _ cs Hm) as [H1 _].
  destruct (H1 c Hc) as (act & Hact & Hchild).
  apply (proj1 (list_sort_In avail act)) in Hact.
  exact (child_reachable problem node c avail act Hr Ha Hact Hchild).
Qed.

Lemma bfgs_loop_explored (f : N -> option C) (fuel : nat) :
  forall (front : list E) (explore : set State) (r : option N) (expl : set State),
    Forall reachE front -> Forall reach explore -> NoDup explore ->
    bfgs_loop State_eq_dec state_lt is_LEFT C_lt C_ge C_eq problem f fuel front explore
    = Returned (r, expl) ->
    Forall reach expl /\ NoDup expl.
Proof.
  induction fuel as [|fuel IH]; intros front explore r expl Hf He Hn; simpl; [discriminate|].
  unfold pq_pop. destruct (extract front) as [[m front1]|] eqn:Hpop.
  - destruct (pq_extract_min_split front m front1 Hpop) as (pre & post & -> & ->).
    apply Forall_app in Hf. destruct Hf as [Hpre Hmp].
    inversion Hmp as [|? ? Hm Hpost]; subst.
    destruct (goal_test problem (state (snd m))).
    + intros H. injection H as <- <-. auto.
    + destruct (expand is_LEFT problem (snd m)) as [cs|] eqn:Hexp; [|discriminate].
      destruct (bfgs_for State_eq_dec C_ge f _ cs (pre ++ post)) as [front2|] eqn:Hfor;
        [|discriminate].
      apply IH.
      * eapply (bfgs_for_reachable f _ cs (pre ++ post) front2);
          [exact (expand_reachable (snd m) cs Hm Hexp) | apply Forall_app; auto | exact Hfor].
      * apply Forall_forall. intros x Hx. apply explore_add_iff in Hx.
        destruct Hx as [->|Hx]; [exact Hm|]. revert x Hx. now apply Forall_forall.
      * now apply explore_add_NoDup.
  - intros H. injection H as <- <-. auto.
Qed.

End BestFirstExplored.

(** C8, as stated, fails for best-first search.  With the agent on a
    dirty cell the initial state is a goal: breadth-first search returns
    the explored set [[(1,1)]], best-first search returns the empty set,
    since it tests the node it pops before it records the state. *)
Lemma best_first_returns_no_explored_state_at_a_goal_root :
  Vacuum.goal_test (Examples.agent_on_dirt "Greedy") (1, 1)%Z = true
  /\ Vacuum.bfs (Examples.agent_on_dirt "Greedy") 10
     = Returned (Some (Examples.root (1, 1)%Z), [(1, 1)%Z])
  /\ Vacuum.greedy (Examples.agent_on_dirt "Greedy") 10
     = Returned (Some (Examples.root (1, 1)%Z), [])
  /\ Vacuum.ucs (Examples.agent_on_dirt "Greedy") 10
     = Returned (Some (Examples.root (1, 1)%Z), []).
Proof. repeat split; vm_compute; reflexivity. Qed.

(** C8, amended.  The explored set that breadth-first, depth-first or
    best-first search returns holds reachable states only and no state
    twice, so it has at most as many states as are reachable.  When the
    initial state is a goal, breadth-first and depth-first search return
    the explored set that holds just that state, and best-first search
    returns the empty explored set (after the first call of the
    evaluation function, on the root, which may raise). *)
Theorem explored_set_spec :
  forall (State Action C : Type)
         (State_eq_dec : forall x y : State, {x = y} + {x <> y})
         (state_lt : State -> State -> bool) (is_LEFT : Action -> bool) (C0 : C)
         (C_lt C_ge C_eq : C -> C -> bool)
         (problem : Problem State Action C)
         (f : option (Node State Action C -> option C)) (fuel : nat),
    let bfs := breadth_first_graph_search State_eq_dec C0 problem in
    let dfs := depth_first_graph_search State_eq_dec C0 problem in
    let best := best_first_graph_search State_eq_dec state_lt is_LEFT C0
                                        C_lt C_ge C_eq problem f in
    let root := Node_init (initial problem) None None C0 in
    (forall (r : option (Node State Action C)) (explored : set State),
        bfs fuel = Returned (r, explored) \/ dfs fuel = Returned (r, explored)
        \/ best fuel = Returned (r, explored) ->
        Forall (reachable problem) explored
        /\ NoDup explored
        /\ (forall U : list State,
               NoDup U -> (forall s, reachable problem s <-> In s U) ->
               List.length explored <= List.length U))
    /\ (goal_test problem (initial problem) = true ->
        bfs fuel = Returned (Some root, [initial problem])
        /\ dfs fuel = Returned (Some root, [initial problem])
        /\ best (S fuel)
           = match match f with
                   | Some g => g root
                   | None => Some (h problem root)
                   end with
             | Some _ => Returned (Some root, [])
             | None => Raised
             end).
Proof.
  intros State Action C State_eq_dec state_lt is_LEFT C0 C_lt C_ge C_eq problem f fuel
         bfs dfs best root.
  assert (Hroot : reachable problem (state root)) by apply reachable_initial.
  split.
  - intros r explored H.
    assert (Hex : Forall (reachable problem) explored /\ NoDup explored).
    { destruct H as [H|[H|H]].
      - unfold bfs, breadth_first_graph_search in H. fold root in H.
        destruct (goal_test problem (state root)).
        + injection H as <- <-. split; repeat constructor; auto.
        + apply (bfs_loop_explored State_eq_dec problem fuel [root] [] r explored);
            auto; constructor; auto.
      - unfold dfs, depth_first_graph_search in H. fold root in H.
        destruct (goal_test problem (state root)).
        + injection H as <- <-. split; repeat constructor; auto.
        + apply (dfs_loop_explored State_eq_dec problem fuel [root] [] r explored);
            auto; constructor; auto.
      - unfold best, best_first_graph_search, pq_append, memoize in H. fold root in H.
        destruct (match f with Some g => g | None => _ end root) as [v|];
          [|discriminate H].
        eapply (bfgs_loop_explored State_eq_dec state_lt is_LEFT C_lt C_ge C_eq problem);
          [ | | | exact H]; cbn; repeat constructor; auto. }
    destruct Hex as [Hreach Hnd]. repeat split; auto.
    intros U HU Hall. apply NoDup_incl_length; [exact Hnd|].
    intros s Hs. apply Hall. revert s Hs. now apply Forall_forall.
  - intros Hgoal. repeat split.
    + unfold bfs, breadth_first_graph_search. fold root.
      change (state root) with (initial problem). now rewrite Hgoal.
    + unfold dfs, depth_first_graph_search. fold root.
      change (state root) with (initial problem). now rewrite Hgoal.
    + unfold best, best_first_graph_search, pq_append, memoize. fold root.
      destruct f as [g|]; [destruct (g root) as [v|]|]; cbn; try reflexivity;
        now rewrite Hgoal.
Qed.

(* ------------------------------------------------------------------ *)
(** ** Uniform-cost search

    The setting of the optimality theorem: on the costs that occur
    ([good]), in the reachable states and for the actions of the state,
    the cost of a step depends on the cost so far, the two states and the
    action only ([step]); on these costs the order [>=] is a total
    preorder, and a step neither lowers the cost nor reverses the order
    of two costs; and the list [U] holds the initial state and, with a
    state, its successors, with [actions] defined on it. *)

Section UniformCostFacts.

Context {State Action C : Type}.
Variable State_eq_dec : forall x y : State, {x = y} + {x <> y}.
Variable state_lt : State -> State -> bool.
Variable is_LEFT : Action -> bool.
Variable C0 : C.
Variables C_lt C_ge C_eq : C -> C -> bool.
Variable problem : Problem State Action C.
Variable step : C -> State -> Action -> State -> C.
Variable good : C -> Prop.
Variable U : list State.

Local Abbreviation N := (Node State Action C).
Local Abbreviation E := (entry State Action C).
Local Abbreviation root := (Node_init (initial problem) None None C0).
Local Abbreviation le := (cost_le C_ge).
Local Abbreviation legal' := (legal problem root).
Local Abbreviation reach := (reachable problem).
Local Abbreviation cover := (covered C_ge).
Local Abbreviation extract := (pq_extract_min State_eq_dec state_lt C_lt C_eq).
Local Abbreviation f := (fun node : N => Some (path_cost node)).
Local Abbreviation next := (result problem).

Hypothesis cost_by_step :
  forall (n : N) (acts : list Action) (a : Action),
    good (path_cost n) -> reach (state n) ->
    actions problem (state n) = Some acts -> In a acts ->
    problem_path_cost problem n (state n) a (next (state n) a)
    = Some (step (path_cost n) (state n) a (next (state n) a)).
Hypothesis good_C0 : good C0.
Hypothesis good_step :
  forall c s acts a,
    good c -> reach s -> actions problem s = Some acts -> In a acts ->
    good (step c s a (next s a)).
Hypothesis ge_refl : forall a, good a -> C_ge a a = true.
Hypothesis ge_trans :
  forall a b c, good a -> good b -> good c ->
                C_ge a b = true -> C_ge b c = true -> C_ge a c = true.
Hypothesis ge_total :
  forall a b, good a -> good b -> C_ge a b = true \/ C_ge b a = true.
Hypothesis lt_not_ge : forall a b, good a -> good b -> C_lt a b = negb (C_ge a b).
Hypothesis eq_both_ge :
  forall a b, good a -> good b -> C_eq a b = (C_ge a b && C_ge b a)%bool.
Hypothesis step_nonneg :
  forall c s acts a,
    good c -> reach s -> actions problem s = Some acts -> In a acts ->
    C_ge (step c s a (next s a)) c = true.
Hypothesis step_monotone :
  forall c c' s acts a,
    good c -> good c' -> reach s -> actions problem s = Some acts -> In a acts ->
    C_ge c' c = true -> C_ge (step c' s a (next s a)) (step c s a (next s a)) = true.
Hypothesis U_initial : In (initial problem) U.
Hypothesis U_closed :
  forall s, In s U ->
            exists acts, actions problem s = Some acts
                         /\ forall a, In a acts -> In (result problem s a) U.

(** *** Paths *)

Lemma legal_reachable (m : N) : legal' m -> reach (state m).
Proof.
  induction 1 as [|n c avail act Hn IH Ha Hin Hc].
  - apply reachable_initial.
  - exact (child_reachable problem n c avail act IH Ha Hin Hc).
Qed.

Lemma child_node_cost (n c : N) (avail : list Action) (act : Action) :
  good (path_cost n) -> reach (state n) ->
  actions problem (state n) = Some avail -> In act avail ->
  child_node problem n act = Some c ->
  path_cost c = step (path_cost n) (state n) act (state c)
  /\ state c = result problem (state n) act.
Proof.
  intros Hg Hr Ha Hin Hc.
  destruct (child_node_fields problem n c act Hc) as (Hs & _ & _ & _ & Hp).
  rewrite Hs in Hp.
  rewrite (cost_by_step n avail act Hg Hr Ha Hin) in Hp. injection Hp as Hp.
  rewrite Hs. auto.
Qed.

Lemma legal_good (m : N) : legal' m -> good (path_cost m).
Proof.
  induction 1 as [|n c avail act Hn IH Ha Hin Hc].
  - exact good_C0.
  - pose proof (legal_reachable n Hn) as Hr.
    destruct (child_node_cost n c avail act IH Hr Ha Hin Hc) as [-> ->].
    now apply (good_step _ _ avail).
Qed.

Lemma child_node_step (n c : N) (avail : list Action) (act : Action) :
  legal' n -> actions problem (state n) = Some avail -> In act avail ->
  child_node problem n act = Some c ->
  path_cost c = step (path_cost n) (state n) act (state c)
  /\ state c = result problem (state n) act.
Proof.
  intros Hn. apply child_node_cost; [now apply legal_good|now apply legal_reachable].
Qed.

Lemma child_node_defined (n : N) (avail : list Action) (act : Action) :
  legal' n -> actions problem (state n) = Some avail -> In act avail ->
  exists c, child_node problem n act = Some c.
Proof.
  intros Hn Ha Hin. unfold child_node.
  rewrite (cost_by_step n avail act (legal_good n Hn) (legal_reachable n Hn) Ha Hin).
  eauto.
Qed.

Lemma reachable_in_U (s : State) : reach s -> In s U.
Proof.
  induction 1 as [|s acts act Hs IH Ha Hin].
  - exact U_initial.
  - destruct (U_closed s IH) as (acts' & Ha' & Hcl).
    rewrite Ha in Ha'. injection Ha' as <-. now apply Hcl.
Qed.

Lemma cost_le_refl (a : C) : good a -> le a a.
Proof. apply ge_refl. Qed.

Lemma cost_le_trans (a b c : C) :
  good a -> good b -> good c -> le a b -> le b c -> le a c.
Proof. unfold cost_le. intros Ha Hb Hc Hab Hbc. now apply (ge_trans c b a). Qed.

(** *** The minimum of the queue *)

Lemma entry_lt_le (a b : E) :
  good (fst a) -> good (fst b) ->
  entry_lt State_eq_dec state_lt C_lt C_eq a b = true -> le (fst a) (fst b).
Proof.
  intros Ha Hb. unfold entry_lt, cost_le.
  rewrite (eq_both_ge _ _ Ha Hb), (lt_not_ge _ _ Ha Hb).
  destruct (C_ge (fst a) (fst b)) eqn:E1, (C_ge (fst b) (fst a)) eqn:E2; simpl; auto.
  intros _. destruct (ge_total _ _ Ha Hb); congruence.
Qed.

Lemma entry_not_lt_le (a b : E) :
  good (fst a) -> good (fst b) ->
  entry_lt State_eq_dec state_lt C_lt C_eq a b = false -> le (fst b) (fst a).
Proof.
  intros Ha Hb. unfold entry_lt, cost_le.
  rewrite (eq_both_ge _ _ Ha Hb), (lt_not_ge _ _ Ha Hb).
  destruct (C_ge (fst a) (fst b)) eqn:E1, (C_ge (fst b) (fst a)) eqn:E2; simpl; auto;
    discriminate.
Qed.

Lemma pq_extract_min_least (q : list E) :
  Forall (fun e => good (fst e)) q ->
  forall m r, extract q = Some (m, r) ->
              good (fst m) /\ forall e, In e q -> le (fst m) (fst e).
Proof.
  induction q as [|e q IH]; simpl; intros Hq m r; [discriminate|].
  inversion Hq as [|? ? He Hq']; subst.
  destruct (extract q) as [[m' r']|] eqn:Hext.
  - destruct (IH Hq' m' r' eq_refl) as [Hm' Hleast].
    destruct (entry_lt State_eq_dec state_lt C_lt C_eq m' e) eqn:Hlt.
    + intros H. injection H as <- <-. split; [exact Hm'|].
      intros e' [<-|He']; [now apply entry_lt_le|now apply Hleast].
    + intros H. injection H as <- <-. split; [exact He|].
      intros e' [<-|He']; [now apply cost_le_refl|].
      apply (cost_le_trans (fst e) (fst m') (fst e')); auto.
      * exact (proj1 (Forall_forall _ _) Hq' e' He').
      * now apply entry_not_lt_le.
  - intros H. injection H as <- <-. split; [exact He|].
    apply (pq_extract_min_none State_eq_dec state_lt C_lt C_eq) in Hext. subst q.
    intros e' [<-|[]]. now apply cost_le_refl.
Qed.

(** *** What the frontier covers *)

Lemma cover_weaken (front : list E) (s : State) (x y : C) :
  Forall (fun e => good (fst e)) front -> good x -> good y ->
  cover front s x -> le x y -> cover front s y.
Proof.
  intros Hf Hx Hy (e & Hin & Hs & Hle) Hxy. exists e. repeat split; auto.
  apply (cost_le_trans (fst e) x y); auto. exact (proj1 (Forall_forall _ _) Hf e Hin).
Qed.

Lemma cover_improves (front front' : list E) (s : State) (x : C) :
  Forall (fun e => good (fst e)) front -> Forall (fun e => good (fst e)) front' ->
  good x -> improves C_ge front front' -> cover front s x -> cover front' s x.
Proof.
  intros Hf Hf' Hx Himp (e & Hin & Hs & Hle).
  destruct (Himp e Hin) as (e' & Hin' & Hs' & Hle').
  exists e'. repeat split; [exact Hin'|congruence|].
  apply (cost_le_trans (fst e') (fst e) x); auto.
  - exact (proj1 (Forall_forall _ _) Hf' e' Hin').
  - exact (proj1 (Forall_forall _ _) Hf e Hin).
Qed.

Lemma frontier_good (front : list E) (explore : set State) :
  frontier_ok problem root front explore -> Forall (fun e => good (fst e)) front.
Proof.
  intros Hok. apply Forall_forall. intros e He.
  destruct (entries_legal Hok e He) as [-> Hl]. now apply legal_good.
Qed.

Lemma improves_refl (front : list E) :
  Forall (fun e => good (fst e)) front -> improves C_ge front front.
Proof.
  intros Hf e He. exists e. repeat split; auto.
  apply cost_le_refl. exact (proj1 (Forall_forall _ _) Hf e He).
Qed.

Lemma improves_trans (a b c : list E) :
  Forall (fun e => good (fst e)) a -> Forall (fun e => good (fst e)) b ->
  Forall (fun e => good (fst e)) c ->
  improves C_ge a b -> improves C_ge b c -> improves C_ge a c.
Proof.
  intros Ha Hb Hc Hab Hbc e He.
  apply (cover_improves b c); auto.
  exact (proj1 (Forall_forall _ _) Ha e He).
Qed.


(** *** The frontier bounds every path that ends outside the explored set *)

Lemma step_le (n c : N) (avail : list Action) (act : Action) :
  legal' n -> actions problem (state n) = Some avail -> In act avail ->
  child_node problem n act = Some c -> le (path_cost n) (path_cost c).
Proof.
  intros Hn Ha Hin Hc.
  destruct (child_node_step n c avail act Hn Ha Hin Hc) as [-> ->].
  apply (step_nonneg _ _ avail); auto; [now apply legal_good|now apply legal_reachable].
Qed.

Lemma frontier_bound (front : list E) (explore : set State) :
  ucs_invariant C0 C_ge problem root front explore ->
  forall m, legal' m -> ~ In (state m) explore ->
            exists e, In e front /\ le (fst e) (path_cost m).
Proof.
  intros Hinv. induction 1 as [|n c avail act Hn IH Ha Hin Hc]; intros Hnot.
  - destruct (inv_initial Hinv) as [H|(e & He & _ & Hle)]; [contradiction|].
    exists e. auto.
  - destruct (in_dec State_eq_dec (state n) explore) as [Hex|Hnex].
    + destruct (inv_settled Hinv (state n) Hex) as [_ Hsucc].
      destruct (Hsucc n c avail act Hn eq_refl Ha Hin Hc) as [H|(e & He & _ & Hle)];
        [contradiction|].
      exists e. auto.
    + destruct (IH Hnex) as (e & He & Hle). exists e. split; [exact He|].
      pose proof (frontier_good front explore (inv_frontier Hinv)) as Hgood.
      apply (cost_le_trans (fst e) (path_cost n) (path_cost c)); auto.
      * exact (proj1 (Forall_forall _ _) Hgood e He).
      * now apply legal_good.
      * apply legal_good. exact (@legal_child _ _ _ problem root n c avail act Hn Ha Hin Hc).
      * exact (step_le n c avail act Hn Ha Hin Hc).
Qed.

(** *** One child *)

Lemma NoDup_snoc {A : Type} (l : list A) (a : A) :
  NoDup l -> ~ In a l -> NoDup (l ++ [a]).
Proof.
  intros Hl Ha. induction Hl as [|x l Hx Hl IH]; simpl.
  - constructor; [intros []|constructor].
  - constructor.
    + rewrite in_app_iff. simpl. intros [H|[H|[]]]; [tauto|]. apply Ha. now left.
    + apply IH. intros H. apply Ha. now right.
Qed.

Lemma bfgs_child_ok (front : list E) (explore : set State) (c : N) :
  frontier_ok problem root front explore -> legal' c ->
  exists front',
    bfgs_child State_eq_dec C_ge f explore front c = Some front'
    /\ frontier_ok problem root front' explore
    /\ improves C_ge front front'
    /\ (In (state c) explore \/ cover front' (state c) (path_cost c)).
Proof.
  intros Hok Hc.
  pose proof (frontier_good front explore Hok) as Hgood.
  pose proof (legal_good c Hc) as Hgc.
  unfold bfgs_child, pq_append.
  destruct (pq_contains State_eq_dec front c) eqn:Hcont.
  - rewrite orb_true_r. cbn [negb].
    destruct (pq_first_entry State_eq_dec front c Hcont)
      as (pre & e & post & Hfront & Hs & Hpre & Hget & Hdel).
    rewrite Hget, Hdel.
    assert (Hine : In e front) by (rewrite Hfront; apply in_elt).
    pose proof (proj1 (Forall_forall _ _) Hgood e Hine) as Hge.
    destruct (C_ge (path_cost c) (fst e)) eqn:Hcmp; cbn [negb].
    + exists front. split; [reflexivity|]. split; [exact Hok|].
      split; [now apply improves_refl|].
      right. exists e. auto.
    + assert (Hnew : le (path_cost c) (fst e)).
      { unfold cost_le. destruct (ge_total (path_cost c) (fst e) Hgc Hge); congruence. }
      assert (Hsub : forall e', In e' (pre ++ post) -> In e' front).
      { intros e' H. rewrite Hfront. apply in_app_or in H. apply in_or_app.
        destruct H; [now left|right; now right]. }
      pose proof (entries_distinct Hok) as Hnd.
      rewrite Hfront, map_app in Hnd. cbn [map] in Hnd.
      apply NoDup_remove in Hnd. destruct Hnd as [Hnd Hnotin].
      rewrite <- map_app in Hnd, Hnotin.
      exists ((pre ++ post) ++ [(path_cost c, c)]).
      split; [reflexivity|]. split; [|split].
      * constructor.
        -- intros e' H. apply in_app_or in H. destruct H as [H|[<-|[]]].
           ++ exact (entries_legal Hok e' (Hsub e' H)).
           ++ split; [reflexivity|exact Hc].
        -- rewrite map_app. cbn [map snd]. apply NoDup_snoc; [exact Hnd|].
           now rewrite <- Hs.
        -- intros e' H. apply in_app_or in H. destruct H as [H|[<-|[]]].
           ++ exact (entries_fresh Hok e' (Hsub e' H)).
           ++ cbn [snd]. rewrite <- Hs. exact (entries_fresh Hok e Hine).
      * intros e' H. rewrite Hfront in H. apply in_app_or in H.
        destruct H as [H|[<-|H]].
        -- exists e'. split; [|split].
           ++ apply in_or_app. left. apply in_or_app. now left.
           ++ reflexivity.
           ++ apply cost_le_refl. apply (proj1 (Forall_forall _ _) Hgood). apply Hsub.
              apply in_or_app. now left.
        -- exists (path_cost c, c). split; [|split].
           ++ apply in_or_app. right. now left.
           ++ cbn [snd]. now rewrite Hs.
           ++ exact Hnew.
        -- exists e'. split; [|split].
           ++ apply in_or_app. left. apply in_or_app. now right.
           ++ reflexivity.
           ++ apply cost_le_refl. apply (proj1 (Forall_forall _ _) Hgood). apply Hsub.
              apply in_or_app. now right.
      * right. exists (path_cost c, c). split; [|split].
        -- apply in_or_app. right. now left.
        -- reflexivity.
        -- now apply cost_le_refl.
  - rewrite orb_false_r.
    destruct (in_explore State_eq_dec (state c) explore) eqn:Hex; cbn [negb].
    + exists front. split; [reflexivity|]. split; [exact Hok|].
      split; [now apply improves_refl|].
      left. now apply (in_explore_true State_eq_dec).
    + assert (Hnotin : ~ In (state c) (map (fun e : E => state (snd e)) front)).
      { intros H. apply in_map_iff in H. destruct H as (e & Hs & He).
        assert (Hc' : pq_contains State_eq_dec front c = true)
          by (apply pq_contains_iff; eauto).
        congruence. }
      exists (front ++ [(path_cost c, c)]).
      split; [reflexivity|]. split; [|split].
      * constructor.
        -- intros e' H. apply in_app_or in H. destruct H as [H|[<-|[]]].
           ++ exact (entries_legal Hok e' H).
           ++ split; [reflexivity|exact Hc].
        -- rewrite map_app. cbn [map snd]. apply NoDup_snoc; [|exact Hnotin].
           exact (entries_distinct Hok).
        -- intros e' H. apply in_app_or in H. destruct H as [H|[<-|[]]].
           ++ exact (entries_fresh Hok e' H).
           ++ cbn [snd]. now apply (in_explore_false State_eq_dec).
      * intros e' H. exists e'. split; [|split].
        -- apply in_or_app. now left.
        -- reflexivity.
        -- apply cost_le_refl. exact (proj1 (Forall_forall _ _) Hgood e' H).
      * right. exists (path_cost c, c). split; [|split].
        -- apply in_or_app. right. now left.
        -- reflexivity.
        -- now apply cost_le_refl.
Qed.

(** *** All the children of a node *)

Lemma bfgs_for_ok (explore : set State) (cs : list N) :
  forall front,
    frontier_ok problem root front explore -> Forall legal' cs ->
    exists front',
      bfgs_for State_eq_dec C_ge f explore cs front = Some front'
      /\ frontier_ok problem root front' explore
      /\ improves C_ge front front'
      /\ forall c, In c cs ->
                   In (state c) explore \/ cover front' (state c) (path_cost c).
Proof.
  induction cs as [|c cs IH]; intros front Hok Hcs; cbn [bfgs_for].
  - exists front. split; [reflexivity|]. split; [exact Hok|].
    split; [apply improves_refl; exact (frontier_good front explore Hok)|].
    intros c [].
  - inversion Hcs as [|? ? Hc Hcs']; subst.
    destruct (bfgs_child_ok front explore c Hok Hc) as (front1 & -> & Hok1 & Himp1 & Hcov1).
    destruct (IH front1 Hok1 Hcs') as (front' & -> & Hok' & Himp' & Hcov').
    pose proof (frontier_good front explore Hok) as Hg.
    pose proof (frontier_good front1 explore Hok1) as Hg1.
    pose proof (frontier_good front' explore Hok') as Hg'.
    exists front'. split; [reflexivity|]. split; [exact Hok'|].
    split; [exact (improves_trans front front1 front' Hg Hg1 Hg' Himp1 Himp')|].
    intros c' [<-|Hin]; [|now apply Hcov'].
    destruct Hcov1 as [H|H]; [now left|right].
    apply (cover_improves front1 front'); auto. now apply legal_good.
Qed.

Lemma expand_ok (n : N) :
  legal' n ->
  exists avail cs,
    actions problem (state n) = Some avail
    /\ expand is_LEFT problem n = Some cs
    /\ Forall legal' cs
    /\ forall act, In act avail -> exists c, In c cs /\ child_node problem n act = Some c.
Proof.
  intros Hn.
  destruct (U_closed (state n) (reachable_in_U _ (legal_reachable n Hn)))
    as (avail & Ha & _).
  destruct (mapM_total (child_node problem n)
              (list_sort (fun a => if is_LEFT a then 0 else 1) avail)) as (cs & Hcs).
  { intros act Hact. apply (proj1 (list_sort_In is_LEFT avail act)) in Hact.
    destruct (child_node_defined n avail act Hn Ha Hact) as (c & ->). discriminate. }
  destruct (mapM_In _ _ cs Hcs) as [Hback Hforth].
  exists avail, cs. unfold expand. rewrite Ha.
  split; [reflexivity|]. split; [exact Hcs|]. split.
  - apply Forall_forall. intros c Hc. destruct (Hback c Hc) as (act & Hact & Hchild).
    apply (proj1 (list_sort_In is_LEFT avail act)) in Hact.
    exact (@legal_child _ _ _ problem root n c avail act Hn Ha Hact Hchild).
  - intros act Hact. apply Hforth. now apply (list_sort_In is_LEFT avail act).
Qed.

(** *** The loop *)

Lemma invariant_step (front : list E) (explore : set State) (m0 : E)
      (pre post front2 : list E) (cs : list N) (avail : list Action) :
  ucs_invariant C0 C_ge problem root front explore ->
  front = pre ++ m0 :: post ->
  (forall e, In e front -> le (fst m0) (fst e)) ->
  goal_test problem (state (snd m0)) = false ->
  actions problem (state (snd m0)) = Some avail ->
  (forall act, In act avail ->
               exists c, In c cs /\ child_node problem (snd m0) act = Some c) ->
  let explore1 := explore_add State_eq_dec (state (snd m0)) explore in
  frontier_ok problem root front2 explore1 ->
  improves C_ge (pre ++ post) front2 ->
  (forall c, In c cs -> In (state c) explore1 \/ cover front2 (state c) (path_cost c)) ->
  ucs_invariant C0 C_ge problem root front2 explore1.
Proof.
  intros Hinv Hfront Hleast Hgoal Havail Hchildren explore1 Hok2 Himp Hcov.
  pose proof (inv_frontier Hinv) as Hok.
  pose proof (frontier_good front explore Hok) as Hg.
  pose proof (frontier_good front2 explore1 Hok2) as Hg2.
  assert (Hm0 : In m0 front) by (rewrite Hfront; apply in_elt).
  destruct (entries_legal Hok m0 Hm0) as [Hv0 Hl0].
  assert (Hg1 : Forall (fun e : E => good (fst e)) (pre ++ post)).
  { apply Forall_forall. intros e He. apply (proj1 (Forall_forall _ _) Hg).
    rewrite Hfront. apply in_app_or in He. apply in_or_app.
    destruct He; [now left|right; now right]. }
  (* the popped node is a cheapest path to its state *)
  assert (Hopt : forall n, legal' n -> state n = state (snd m0) ->
                           le (path_cost (snd m0)) (path_cost n)).
  { intros n Hn Hs.
    destruct (frontier_bound front explore Hinv n Hn) as (e & He & Hle).
    - rewrite Hs. exact (entries_fresh Hok m0 Hm0).
    - rewrite <- Hv0.
      apply (cost_le_trans (fst m0) (fst e) (path_cost n)); auto.
      + exact (proj1 (Forall_forall _ _) Hg m0 Hm0).
      + exact (proj1 (Forall_forall _ _) Hg e He).
      + now apply legal_good. }
  (* what the old frontier covered is explored now or still covered *)
  assert (Hkeep : forall s x, good x -> cover front s x ->
                              In s explore1 \/ cover front2 s x).
  { intros s x Hx (e & He & Hs & Hle).
    rewrite Hfront in He. apply in_app_or in He.
    assert (Hrest : In e (pre ++ post) -> In s explore1 \/ cover front2 s x).
    { intros H. right. apply (cover_improves (pre ++ post) front2); auto.
      exists e. auto. }
    destruct He as [He|[<-|He]].
    - apply Hrest. apply in_or_app. now left.
    - left. apply (explore_add_iff State_eq_dec). left. now rewrite Hs.
    - apply Hrest. apply in_or_app. now right. }
  constructor.
  - exact Hok2.
  - intros s Hs. apply (explore_add_iff State_eq_dec) in Hs. destruct Hs as [->|Hs].
    + split; [exact Hgoal|].
      intros n c avail' act Hn Hst Ha Hact Hc.
      rewrite Havail in Ha. injection Ha as <-.
      destruct (Hchildren act Hact) as (c0 & Hc0 & Hchild0).
      assert (Han : actions problem (state n) = Some avail) by (now rewrite Hst).
      destruct (child_node_step (snd m0) c0 avail act Hl0 Havail Hact Hchild0) as [Hp0 Hs0].
      destruct (child_node_step n c avail act Hn Han Hact Hc) as [Hp Hsc].
      assert (Hsame : state c0 = state c) by (rewrite Hs0, Hsc, Hst; reflexivity).
      destruct (Hcov c0 Hc0) as [H|H]; [left; now rewrite <- Hsame|right].
      rewrite <- Hsame.
      assert (Hlc0 : legal' c0)
        by exact (@legal_child _ _ _ problem root (snd m0) c0 avail act Hl0 Havail Hact Hchild0).
      assert (Hlc : legal' c)
        by exact (@legal_child _ _ _ problem root n c avail act Hn Han Hact Hc).
      apply (cover_weaken front2 (state c0) (path_cost c0) (path_cost c)); auto.
      * now apply legal_good.
      * now apply legal_good.
      * rewrite Hp0, Hp, Hs0, Hsc, Hst.
        apply (step_monotone _ _ _ avail); auto;
          [now apply legal_good|now apply legal_good|now apply legal_reachable|].
        exact (Hopt n Hn Hst).
    + destruct (inv_settled Hinv s Hs) as [Hng Hsucc]. split; [exact Hng|].
      intros n c avail' act Hn Hst Ha Hact Hc.
      destruct (Hsucc n c avail' act Hn Hst Ha Hact Hc) as [H|H].
      * left. apply (explore_add_iff State_eq_dec). now right.
      * apply Hkeep; [|exact H]. apply legal_good.
        apply (@legal_child _ _ _ problem root n c avail' act Hn); auto.
        now rewrite Hst.
  - destruct (inv_initial Hinv) as [H|H].
    + left. apply (explore_add_iff State_eq_dec). now right.
    + now apply Hkeep.
  - apply explore_add_NoDup. exact (inv_nodup Hinv).
  - intros s Hs. apply (explore_add_iff State_eq_dec) in Hs. destruct Hs as [->|Hs].
    + now apply legal_reachable.
    + exact (inv_reachable Hinv s Hs).
Qed.

Lemma frontier_after_pop (front : list E) (explore : set State) (m0 : E)
      (pre post : list E) :
  frontier_ok problem root front explore ->
  front = pre ++ m0 :: post ->
  frontier_ok problem root (pre ++ post)
              (explore_add State_eq_dec (state (snd m0)) explore).
Proof.
  intros Hok Hfront.
  assert (Hsub : forall e, In e (pre ++ post) -> In e front).
  { intros e H. rewrite Hfront. apply in_app_or in H. apply in_or_app.
    destruct H; [now left|right; now right]. }
  pose proof (entries_distinct Hok) as Hnd.
  rewrite Hfront, map_app in Hnd. cbn [map] in Hnd.
  apply NoDup_remove in Hnd. destruct Hnd as [Hnd Hnotin].
  rewrite <- map_app in Hnd, Hnotin.
  constructor.
  - intros e He. exact (entries_legal Hok e (Hsub e He)).
  - exact Hnd.
  - intros e He Hin. apply (explore_add_iff State_eq_dec) in Hin.
    destruct Hin as [Hin|Hin].
    + apply Hnotin. rewrite <- Hin. apply in_map_iff. exists e. auto.
    + exact (entries_fresh Hok e (Hsub e He) Hin).
Qed.

Lemma bfgs_loop_optimal (fuel : nat) :
  forall (front : list E) (explore : set State),
    ucs_invariant C0 C_ge problem root front explore ->
    List.length U < fuel + List.length explore ->
    (exists m, legal' m /\ goal_test problem (state m) = true) ->
    exists n expl,
      bfgs_loop State_eq_dec state_lt is_LEFT C_lt C_ge C_eq problem f fuel front explore
      = Returned (Some n, expl)
      /\ goal_test problem (state n) = true
      /\ legal' n
      /\ forall m, legal' m -> goal_test problem (state m) = true ->
                   le (path_cost n) (path_cost m).
Proof.
  induction fuel as [|fuel IH]; intros front explore Hinv Hfuel Hgoal.
  - exfalso.
    assert (List.length explore <= List.length U); [|lia].
    apply NoDup_incl_length; [exact (inv_nodup Hinv)|].
    intros s Hs. apply reachable_in_U. exact (inv_reachable Hinv s Hs).
  - pose proof (inv_frontier Hinv) as Hok.
    pose proof (frontier_good front explore Hok) as Hg.
    assert (Hunexplored : forall m : N, goal_test problem (state m) = true ->
                                    ~ In (state m) explore).
    { intros m Hm Hin. destruct (inv_settled Hinv (state m) Hin) as [Hng _]. congruence. }
    cbn [bfgs_loop]. unfold pq_pop.
    destruct (extract front) as [[m0 front1]|] eqn:Hpop.
    + destruct (pq_extract_min_split State_eq_dec state_lt C_lt C_eq front m0 front1 Hpop)
        as (pre & post & Hfront & ->).
      destruct (pq_extract_min_least front Hg m0 (pre ++ post) Hpop) as [Hgm0 Hleast].
      assert (Hm0 : In m0 front) by (rewrite Hfront; apply in_elt).
      destruct (entries_legal Hok m0 Hm0) as [Hv0 Hl0].
      cbn [snd].
      destruct (goal_test problem (state (snd m0))) eqn:Hg0.
      * exists (snd m0), explore. split; [reflexivity|]. split; [exact Hg0|].
        split; [exact Hl0|].
        intros m Hm Hgm.
        destruct (frontier_bound front explore Hinv m Hm (Hunexplored m Hgm))
          as (e & He & Hle).
        rewrite <- Hv0. apply (cost_le_trans (fst m0) (fst e) (path_cost m)); auto.
        -- exact (proj1 (Forall_forall _ _) Hg e He).
        -- now apply legal_good.
      * destruct (expand_ok (snd m0) Hl0) as (avail & cs & Ha & Hexp & Hcs & Hchildren).
        rewrite Hexp.
        pose proof (frontier_after_pop front explore m0 pre post Hok Hfront) as Hok1.
        destruct (bfgs_for_ok _ cs (pre ++ post) Hok1 Hcs)
          as (front2 & -> & Hok2 & Himp & Hcov).
        apply IH.
        -- exact (invariant_step front explore m0 pre post front2 cs avail
                    Hinv Hfront Hleast Hg0 Ha Hchildren Hok2 Himp Hcov).
        -- rewrite (explore_add_new State_eq_dec);
             [|exact (entries_fresh Hok m0 Hm0)].
           rewrite length_app. simpl. lia.
        -- exact Hgoal.
    + exfalso. destruct Hgoal as (m & Hm & Hgm).
      apply (pq_extract_min_none State_eq_dec state_lt C_lt C_eq) in Hpop. subst front.
      destruct (frontier_bound [] explore Hinv m Hm (Hunexplored m Hgm)) as (e & [] & _).
Qed.

Lemma initial_invariant :
  ucs_invariant C0 C_ge problem root [(C0, root)] [].
Proof.
  constructor.
  - constructor.
    + intros e [<-|[]]. split; [reflexivity|apply legal_root].
    + cbn. constructor; [intros []|constructor].
    + intros e _ [].
  - intros s [].
  - right. exists (C0, root). split; [now left|]. split; [reflexivity|].
    now apply cost_le_refl.
  - constructor.
  - intros s [].
Qed.

End UniformCostFacts.

(* ------------------------------------------------------------------ *)
(** ** Uniform-cost search on vacuum problems *)

Section VacuumPaths.

Import Vacuum Examples.

Lemma legal_walk_from_sound (self : VacuumPlanning) (r : VNode) (acts : list Action) :
  forall n m,
    legal (as_problem self) r n -> legal_walk_from self n acts = Some m ->
    legal (as_problem self) r m /\ follow (as_problem self) n acts = Some m.
Proof.
  induction acts as [|act acts IH]; intros n m Hn; cbn [legal_walk_from follow].
  - intros H. injection H as <-. auto.
  - destruct (actions self (state n)) as [avail|] eqn:Ha; [|discriminate].
    destruct (existsb (String.eqb act) avail) eqn:Hex; [|discriminate].
    destruct (child_node (as_problem self) n act) as [c|] eqn:Hc; [|discriminate].
    intros H. apply IH; [|exact H].
    apply existsb_exists in Hex. destruct Hex as (a & Hin & Heq).
    apply String.eqb_eq in Heq. subst a.
    exact (@legal_child _ _ _ (as_problem self) r n c avail act Hn Ha Hin Hc).
Qed.

Lemma legal_walk_sound (self : VacuumPlanning) (s : State) (acts : list Action) (m : VNode) :
  legal_walk self s acts = Some m ->
  legal (as_problem self) (root s) m /\ walk self s acts = Some m.
Proof. apply legal_walk_from_sound. apply legal_root. Qed.

(** The StepTurn cost of a step is 1 and a turn cost that is not negative. *)
Lemma StepTurn_step (self : VacuumPlanning) (curNode : VNode) (s1 : State)
      (act : Action) (s2 : State) :
  costFunc (env self) = "StepTurn"%string ->
  forall z : Z,
    node_path_cost curNode = NInt z ->
    exists t : Z,
      (0 <= t)%Z
      /\ Vacuum.path_cost self curNode s1 act s2 = Some (NInt (z + 1 + t)).
Proof.
  intros H z Hz. unfold Vacuum.path_cost. rewrite H, Hz.
  cbn [String.eqb Ascii.eqb Bool.eqb num_add].
  exists (computeTurnCost (node_action curNode) (Some act)). split; [|reflexivity].
  rewrite TurnCost.computeTurnCost_parsed.
  destruct (Notions.parse_direction (node_action curNode)) as [d1|]; [|lia].
  destruct (Notions.parse_direction (Some act)) as [d2|]; [|lia].
  destruct (TurnCost.rotation_distance_range d1 d2) as [E|[E|E]]; rewrite E; lia.
Qed.

(** Integer costs under [>=]. *)
Lemma int_ge_refl (a : num) : is_int a -> num_ge a a = true.
Proof. intros (z & ->). simpl. apply Z.geb_le. lia. Qed.

Lemma int_ge_trans (a b c : num) :
  is_int a -> is_int b -> is_int c ->
  num_ge a b = true -> num_ge b c = true -> num_ge a c = true.
Proof.
  intros (x & ->) (y & ->) (z & ->). simpl. rewrite !Z.geb_le. lia.
Qed.

Lemma int_ge_total (a b : num) :
  is_int a -> is_int b -> num_ge a b = true \/ num_ge b a = true.
Proof. intros (x & ->) (y & ->). simpl. rewrite !Z.geb_le. lia. Qed.

Lemma int_lt_not_ge (a b : num) :
  is_int a -> is_int b -> num_lt a b = negb (num_ge a b).
Proof.
  intros (x & ->) (y & ->). simpl. rewrite Z.geb_leb.
  destruct (Z.ltb_spec x y), (Z.leb_spec y x); simpl; auto; lia.
Qed.

Lemma int_eq_both_ge (a b : num) :
  is_int a -> is_int b -> num_eq a b = (num_ge a b && num_ge b a)%bool.
Proof.
  intros (x & ->) (y & ->). simpl. rewrite !Z.geb_leb.
  destruct (Z.eqb_spec x y), (Z.leb_spec y x), (Z.leb_spec x y); simpl; auto; lia.
Qed.

Lemma one_more_int (c : num) (s : State) (a : Action) (s' : State) :
  is_int c -> is_int (one_more c s a s').
Proof. intros (z & ->). exists (z + 1)%Z. reflexivity. Qed.

Lemma one_more_nonneg (c : num) (s : State) (a : Action) (s' : State) :
  is_int c -> num_ge (one_more c s a s') c = true.
Proof. intros (z & ->). simpl. apply Z.geb_le. lia. Qed.

Lemma one_more_monotone (c c' : num) (s : State) (a : Action) (s' : State) :
  is_int c -> is_int c' -> num_ge c' c = true ->
  num_ge (one_more c' s a s') (one_more c s a s') = true.
Proof. intros (x & ->) (y & ->). simpl. rewrite !Z.geb_le. lia. Qed.

Lemma state_eqb_eq (a b : State) : state_eqb a b = true -> a = b.
Proof.
  destruct a as [x y], b as [x' y']. unfold state_eqb. cbn [fst snd].
  intros H. apply andb_prop in H. destruct H as [H1 H2].
  apply Z.eqb_eq in H1, H2. congruence.
Qed.

Lemma closed_under_moves_sound (self : VacuumPlanning) (cells : list State) :
  closed_under_moves self cells = true ->
  forall s, In s cells ->
            exists acts,
              actions self s = Some acts
              /\ forall a, In a acts -> In (fst (result self s a)) cells.
Proof.
  unfold closed_under_moves. intros H s Hs.
  pose proof (proj1 (forallb_forall _ _) H s Hs) as Hcell. cbv beta in Hcell.
  destruct (actions self s) as [acts|]; [|discriminate].
  exists acts. split; [reflexivity|]. intros a Ha.
  pose proof (proj1 (forallb_forall _ _) Hcell a Ha) as Hmove. cbv beta in Hmove.
  apply existsb_exists in Hmove. destruct Hmove as (c & Hc & Heq).
  apply state_eqb_eq in Heq. now rewrite Heq.
Qed.

End VacuumPaths.

(** C4.  Uniform-cost search does not return a cheapest path when the
    cost of a step depends on the action taken before, as the StepTurn
    cost does.  On the grid of the two corridors, with the agent at
    [(0,1)] and the dirt at [(3,3)], every step of the StepTurn cost adds
    1 and a turn cost that is not negative, and the cells are finitely
    many; uniform-cost search returns the path RIGHT, UP, RIGHT, RIGHT, UP
    of cost 14, and the path DOWN, RIGHT, RIGHT, RIGHT, UP, UP, UP to the
    same goal costs 13: the node kept for [(3,2)] is the cheaper one,
    reached facing RIGHT, and the turn to UP makes it the worse. *)
Theorem uniform_cost_search_misses_the_cheaper_path :
  (forall (curNode : Vacuum.VNode) (s1 : Vacuum.State) (act : Vacuum.Action)
          (s2 : Vacuum.State) (z : Z),
      path_cost curNode = NInt z ->
      exists t : Z,
        (0 <= t)%Z
        /\ Vacuum.path_cost Examples.corridors curNode s1 act s2
           = Some (NInt (z + 1 + t)))
  /\ Examples.closed_under_moves Examples.corridors Examples.corridors_cells = true
  /\ exists (n m : Vacuum.VNode) (explored : set Vacuum.State),
      Vacuum.ucs Examples.corridors 20 = Returned (Some n, explored)
      /\ solution n = map Some Examples.upper_path
      /\ path_cost n = NInt 14
      /\ legal (Vacuum.as_problem Examples.corridors) (Examples.root (0, 1)%Z) m
      /\ solution m = map Some Examples.lower_path
      /\ Vacuum.goal_test Examples.corridors (state m) = true
      /\ path_cost m = NInt 13
      /\ num_ge (path_cost m) (path_cost n) = false.
Proof.
  split; [|split].
  - intros curNode s1 act s2 z Hz. now apply StepTurn_step.
  - vm_compute. reflexivity.
  - destruct (Vacuum.ucs Examples.corridors 20) as [[[n|] explored]| |] eqn:Hn;
      try (vm_compute in Hn; discriminate Hn).
    destruct (Examples.legal_walk Examples.corridors (0, 1)%Z Examples.lower_path)
      as [m|] eqn:Hm; [|vm_compute in Hm; discriminate Hm].
    exists n, m, explored.
    pose proof (proj1 (legal_walk_sound _ _ _ _ Hm)) as Hlegal.
    vm_compute in Hn. vm_compute in Hm.
    injection Hn as <- <-. injection Hm as Hm. rewrite <- Hm in *.
    split; [reflexivity|]. split; [reflexivity|]. split; [reflexivity|].
    split; [exact Hlegal|]. repeat split; vm_compute; reflexivity.
Qed.

(* ------------------------------------------------------------------ *)
(** ** Termination

    On a problem whose reachable states are all in a list [U], every
    iteration of a search records a state that was not explored before, so
    that more fuel than [U] has states is never used up. *)

Section Termination.

Context {State Action C : Type}.
Variable State_eq_dec : forall x y : State, {x = y} + {x <> y}.
Variable state_lt : State -> State -> bool.
Variable is_LEFT : Action -> bool.
Variables C_lt C_ge C_eq : C -> C -> bool.
Variable problem : Problem State Action C.
Variable U : list State.

Hypothesis U_covers : forall s, reachable problem s -> In s U.

Local Abbreviation N := (Node State Action C).
Local Abbreviation E := (entry State Action C).
Local Abbreviation reach := (reachable problem).

Lemma waiting_fuel (states : list State) (explore : set State) (fuel : nat) :
  waiting problem states explore -> List.length U < fuel + List.length explore -> fuel <> 0.
Proof.
  intros Hw Hfuel ->.
  assert (List.length explore <= List.length U); [|lia].
  apply NoDup_incl_length; [exact (explored_distinct Hw)|].
  intros s Hs. apply U_covers. exact (explored_reachable Hw s Hs).
Qed.

Lemma waiting_snoc (states : list State) (explore : set State) (s : State) :
  waiting problem states explore -> reach s -> ~ In s states -> ~ In s explore ->
  waiting problem (states ++ [s]) explore.
Proof.
  intros Hw Hr Hs He. constructor.
  - apply NoDup_snoc; [exact (waiting_distinct Hw)|exact Hs].
  - intros x Hx. apply in_app_or in Hx. destruct Hx as [Hx|[<-|[]]];
      [exact (waiting_fresh Hw x Hx)|exact He].
  - intros x Hx. apply in_app_or in Hx. destruct Hx as [Hx|[<-|[]]];
      [exact (waiting_reachable Hw x Hx)|exact Hr].
  - exact (explored_distinct Hw).
  - exact (explored_reachable Hw).
Qed.

(** Taking the state [s] out of the frontier and into the explored set. *)
Lemma waiting_explore (pre post : list State) (explore : set State) (s : State) :
  waiting problem (pre ++ s :: post) explore ->
  waiting problem (pre ++ post) (explore_add State_eq_dec s explore)
  /\ List.length (explore_add State_eq_dec s explore) = S (List.length explore).
Proof.
  intros Hw.
  pose proof (waiting_distinct Hw) as Hnd.
  apply NoDup_remove in Hnd. destruct Hnd as [Hnd Hnotin].
  assert (Hsub : forall x, In x (pre ++ post) -> In x (pre ++ s :: post)).
  { intros x Hx. apply in_app_or in Hx. apply in_or_app.
    destruct Hx; [now left|right; now right]. }
  assert (Hs : In s (pre ++ s :: post)) by apply in_elt.
  split.
  - constructor.
    + exact Hnd.
    + intros x Hx Hin. apply (explore_add_iff State_eq_dec) in Hin.
      destruct Hin as [->|Hin]; [contradiction|].
      exact (waiting_fresh Hw x (Hsub x Hx) Hin).
    + intros x Hx. exact (waiting_reachable Hw x (Hsub x Hx)).
    + apply explore_add_NoDup. exact (explored_distinct Hw).
    + intros x Hx. apply (explore_add_iff State_eq_dec) in Hx.
      destruct Hx as [->|Hx];
        [exact (waiting_reachable Hw s Hs)|exact (explored_reachable Hw x Hx)].
  - rewrite (explore_add_new State_eq_dec); [|exact (waiting_fresh Hw s Hs)].
    rewrite length_app. simpl. lia.
Qed.

Lemma in_nodes_iff (c : N) (front : list N) :
  in_nodes State_eq_dec c front = true <-> In (state c) (map (@state _ _ _) front).
Proof.
  unfold in_nodes. rewrite existsb_exists, in_map_iff.
  split; intros (x & H1 & H2).
  - exists x. split; [now apply (node_eq_true State_eq_dec)|exact H1].
  - exists x. split; [exact H2|now apply (node_eq_true State_eq_dec)].
Qed.

(** *** The uninformed searches *)

Lemma bfs_for_waiting (node : N) (avail : list Action) :
  reach (state node) -> actions problem (state node) = Some avail ->
  forall (acts : list Action) (front front2 : list N) (explore : set State),
    incl acts avail ->
    waiting problem (map (@state _ _ _) front) explore ->
    bfs_for State_eq_dec problem node acts front explore = Some (Continue front2) ->
    waiting problem (map (@state _ _ _) front2) explore.
Proof.
  intros Hr Ha. induction acts as [|act acts IH]; intros front front2 explore Hincl Hw;
    cbn [bfs_for].
  - intros H. injection H as <-. exact Hw.
  - destruct (child_node problem node act) as [c|] eqn:Hc; [|discriminate].
    assert (Hincl' : incl acts avail) by (intros a Hin; apply Hincl; now right).
    destruct (in_explore State_eq_dec (state c) explore) eqn:Hex; cbn [orb negb].
    + now apply IH.
    + destruct (in_nodes State_eq_dec c front) eqn:Hin; cbn [negb].
      * now apply IH.
      * destruct (goal_test problem (state c)); [discriminate|].
        apply IH; [exact Hincl'|].
        rewrite map_app. cbn [map]. apply waiting_snoc; [exact Hw| | |].
        -- apply (child_reachable problem node c avail act Hr Ha); [|exact Hc].
           apply Hincl. now left.
        -- intros H. apply in_nodes_iff in H. congruence.
        -- now apply (in_explore_false State_eq_dec).
Qed.

Lemma bfs_loop_terminates (fuel : nat) :
  forall (front : list N) (explore : set State),
    waiting problem (map (@state _ _ _) front) explore ->
    List.length U < fuel + List.length explore ->
    bfs_loop State_eq_dec problem fuel front explore <> OutOfFuel.
Proof.
  induction fuel as [|fuel IH]; intros front explore Hw Hfuel.
  - exfalso. exact (waiting_fuel _ _ 0 Hw Hfuel eq_refl).
  - cbn [bfs_loop]. destruct front as [|node front1]; [discriminate|].
    cbn [map] in Hw.
    destruct (waiting_explore [] _ explore (state node) Hw) as [Hw1 Hlen].
    pose proof (waiting_reachable Hw (state node) (or_introl eq_refl)) as Hr.
    destruct (actions problem (state node)) as [acts|] eqn:Ha; [|discriminate].
    destruct (bfs_for State_eq_dec problem node acts front1 _) as [[c|front2]|] eqn:Hs;
      try discriminate.
    apply IH; [|rewrite Hlen; lia].
    exact (bfs_for_waiting node acts Hr Ha acts front1 front2 _ (incl_refl _) Hw1 Hs).
Qed.

Lemma dfs_loop_terminates (fuel : nat) :
  forall (front : list N) (explore : set State),
    waiting problem (map (@state _ _ _) front) explore ->
    List.length U < fuel + List.length explore ->
    dfs_loop State_eq_dec problem fuel front explore <> OutOfFuel.
Proof.
  induction fuel as [|fuel IH]; intros front explore Hw Hfuel.
  - exfalso. exact (waiting_fuel _ _ 0 Hw Hfuel eq_refl).
  - cbn [dfs_loop]. destruct (list_pop front) as [[node front1]|] eqn:Hpop; [|discriminate].
    apply list_pop_snoc in Hpop. subst front. rewrite map_app in Hw. cbn [map] in Hw.
    destruct (waiting_explore _ [] explore (state node) Hw) as [Hw1 Hlen].
    rewrite app_nil_r in Hw1.
    pose proof (waiting_reachable Hw (state node) (in_elt _ _ _)) as Hr.
    destruct (actions problem (state node)) as [acts|] eqn:Ha; [|discriminate].
    rewrite dfs_for_is_bfs_for.
    destruct (bfs_for State_eq_dec problem node acts front1 _) as [[c|front2]|] eqn:Hs;
      try discriminate.
    apply IH; [|rewrite Hlen; lia].
    exact (bfs_for_waiting node acts Hr Ha acts front1 front2 _ (incl_refl _) Hw1 Hs).
Qed.

(** *** Best-first search, for every evaluation function *)

Local Abbreviation states := (map (fun e : E => state (snd e))).

Lemma bfgs_child_waiting (g : N -> option C) (explore : set State)
      (front front' : list E) (c : N) :
  waiting problem (states front) explore -> reach (state c) ->
  bfgs_child State_eq_dec C_ge g explore front c = Some front' ->
  waiting problem (states front') explore.
Proof.
  intros Hw Hr. unfold bfgs_child, pq_append.
  destruct (pq_contains State_eq_dec front c) eqn:Hcont.
  - rewrite orb_true_r. cbn [negb].
    destruct (pq_first_entry State_eq_dec front c Hcont)
      as (pre & e & post & Hfront & Hs & _ & Hget & Hdel).
    destruct (g c) as [gc|]; [|discriminate].
    rewrite Hget, Hdel. destruct (C_ge gc (fst e)); cbn [negb].
    + intros H. injection H as <-. exact Hw.
    + intros H. injection H as <-.
      rewrite Hfront, map_app in Hw. cbn [map] in Hw. rewrite Hs in Hw.
      pose proof (waiting_distinct Hw) as Hnd.
      apply NoDup_remove in Hnd. destruct Hnd as [Hnd Hnotin].
      assert (Hsub : forall x, In x (states pre ++ states post) ->
                               In x (states pre ++ state c :: states post)).
      { intros x Hx. apply in_app_or in Hx. apply in_or_app.
        destruct Hx; [now left|right; now right]. }
      rewrite map_app. cbn [map snd]. apply waiting_snoc.
      * rewrite map_app. constructor.
        -- exact Hnd.
        -- intros x Hx. exact (waiting_fresh Hw x (Hsub x Hx)).
        -- intros x Hx. exact (waiting_reachable Hw x (Hsub x Hx)).
        -- exact (explored_distinct Hw).
        -- exact (explored_reachable Hw).
      * exact Hr.
      * now rewrite map_app.
      * apply (waiting_fresh Hw). apply in_elt.
  - rewrite orb_false_r.
    destruct (in_explore State_eq_dec (state c) explore) eqn:Hex; cbn [negb].
    + intros H. injection H as <-. exact Hw.
    + destruct (g c) as [gc|]; [|discriminate].
      intros H. injection H as <-. rewrite map_app. cbn [map snd].
      apply waiting_snoc; [exact Hw|exact Hr| |].
      * intros H. apply in_map_iff in H. destruct H as (e & Hs & He).
        assert (pq_contains State_eq_dec front c = true)
          by (apply pq_contains_iff; eauto).
        congruence.
      * now apply (in_explore_false State_eq_dec).
Qed.

Lemma bfgs_for_waiting (g : N -> option C) (explore : set State) (cs : list N) :
  forall front front',
    waiting problem (states front) explore -> Forall (fun c => reach (state c)) cs ->
    bfgs_for State_eq_dec C_ge g explore cs front = Some front' ->
    waiting problem (states front') explore.
Proof.
  induction cs as [|c cs IH]; intros front front' Hw Hcs; cbn [bfgs_for].
  - intros H. injection H as <-. exact Hw.
  - inversion Hcs as [|? ? Hc Hcs']; subst.
    destruct (bfgs_child State_eq_dec C_ge g explore front c) as [front1|] eqn:H1;
      [|discriminate].
    apply IH; [|exact Hcs'].
    exact (bfgs_child_waiting g explore front front1 c Hw Hc H1).
Qed.

Lemma bfgs_loop_terminates (g : N -> option C) (fuel : nat) :
  forall (front : list E) (explore : set State),
    waiting problem (states front) explore ->
    List.length U < fuel + List.length explore ->
    bfgs_loop State_eq_dec state_lt is_LEFT C_lt C_ge C_eq problem g fuel front explore
    <> OutOfFuel.
Proof.
  induction fuel as [|fuel IH]; intros front explore Hw Hfuel.
  - exfalso. exact (waiting_fuel _ _ 0 Hw Hfuel eq_refl).
  - cbn [bfgs_loop]. unfold pq_pop.
    destruct (pq_extract_min State_eq_dec state_lt C_lt C_eq front)
      as [[m front1]|] eqn:Hpop; [|discriminate].
    destruct (pq_extract_min_split State_eq_dec state_lt C_lt C_eq front m front1 Hpop)
      as (pre & post & -> & ->).
    cbn [snd]. destruct (goal_test problem (state (snd m))); [discriminate|].
    rewrite map_app in Hw. cbn [map] in Hw.
    destruct (waiting_explore _ _ explore (state (snd m)) Hw) as [Hw1 Hlen].
    rewrite <- map_app in Hw1.
    pose proof (waiting_reachable Hw (state (snd m)) (in_elt _ _ _)) as Hr.
    destruct (expand is_LEFT problem (snd m)) as [cs|] eqn:Hexp; [|discriminate].
    destruct (bfgs_for State_eq_dec C_ge g _ cs (pre ++ post)) as [front2|] eqn:Hfor;
      [|discriminate].
    pose proof (bfgs_for_waiting g _ cs (pre ++ post) front2 Hw1
                  (expand_reachable is_LEFT problem (snd m) cs Hr Hexp) Hfor) as Hw2.
    apply IH; [exact Hw2|rewrite Hlen; lia].
Qed.

(** With more fuel than there are reachable states, no search runs out of
    fuel: it returns, or an exception of the problem ends it. *)
Lemma searches_terminate (C0 : C) (g : option (N -> option C)) (fuel : nat) :
  List.length U < fuel ->
  breadth_first_graph_search State_eq_dec C0 problem fuel <> OutOfFuel
  /\ depth_first_graph_search State_eq_dec C0 problem fuel <> OutOfFuel
  /\ best_first_graph_search State_eq_dec state_lt is_LEFT C0 C_lt C_ge C_eq problem g fuel
     <> OutOfFuel.
Proof.
  intros Hfuel.
  assert (Hw : waiting problem [initial problem] []).
  { constructor.
    - constructor; [intros []|constructor].
    - intros s _ [].
    - intros s [<-|[]]. apply reachable_initial.
    - constructor.
    - intros s []. }
  split; [|split].
  - unfold breadth_first_graph_search.
    destruct (goal_test problem _); [discriminate|].
    apply bfs_loop_terminates; [exact Hw|simpl; lia].
  - unfold depth_first_graph_search.
    destruct (goal_test problem _); [discriminate|].
    apply dfs_loop_terminates; [exact Hw|simpl; lia].
  - unfold best_first_graph_search, pq_append.
    destruct (memoize _ _) as [v|]; [|discriminate].
    apply bfgs_loop_terminates; [exact Hw|simpl; lia].
Qed.

End Termination.

(* ------------------------------------------------------------------ *)
(** ** The theorems at the examples *)

Lemma follow_descends {State Action C : Type} (problem : Problem State Action C)
      (r : Node State Action C) (acts : list Action) :
  forall n m, descends problem r n -> follow problem n acts = Some m ->
              descends problem r m.
Proof.
  induction acts as [|act acts IH]; intros n m Hn; cbn [follow].
  - intros H. injection H as <-. exact Hn.
  - destruct (child_node problem n act) as [c|] eqn:Hc; [|discriminate].
    apply IH. exact (@descends_child _ _ _ problem r n c act Hn Hc).
Qed.

(** In the 3 x 3 room the node reached from [(1,1)] by UP, RIGHT replays
    to its state. *)
Lemma solution_replays_to_state_witness :
  exists (n : Vacuum.VNode) (acts : list Vacuum.Action),
    Examples.walk (Examples.corner_dirty "Step" "BFS") (1, 1)%Z ["UP"; "RIGHT"]%string
    = Some n
    /\ solution n = map Some acts
    /\ List.length acts = depth n
    /\ fold_left (result (Vacuum.as_problem (Examples.corner_dirty "Step" "BFS")))
                 acts (1, 1)%Z
       = state n.
Proof.
  destruct (Examples.walk (Examples.corner_dirty "Step" "BFS") (1, 1)%Z
                          ["UP"; "RIGHT"]%string) as [n|] eqn:Hn;
    [|vm_compute in Hn; discriminate Hn].
  destruct (solution_replays_to_state _ _ _
              (Vacuum.as_problem (Examples.corner_dirty "Step" "BFS"))
              (1, 1)%Z (NInt 0) n) as (acts & H).
  - apply (follow_descends _ _ ["UP"; "RIGHT"]%string (Examples.root (1, 1)%Z));
      [apply descends_root|exact Hn].
  - exists n, acts. split; [reflexivity|exact H].
Defined.

(** The reflex rule in the room with dirt to the left of the agent and
    above it. *)
Lemma reflexAgentSearch_spec_witness :
  exists neighbors : list Vacuum.VNode,
    expand Vacuum.is_LEFT (Vacuum.as_problem Examples.two_dirty_neighbors)
           (Examples.root (1, 1)%Z)
    = Some neighbors
    /\ Vacuum.reflex Examples.two_dirty_neighbors
       = RRet (nth 0 neighbors (Examples.root (1, 1)%Z), None).
Proof.
  destruct (expand Vacuum.is_LEFT (Vacuum.as_problem Examples.two_dirty_neighbors)
                   (Examples.root (1, 1)%Z)) as [neighbors|] eqn:Hexp;
    [|vm_compute in Hexp; discriminate Hexp].
  exists neighbors. split; [reflexivity|].
  destruct (reflexAgentSearch_spec _ _ _ Vacuum.is_LEFT (NInt 0)
              (Vacuum.as_problem Examples.two_dirty_neighbors) neighbors Hexp)
    as (_ & Hfirst & _).
  vm_compute in Hexp. injection Hexp as <-.
  apply (Hfirst [] _ _ eq_refl eq_refl eq_refl).
Defined.

(** An iteration of the two uninformed searches on the root of the room
    with two dirty neighbors. *)
Lemma uninformed_children_in_actions_order_witness :
  exists (acts : list Vacuum.Action) (cs : list Vacuum.VNode),
    actions (Vacuum.as_problem Examples.two_dirty_neighbors) (1, 1)%Z = Some acts
    /\ acts = ["UP"; "DOWN"; "LEFT"; "RIGHT"]%string
    /\ bfs_loop Vacuum.State_eq_dec (Vacuum.as_problem Examples.two_dirty_neighbors)
                1 [Examples.root (1, 1)%Z] []
       = match scan_children Vacuum.State_eq_dec
                             (Vacuum.as_problem Examples.two_dirty_neighbors)
                             cs [] [(1, 1)%Z] with
         | Found c => Returned (Some c, [(1, 1)%Z])
         | Continue front2 =>
             bfs_loop Vacuum.State_eq_dec (Vacuum.as_problem Examples.two_dirty_neighbors)
                      0 front2 [(1, 1)%Z]
         end.
Proof.
  destruct (actions (Vacuum.as_problem Examples.two_dirty_neighbors) (1, 1)%Z)
    as [acts|] eqn:Ha; [|vm_compute in Ha; discriminate Ha].
  destruct (mapM (child_node (Vacuum.as_problem Examples.two_dirty_neighbors)
                             (Examples.root (1, 1)%Z)) acts)
    as [cs|] eqn:Hcs.
  - exists acts, cs. split; [reflexivity|]. split.
    + vm_compute in Ha. now injection Ha as <-.
    + exact (proj1 (proj1 uninformed_children_in_actions_order _ _ _ Vacuum.State_eq_dec
                      (Vacuum.as_problem Examples.two_dirty_neighbors)
                      (Examples.root (1, 1)%Z) acts cs [] [] [] 0 Ha Hcs)).
  - exfalso. vm_compute in Ha. injection Ha as <-. vm_compute in Hcs. discriminate Hcs.
Defined.

(** The explored set of breadth-first search in the room with the dirty
    corner. *)
Lemma explored_set_spec_witness :
  exists (r : option Vacuum.VNode) (explored : set Vacuum.State),
    Vacuum.bfs (Examples.corner_dirty "Step" "BFS") 10 = Returned (r, explored)
    /\ Forall (reachable (Vacuum.as_problem (Examples.corner_dirty "Step" "BFS"))) explored
    /\ NoDup explored.
Proof.
  destruct (Vacuum.bfs (Examples.corner_dirty "Step" "BFS") 10) as [[r explored]| |] eqn:H;
    try (vm_compute in H; discriminate H).
  exists r, explored. split; [reflexivity|].
  destruct (proj1 (explored_set_spec _ _ _ Vacuum.State_eq_dec Vacuum.state_lt
                     Vacuum.is_LEFT (NInt 0) num_lt num_ge num_eq
                     (Vacuum.as_problem (Examples.corner_dirty "Step" "BFS")) None 10)
                  r explored (or_introl H)) as (Hreach & Hnodup & _).
  split; [exact Hreach|exact Hnodup].
Defined.

(* ------------------------------------------------------------------ *)
(** ** Further properties of the code *)

(** *** Nodes: [Node.expand], [Node.path] *)

Section NodeOrder.

Context {State Action C : Type}.
Variable is_LEFT : Action -> bool.
Variable problem : Problem State Action C.

Local Abbreviation Node := (Node State Action C).

Lemma mapM_actions (node : Node) (l : list Action) (cs : list Node) :
  mapM (child_node problem node) l = Some cs -> map action cs = map Some l.
Proof.
  revert cs. induction l as [|a l IH]; intros cs; simpl.
  - intros H. injection H as <-. reflexivity.
  - destruct (child_node problem node a) as [c|] eqn:Ec; [|discriminate].
    destruct (mapM (child_node problem node) l) as [cs'|]; [|discriminate].
    intros H. injection H as <-. simpl.
    destruct (child_node_fields problem _ _ _ Ec) as (_ & _ & Ha & _).
    rewrite Ha, (IH cs' eq_refl). reflexivity.
Qed.

(** X1. [Node.expand] returns one child per action that
    [problem.actions] lists for the state of the node, the children of
    the actions [LEFT] first and then the children of the other actions,
    each group in the order of the list of actions; each child is the
    node [child_node] builds: its state is the result of its action, its
    parent is the node, its depth one more. *)
Theorem expand_puts_LEFT_first (node : Node) (acts : list Action) (cs : list Node) :
  actions problem (state node) = Some acts ->
  expand is_LEFT problem node = Some cs ->
  map action cs
  = map Some (filter is_LEFT acts ++ filter (fun a => negb (is_LEFT a)) acts)
  /\ Forall (fun c => exists act, In act acts
                      /\ action c = Some act
                      /\ state c = result problem (state node) act
                      /\ parent c = Some node
                      /\ depth c = S (depth node)) cs.
Proof.
  intros Ha. unfold expand. rewrite Ha.
  rewrite list_sort_partition. intros Hm. split.
  - exact (mapM_actions _ _ _ Hm).
  - apply Forall_forall. intros c Hc.
    destruct (proj1 (mapM_In _ _ _ Hm) c Hc) as (act & Hin & Hcn).
    destruct (child_node_fields problem _ _ _ Hcn) as (Hs & Hp & Hact & Hd & _).
    exists act. repeat split; try assumption.
    apply in_app_or in Hin. destruct Hin as [Hin|Hin];
      apply filter_In in Hin; tauto.
Qed.

Lemma path_depths (root n : Node) :
  parent root = None -> depth root = 0 -> descends problem root n ->
  hd_error (path n) = Some root
  /\ last (path n) root = n
  /\ map depth (path n) = seq 0 (S (depth n)).
Proof.
  intros Hp Hd Hn. induction Hn as [|n c act Hn IH Hc].
  - unfold path. rewrite path_back_cons, Hp. simpl. rewrite Hd. auto.
  - destruct IH as (Hh & Hl & Hm).
    destruct (child_node_fields problem _ _ _ Hc) as (_ & Hpc & _ & Hdc & _).
    rewrite (path_child _ _ Hpc). split; [|split].
    + destruct (path n) as [|x l]; [discriminate Hh|exact Hh].
    + apply last_last.
    + rewrite map_app, Hm. cbn [map]. rewrite Hdc.
      symmetry. exact (seq_S (S (depth n)) 0).
Qed.

Lemma nth_error_last {A : Type} (l : list A) (d : A) :
  l <> [] -> nth_error l (List.length l - 1) = Some (last l d).
Proof.
  induction l as [|x l IH]; [congruence|]. intros _.
  destruct l as [|y l]; [reflexivity|].
  change (last (x :: y :: l) d) with (last (y :: l) d).
  rewrite <- IH by discriminate. simpl. now rewrite Nat.sub_0_r.
Qed.

Lemma path_links (root n : Node) :
  parent root = None -> depth root = 0 -> descends problem root n ->
  forall (i : nat) (c : Node),
    nth_error (path n) (S i) = Some c -> parent c = nth_error (path n) i.
Proof.
  intros Hp Hd Hn. induction Hn as [|n c act Hn IH Hc]; intros i c' Hi.
  - unfold path in Hi. rewrite path_back_cons, Hp in Hi. simpl in Hi.
    destruct i; discriminate Hi.
  - destruct (child_node_fields problem _ _ _ Hc) as (_ & Hpc & _).
    destruct (path_depths root n Hp Hd Hn) as (_ & Hl & _).
    rewrite (path_child _ _ Hpc) in *.
    destruct (Nat.lt_ge_cases (S i) (List.length (path n))) as [Hlt|Hge].
    + rewrite nth_error_app1 in Hi by exact Hlt.
      rewrite nth_error_app1 by lia. exact (IH i c' Hi).
    + rewrite nth_error_app2 in Hi by exact Hge.
      destruct (S i - List.length (path n)) as [|k] eqn:Ek;
        [|destruct k; discriminate Hi].
      injection Hi as <-.
      rewrite nth_error_app1 by lia.
      replace i with (List.length (path n) - 1) by lia.
      rewrite (nth_error_last (path n) root (path_nonempty n)), Hl. exact Hpc.
Qed.

(** X2. [Node.path] of a node built from a root [Node(state)] by calls
    of [child_node] lists the nodes from the root to the node: it starts
    with the root, ends with the node, holds [depth + 1] nodes, of
    depths 0, 1, ..., and each node after the first has the node before
    it as its parent. *)
Theorem path_runs_from_the_root (s0 : State) (a0 : option Action) (cost0 : C)
        (n : Node) :
  descends problem (Node_init s0 None a0 cost0) n ->
  hd_error (path n) = Some (Node_init s0 None a0 cost0)
  /\ last (path n) (Node_init s0 None a0 cost0) = n
  /\ List.length (path n) = S (depth n)
  /\ map depth (path n) = seq 0 (S (depth n))
  /\ forall (i : nat) (c : Node),
      nth_error (path n) (S i) = Some c -> parent c = nth_error (path n) i.
Proof.
  intros Hn.
  destruct (path_depths (Node_init s0 None a0 cost0) n eq_refl eq_refl Hn)
    as (Hh & Hl & Hm).
  split; [exact Hh|]. split; [exact Hl|]. split; [|split; [exact Hm|]].
  - rewrite <- (length_map depth), Hm. apply length_seq.
  - exact (path_links (Node_init s0 None a0 cost0) n eq_refl eq_refl Hn).
Qed.

End NodeOrder.

(** *** What the graph searches answer *)

Lemma in_app_middle {A : Type} (x m : A) (pre post : list A) :
  In x (pre ++ post) -> In x (pre ++ m :: post).
Proof. rewrite !in_app_iff. simpl. tauto. Qed.

Lemma in_states_moved {State Action C : Type} (s : State)
      (e : entry State Action C) (c : Node State Action C) (v : C)
      (pre post : list (entry State Action C)) :
  state (snd e) = state c ->
  In s (map (@state _ _ _) (map (@snd _ _) (pre ++ e :: post))) ->
  In s (map (@state _ _ _) (map (@snd _ _) ((pre ++ post) ++ [(v, c)]))).
Proof.
  intros Hs. rewrite !map_app. cbn [map snd]. rewrite !in_app_iff. simpl.
  rewrite Hs. tauto.
Qed.

Section SearchAnswers.

Context {State Action C : Type}.
Variable State_eq_dec : forall x y : State, {x = y} + {x <> y}.
Variable state_lt : State -> State -> bool.
Variable is_LEFT : Action -> bool.
Variable C0 : C.
Variables C_lt C_ge C_eq : C -> C -> bool.
Variable problem : Problem State Action C.

Local Abbreviation N := (Node State Action C).
Local Abbreviation E := (entry State Action C).
Local Abbreviation root := (Node_init (initial problem) None None C0).
Local Abbreviation states := (map (@state State Action C)).
Local Abbreviation no_goal := (fun n : N => goal_test problem (state n) = false).

Lemma closed_search_exit (explore : set State) :
  closed_search problem root [] explore ->
  forall s, reachable problem s -> In s explore /\ goal_test problem s = false.
Proof.
  intros Hinv.
  assert (Hin : forall s, reachable problem s -> In s explore).
  { intros s Hs. induction Hs as [|s acts act Hs IH Ha Hact].
    - destruct (initial_seen Hinv) as [H|[]]. exact H.
    - destruct (explored_closed Hinv s acts act IH Ha Hact) as [H|[]]. exact H. }
  intros s Hs. split; [exact (Hin s Hs)|exact (explored_no_goal Hinv s (Hin s Hs))].
Qed.

Lemma closed_search_step (nodes nodes' : list N) (node : N) (explore : set State) :
  closed_search problem root nodes explore ->
  goal_test problem (state node) = false ->
  (forall s, In s (states nodes) -> s = state node \/ In s (states nodes')) ->
  (forall n, In n nodes' -> legal problem root n) ->
  (forall avail act,
      actions problem (state node) = Some avail -> In act avail ->
      In (result problem (state node) act) (explore_add State_eq_dec (state node) explore)
      \/ In (result problem (state node) act) (states nodes')) ->
  closed_search problem root nodes' (explore_add State_eq_dec (state node) explore).
Proof.
  intros Hinv Hng Hst Hleg Hcov.
  assert (Hmove : forall s, In s explore \/ In s (states nodes) ->
                            In s (explore_add State_eq_dec (state node) explore)
                            \/ In s (states nodes')).
  { intros s [H|H].
    - left. apply explore_add_iff. now right.
    - destruct (Hst s H) as [->|H']; [left; apply explore_add_iff; now left|now right]. }
  constructor.
  - exact Hleg.
  - intros s Hs. apply explore_add_iff in Hs. destruct Hs as [->|Hs];
      [exact Hng|exact (explored_no_goal Hinv s Hs)].
  - intros s avail act Hs Ha Hact. apply explore_add_iff in Hs.
    destruct Hs as [->|Hs]; [exact (Hcov avail act Ha Hact)|].
    apply Hmove. exact (explored_closed Hinv s avail act Hs Ha Hact).
  - apply Hmove. exact (initial_seen Hinv).
Qed.

(** The loop over the actions of the uninformed searches. *)
Lemma scan_answer (node : N) (avail : list Action) :
  legal problem root node -> actions problem (state node) = Some avail ->
  forall (acts : list Action) (front : list N) (explore : set State),
    incl acts avail ->
    match bfs_for State_eq_dec problem node acts front explore with
    | Some (Found c) =>
        legal problem root c /\ goal_test problem (state c) = true
        /\ depth c = S (depth node)
    | Some (Continue front2) =>
        (exists new,
            front2 = front ++ new
            /\ Forall (fun c => legal problem root c /\ no_goal c
                                /\ depth c = S (depth node)) new)
        /\ forall act, In act acts ->
                       In (result problem (state node) act) explore
                       \/ In (result problem (state node) act) (states front2)
    | None => exists act, In act acts /\ child_node problem node act = None
    end.
Proof.
  intros Hleg Ha. induction acts as [|act acts IH]; intros front explore Hincl;
    cbn [bfs_for].
  - split; [exists []; rewrite app_nil_r; auto|intros act []].
  - assert (Hact : In act avail) by (apply Hincl; now left).
    assert (Hincl' : incl acts avail) by (intros a Hin; apply Hincl; now right).
    destruct (child_node problem node act) as [c|] eqn:Hc;
      [|exists act; split; [now left|exact Hc]].
    pose proof (@legal_child _ _ _ problem root node c avail act Hleg Ha Hact Hc) as Hlc.
    destruct (child_node_fields problem _ _ _ Hc) as (Hsc & _ & _ & Hdc & _).
    assert (Hlater :
             forall front',
               (In (state c) explore \/ In (state c) (states front')) ->
               match bfs_for State_eq_dec problem node acts front' explore with
               | Some (Found c') =>
                   legal problem root c' /\ goal_test problem (state c') = true
                   /\ depth c' = S (depth node)
               | Some (Continue front2) =>
                   (exists new,
                       front2 = front' ++ new
                       /\ Forall (fun c => legal problem root c /\ no_goal c
                                           /\ depth c = S (depth node)) new)
                   /\ forall a, In a (act :: acts) ->
                                In (result problem (state node) a) explore
                                \/ In (result problem (state node) a) (states front2)
               | None => exists a, In a (act :: acts) /\ child_node problem node a = None
               end).
    { intros front' Hseen. specialize (IH front' explore Hincl').
      destruct (bfs_for State_eq_dec problem node acts front' explore) as [[c'|front2]|].
      - exact IH.
      - destruct IH as ((new & -> & Hnew) & Hcov). split; [exists new; auto|].
        intros a [<-|Hin]; [|exact (Hcov a Hin)].
        rewrite <- Hsc. destruct Hseen as [H|H]; [now left|right].
        rewrite map_app. apply in_or_app. now left.
      - destruct IH as (a & Hin & Hnone). exists a. split; [now right|exact Hnone]. }
    destruct (in_explore State_eq_dec (state c) explore) eqn:Hex; cbn [orb negb].
    { apply Hlater. left. now apply (in_explore_true State_eq_dec). }
    destruct (in_nodes State_eq_dec c front) eqn:Hin; cbn [negb].
    { apply Hlater. right. now apply (in_nodes_iff State_eq_dec). }
    destruct (goal_test problem (state c)) eqn:Hg; [auto|].
    specialize (Hlater (front ++ [c])).
    destruct (bfs_for State_eq_dec problem node acts (front ++ [c]) explore)
      as [[c'|front2]|].
    + apply Hlater. right. rewrite map_app. apply in_or_app. right. now left.
    + destruct Hlater as ((new & -> & Hnew) & Hcov).
      { right. rewrite map_app. apply in_or_app. right. now left. }
      split; [|exact Hcov].
      exists (c :: new). rewrite <- app_assoc. split; [reflexivity|].
      constructor; [auto|exact Hnew].
    + apply Hlater. right. rewrite map_app. apply in_or_app. right. now left.
Qed.

(** One iteration of an uninformed search keeps what the search has
    seen closed. *)
Lemma scan_closed (node : N) (avail : list Action) (front1 front2 old : list N)
      (explore : set State) :
  closed_search problem root old explore ->
  In node old -> incl front1 old ->
  (forall s, In s (states old) -> s = state node \/ In s (states front1)) ->
  Forall no_goal old ->
  actions problem (state node) = Some avail ->
  bfs_for State_eq_dec problem node avail front1
          (explore_add State_eq_dec (state node) explore) = Some (Continue front2) ->
  closed_search problem root front2 (explore_add State_eq_dec (state node) explore)
  /\ Forall no_goal front2.
Proof.
  intros Hinv Hnode Hsub Hst Hng Ha Hscan.
  pose proof (scan_answer node avail (nodes_legal Hinv node Hnode) Ha avail front1
                          (explore_add State_eq_dec (state node) explore)
                          (incl_refl _)) as H.
  rewrite Hscan in H. destruct H as ((new & -> & Hnew) & Hcov).
  split.
  - apply (closed_search_step old); auto.
    + exact (proj1 (Forall_forall _ _) Hng node Hnode).
    + intros s Hs. destruct (Hst s Hs) as [->|H]; [now left|right].
      rewrite map_app. apply in_or_app. now left.
    + intros n Hn. apply in_app_or in Hn. destruct Hn as [Hn|Hn].
      * exact (nodes_legal Hinv n (Hsub n Hn)).
      * exact (proj1 (proj1 (Forall_forall _ _) Hnew n Hn)).
    + intros avail' act Ha' Hact. rewrite Ha in Ha'. injection Ha' as <-.
      exact (Hcov act Hact).
  - apply Forall_app. split.
    + apply Forall_forall. intros n Hn.
      exact (proj1 (Forall_forall _ _) Hng n (Hsub n Hn)).
    + apply Forall_forall. intros n Hn.
      exact (proj1 (proj2 (proj1 (Forall_forall _ _) Hnew n Hn))).
Qed.

Lemma scan_raises (node : N) (avail : list Action) (front : list N) (explore : set State) :
  legal problem root node -> actions problem (state node) = Some avail ->
  bfs_for State_eq_dec problem node avail front explore = None ->
  problem_raises problem root.
Proof.
  intros Hleg Ha Hscan.
  pose proof (scan_answer node avail Hleg Ha avail front explore (incl_refl _)) as H.
  rewrite Hscan in H. destruct H as (act & Hact & Hnone).
  exists node. split; [exact Hleg|]. right. exists avail, act. auto.
Qed.

Lemma scan_found (node c : N) (avail : list Action) (front : list N) (explore : set State) :
  legal problem root node -> actions problem (state node) = Some avail ->
  bfs_for State_eq_dec problem node avail front explore = Some (Found c) ->
  legal problem root c /\ goal_test problem (state c) = true.
Proof.
  intros Hleg Ha Hscan.
  pose proof (scan_answer node avail Hleg Ha avail front explore (incl_refl _)) as H.
  rewrite Hscan in H. destruct H as (H1 & H2 & _). split; assumption.
Qed.

Lemma bfs_loop_answers (fuel : nat) :
  forall (front : list N) (explore : set State),
    closed_search problem root front explore -> Forall no_goal front ->
    answers problem root (bfs_loop State_eq_dec problem fuel front explore).
Proof.
  induction fuel as [|fuel IH]; intros front explore Hinv Hng; cbn [bfs_loop];
    [exact I|].
  destruct front as [|node front1].
  - exact (closed_search_exit explore Hinv).
  - pose proof (nodes_legal Hinv node (or_introl eq_refl)) as Hleg.
    destruct (actions problem (state node)) as [acts|] eqn:Ha;
      [|exists node; split; [exact Hleg|now left]].
    destruct (bfs_for State_eq_dec problem node acts front1 _) as [[c|front2]|] eqn:Hs.
    + exact (scan_found node c acts front1 _ Hleg Ha Hs).
    + destruct (scan_closed node acts front1 front2 (node :: front1) explore Hinv
                            (or_introl eq_refl) (incl_tl _ (incl_refl _))) as [H1 H2];
        auto.
      intros s [<-|Hs']; auto.
    + exact (scan_raises node acts front1 _ Hleg Ha Hs).
Qed.

Lemma dfs_loop_answers (fuel : nat) :
  forall (front : list N) (explore : set State),
    closed_search problem root front explore -> Forall no_goal front ->
    answers problem root (dfs_loop State_eq_dec problem fuel front explore).
Proof.
  induction fuel as [|fuel IH]; intros front explore Hinv Hng; cbn [dfs_loop];
    [exact I|].
  destruct (list_pop front) as [[node front1]|] eqn:Hpop.
  - apply list_pop_snoc in Hpop. subst front.
    assert (Hnode : In node (front1 ++ [node])) by (apply in_or_app; right; now left).
    pose proof (nodes_legal Hinv node Hnode) as Hleg.
    destruct (actions problem (state node)) as [acts|] eqn:Ha;
      [|exists node; split; [exact Hleg|now left]].
    rewrite dfs_for_is_bfs_for.
    destruct (bfs_for State_eq_dec problem node acts front1 _) as [[c|front2]|] eqn:Hs.
    + exact (scan_found node c acts front1 _ Hleg Ha Hs).
    + destruct (scan_closed node acts front1 front2 (front1 ++ [node]) explore Hinv
                            Hnode (incl_appl _ (incl_refl _))) as [H1 H2]; auto.
      intros s Hs'. rewrite map_app in Hs'. apply in_app_or in Hs'.
      destruct Hs' as [Hs'|[<-|[]]]; auto.
    + exact (scan_raises node acts front1 _ Hleg Ha Hs).
  - apply list_pop_none in Hpop. subst front.
    exact (closed_search_exit explore Hinv).
Qed.

(** *** Best-first search *)

Local Abbreviation nodes_of := (map (@snd C N)).

(** The body of the loop of best-first search raises only where [f]
    does: [front[c]] and [del front[c]] are only reached with
    [c in front]. *)
Lemma bfgs_child_total (f : N -> option C) (explore : set State) (front : list E) (c : N) :
  match bfgs_child State_eq_dec C_ge f explore front c with
  | Some front' =>
      (forall e, In e front' -> In e front \/ snd e = c)
      /\ (forall s, In s (states (nodes_of front)) -> In s (states (nodes_of front')))
      /\ (In (state c) explore \/ In (state c) (states (nodes_of front')))
  | None => f c = None
  end.
Proof.
  assert (Hlast : forall (q : list E) (v : C),
             In (state c) (states (nodes_of (q ++ [(v, c)])))).
  { intros q v. rewrite !map_app. apply in_or_app. right. now left. }
  unfold bfgs_child, pq_append.
  destruct (in_explore State_eq_dec (state c) explore) eqn:Hex; cbn [orb negb].
  - apply (in_explore_true State_eq_dec) in Hex.
    destruct (pq_contains State_eq_dec front c) eqn:Hc.
    + destruct (f c) as [v|]; [|reflexivity].
      destruct (pq_first_entry State_eq_dec front c Hc)
        as (pre & e & post & -> & Hs & _ & -> & ->).
      destruct (negb (C_ge v (fst e))); auto.
      split; [|split; [|now left]].
      * intros e' He'. apply in_app_or in He'. destruct He' as [He'|[<-|[]]]; auto.
        left. exact (in_app_middle _ _ _ _ He').
      * intros s. exact (in_states_moved s e c v pre post Hs).
    + auto.
  - destruct (pq_contains State_eq_dec front c) eqn:Hc; cbn [negb].
    + destruct (f c) as [v|]; [|reflexivity].
      destruct (pq_first_entry State_eq_dec front c Hc)
        as (pre & e & post & -> & Hs & _ & -> & ->).
      destruct (negb (C_ge v (fst e))).
      * split; [|split; [|right; apply Hlast]].
        -- intros e' He'. apply in_app_or in He'. destruct He' as [He'|[<-|[]]]; auto.
           left. exact (in_app_middle _ _ _ _ He').
        -- intros s. exact (in_states_moved s e c v pre post Hs).
      * split; [auto|]. split; [auto|]. right.
        rewrite !map_app. cbn [map]. rewrite Hs. apply in_or_app. right. now left.
    + destruct (f c) as [v|]; [|reflexivity].
      split; [|split; [|right; apply Hlast]].
      * intros e' He'. apply in_app_or in He'. destruct He' as [He'|[<-|[]]]; auto.
      * intros s Hs. rewrite !map_app. apply in_or_app. now left.
Qed.

Lemma bfgs_for_total (f : N -> option C) (explore : set State) (cs : list N) :
  forall front : list E,
    match bfgs_for State_eq_dec C_ge f explore cs front with
    | Some front' =>
        (forall e, In e front' -> In e front \/ In (snd e) cs)
        /\ (forall s, In s (states (nodes_of front)) -> In s (states (nodes_of front')))
        /\ (forall c, In c cs ->
                      In (state c) explore \/ In (state c) (states (nodes_of front')))
    | None => exists c, In c cs /\ f c = None
    end.
Proof.
  induction cs as [|c cs IH]; intros front; cbn [bfgs_for].
  - split; [auto|]. split; [auto|]. intros c [].
  - pose proof (bfgs_child_total f explore front c) as H1.
    destruct (bfgs_child State_eq_dec C_ge f explore front c) as [front1|];
      [|exists c; split; [now left|exact H1]].
    destruct H1 as (He1 & Hs1 & Hc1).
    specialize (IH front1).
    destruct (bfgs_for State_eq_dec C_ge f explore cs front1) as [front'|].
    + destruct IH as (He & Hs & Hc). split; [|split].
      * intros e Hin. destruct (He e Hin) as [H|H]; [|right; now right].
        destruct (He1 e H) as [H'|H']; [now left|right; now left].
      * auto.
      * intros c' [<-|Hin]; [|exact (Hc c' Hin)].
        destruct Hc1 as [H|H]; [now left|right; exact (Hs _ H)].
    + destruct IH as (c' & Hin & Hnone). exists c'. split; [now right|exact Hnone].
Qed.

Lemma mapM_none {X Y : Type} (g : X -> option Y) (l : list X) :
  mapM g l = None -> exists x, In x l /\ g x = None.
Proof.
  induction l as [|x l IH]; simpl; [discriminate|].
  destruct (g x) as [y|] eqn:Hx; [|intros _; exists x; auto].
  destruct (mapM g l) as [ys|]; [discriminate|].
  intros _. destruct (IH eq_refl) as (x' & Hin & Hn). exists x'. auto.
Qed.

Lemma bfgs_loop_answers (f : N -> option C) (fuel : nat) :
  forall (front : list E) (explore : set State),
    closed_search problem root (nodes_of front) explore ->
    answers_with problem root f
            (bfgs_loop State_eq_dec state_lt is_LEFT C_lt C_ge C_eq problem f fuel
                       front explore).
Proof.
  induction fuel as [|fuel IH]; intros front explore Hinv; cbn [bfgs_loop]; [exact I|].
  unfold pq_pop.
  destruct (pq_extract_min State_eq_dec state_lt C_lt C_eq front)
    as [[m front1]|] eqn:Hpop.
  - destruct (pq_extract_min_split State_eq_dec state_lt C_lt C_eq front m front1 Hpop)
      as (pre & post & -> & ->).
    cbn [snd].
    assert (Hm : In (snd m) (nodes_of (pre ++ m :: post))).
    { apply in_map. apply in_elt. }
    pose proof (nodes_legal Hinv (snd m) Hm) as Hleg.
    destruct (goal_test problem (state (snd m))) eqn:Hg; [split; [exact Hleg|exact Hg]|].
    unfold expand.
    destruct (actions problem (state (snd m))) as [avail|] eqn:Ha;
      [|left; exists (snd m); split; [exact Hleg|now left]].
    destruct (mapM (child_node problem (snd m)) _) as [cs|] eqn:Hcs.
    + destruct (mapM_In _ _ cs Hcs) as [Hback Hforth].
      assert (Hchildren : forall c, In c cs -> legal problem root c).
      { intros c Hin. destruct (Hback _ Hin) as (act & Hact & Hchild).
        apply (proj1 (list_sort_In is_LEFT avail act)) in Hact.
        exact (@legal_child _ _ _ problem root (snd m) c avail act
                            Hleg Ha Hact Hchild). }
      pose proof (bfgs_for_total f (explore_add State_eq_dec (state (snd m)) explore)
                                 cs (pre ++ post)) as Hfor.
      destruct (bfgs_for State_eq_dec C_ge f _ cs (pre ++ post)) as [front2|];
        [|destruct Hfor as (c & Hin & Hnone); right; exists c; split;
          [exact (Hchildren c Hin)|exact Hnone]].
      destruct Hfor as (He & Hs & Hc).
      apply IH. apply (closed_search_step (nodes_of (pre ++ m :: post))); auto.
      * intros s. rewrite !map_app. cbn [map]. rewrite in_app_iff. simpl.
        intros [H|[H|H]]; [right|now left|right]; apply Hs;
          rewrite !map_app; apply in_or_app; auto.
      * intros n Hn. apply in_map_iff in Hn. destruct Hn as (e & <- & Hin).
        destruct (He e Hin) as [H|H].
        -- apply (nodes_legal Hinv). apply in_map.
           exact (in_app_middle _ _ _ _ H).
        -- exact (Hchildren _ H).
      * intros avail' act Ha' Hact. rewrite Ha in Ha'. injection Ha' as <-.
        destruct (Hforth act (proj2 (list_sort_In is_LEFT avail act) Hact))
          as (c & Hin & Hchild).
        destruct (child_node_fields problem _ _ _ Hchild) as (<- & _).
        exact (Hc c Hin).
    + destruct (mapM_none _ _ Hcs) as (act & Hact & Hnone).
      apply (proj1 (list_sort_In is_LEFT avail act)) in Hact.
      left. exists (snd m). split; [exact Hleg|]. right. exists avail, act. auto.
  - apply pq_extract_min_none in Hpop. subst front.
    exact (closed_search_exit explore Hinv).
Qed.

Lemma closed_search_initial :
  closed_search problem root [root] [].
Proof.
  constructor.
  - intros n [<-|[]]. apply legal_root.
  - intros s [].
  - intros s avail act [].
  - right. now left.
Qed.

Lemma uninformed_answers (fuel : nat) :
  answers problem root (breadth_first_graph_search State_eq_dec C0 problem fuel)
  /\ answers problem root (depth_first_graph_search State_eq_dec C0 problem fuel).
Proof.
  unfold breadth_first_graph_search, depth_first_graph_search. cbn [state Node_init].
  destruct (goal_test problem (initial problem)) eqn:Hg.
  - split; (split; [apply legal_root|exact Hg]).
  - split; [apply bfs_loop_answers|apply dfs_loop_answers];
      try exact closed_search_initial; constructor; auto.
Qed.

Local Abbreviation evaluation f :=
  (match f with Some g => g | None => fun n : N => Some (h problem n) end).

Lemma best_first_answers (f : option (N -> option C)) (fuel : nat) :
  answers_with problem root (evaluation f)
          (best_first_graph_search State_eq_dec state_lt is_LEFT C0 C_lt C_ge C_eq
                                   problem f fuel).
Proof.
  unfold best_first_graph_search, pq_append, memoize.
  destruct (evaluation f root) as [v|] eqn:Hv.
  - apply bfgs_loop_answers. exact closed_search_initial.
  - right. exists root. split; [apply legal_root|exact Hv].
Qed.

(** X3. A node that breadth-first, depth-first or best-first graph
    search returns (whatever the function [f], so also the node of
    uniform-cost, greedy and A* search) is a solution: it was built from
    the root at the initial state by [child_node] along actions that
    [problem.actions] lists for the state they are taken in, and its
    state passes [goal_test]. *)
Theorem returned_node_is_a_solution (f : option (N -> option C)) (fuel : nat) (n : N)
        (explored : set State) :
  breadth_first_graph_search State_eq_dec C0 problem fuel = Returned (Some n, explored)
  \/ depth_first_graph_search State_eq_dec C0 problem fuel = Returned (Some n, explored)
  \/ best_first_graph_search State_eq_dec state_lt is_LEFT C0 C_lt C_ge C_eq problem f fuel
     = Returned (Some n, explored) ->
  legal problem root n /\ goal_test problem (state n) = true.
Proof.
  destruct (uninformed_answers fuel) as [Hb Hd].
  pose proof (best_first_answers f fuel) as Hf.
  intros [H|[H|H]]; [rewrite H in Hb|rewrite H in Hd|rewrite H in Hf]; assumption.
Qed.

(** X4. When one of the graph searches returns no node, no state that
    can be reached from the initial state is a goal, and the explored set
    it returns holds every reachable state. *)
Theorem no_node_means_no_reachable_goal (f : option (N -> option C)) (fuel : nat)
        (explored : set State) :
  breadth_first_graph_search State_eq_dec C0 problem fuel = Returned (None, explored)
  \/ depth_first_graph_search State_eq_dec C0 problem fuel = Returned (None, explored)
  \/ best_first_graph_search State_eq_dec state_lt is_LEFT C0 C_lt C_ge C_eq problem f fuel
     = Returned (None, explored) ->
  forall s, reachable problem s -> In s explored /\ goal_test problem s = false.
Proof.
  destruct (uninformed_answers fuel) as [Hb Hd].
  pose proof (best_first_answers f fuel) as Hf.
  intros [H|[H|H]]; [rewrite H in Hb|rewrite H in Hd|rewrite H in Hf]; assumption.
Qed.

(** X5. The graph searches raise no exception of their own: when one
    ends with an exception, [problem.actions] raised at the state of a
    node on a path from the root, or [problem.path_cost] raised for one
    of the actions of that state, or, in a best-first search, the
    evaluation function [f] raised on a node of such a path.  In
    particular [front[child]] and [del front[child]] of best-first search
    never raise [KeyError]. *)
Theorem searches_raise_only_with_the_problem (f : option (N -> option C)) (fuel : nat) :
  breadth_first_graph_search State_eq_dec C0 problem fuel = Raised
  \/ depth_first_graph_search State_eq_dec C0 problem fuel = Raised
  \/ best_first_graph_search State_eq_dec state_lt is_LEFT C0 C_lt C_ge C_eq problem f fuel
     = Raised ->
  (exists n : N,
      legal problem root n
      /\ (actions problem (state n) = None
          \/ exists avail act,
              actions problem (state n) = Some avail /\ In act avail
              /\ problem_path_cost problem n (state n) act (result problem (state n) act)
                 = None))
  \/ (best_first_graph_search State_eq_dec state_lt is_LEFT C0 C_lt C_ge C_eq problem f fuel
      = Raised
      /\ exists n : N,
          legal problem root n
          /\ match f with Some g => g | None => fun n => Some (h problem n) end n = None).
Proof.
  assert (Hraise : problem_raises problem root ->
                   exists n : N,
                     legal problem root n
                     /\ (actions problem (state n) = None
                         \/ exists avail act,
                             actions problem (state n) = Some avail /\ In act avail
                             /\ problem_path_cost problem n (state n) act
                                                  (result problem (state n) act)
                                = None)).
  { intros (n & Hleg & [Ha|(avail & act & Ha & Hact & Hc)]); exists n;
      (split; [exact Hleg|]); [now left|right].
    exists avail, act. split; [exact Ha|]. split; [exact Hact|].
    unfold child_node in Hc.
    destruct (problem_path_cost problem n (state n) act (result problem (state n) act));
      [discriminate|reflexivity]. }
  destruct (uninformed_answers fuel) as [Hb Hd].
  pose proof (best_first_answers f fuel) as Hf.
  intros [H|[H|H]]; [rewrite H in Hb|rewrite H in Hd|rewrite H in Hf].
  - left. now apply Hraise.
  - left. now apply Hraise.
  - destruct Hf as [Hf|Hf]; [left; now apply Hraise|right; split; [exact H|exact Hf]].
Qed.

(** *** The reflex rule without neighbors *)

Lemma mapM_nil {X Y : Type} (g : X -> option Y) (l : list X) :
  mapM g l = Some [] -> l = [].
Proof.
  destruct l as [|x l]; [reflexivity|]. simpl.
  destruct (g x); [|discriminate]. destruct (mapM g l); discriminate.
Qed.

(** X6. [reflexAgentSearch] raises in three cases only: [problem.actions]
    raises at the current state, [problem.path_cost] raises for one of
    its actions, or the state has no action at all, where
    [random.choice] raises [IndexError] on the empty list of neighbors. *)
Theorem reflexAgentSearch_raises_without_neighbors :
  reflexAgentSearch is_LEFT C0 problem = RRaise
  <-> actions problem (problem_state problem) = None
      \/ (exists avail act,
             actions problem (problem_state problem) = Some avail /\ In act avail
             /\ child_node problem (Node_init (problem_state problem) None None C0) act
                = None)
      \/ actions problem (problem_state problem) = Some [].
Proof.
  unfold reflexAgentSearch, expand.
  set (node := Node_init (problem_state problem) None None C0).
  change (state node) with (problem_state problem).
  destruct (actions problem (problem_state problem)) as [avail|] eqn:Ha;
    [|split; auto].
  destruct (mapM (child_node problem node) _) as [cs|] eqn:Hcs.
  - destruct cs as [|c cs].
    + apply mapM_nil in Hcs. split; [intros _|reflexivity].
      right. right. f_equal. destruct avail as [|a avail]; [reflexivity|].
      exfalso. assert (Hin : In a []); [|exact Hin].
      rewrite <- Hcs. apply (list_sort_In is_LEFT). now left.
    + split.
      * destruct (find _ (c :: cs)); discriminate.
      * intros [H|[(avail' & act & H & Hact & Hnone)|H]]; [discriminate H| |].
        -- injection H as <-.
           destruct (proj2 (mapM_In _ _ _ Hcs) act
                           (proj2 (list_sort_In is_LEFT avail act) Hact))
             as (c' & _ & Hc'). congruence.
        -- injection H as ->. discriminate Hcs.
  - split; [intros _|reflexivity]. right. left.
    destruct (mapM_none _ _ Hcs) as (act & Hact & Hnone).
    exists avail, act. split; [reflexivity|]. split; [|exact Hnone].
    exact (proj1 (list_sort_In is_LEFT avail act) Hact).
Qed.

End SearchAnswers.

(** *** The searches stop, and find a goal that can be reached *)

Section SearchStops.

Context {State Action C : Type}.
Variable State_eq_dec : forall x y : State, {x = y} + {x <> y}.
Variable state_lt : State -> State -> bool.
Variable is_LEFT : Action -> bool.
Variable C0 : C.
Variables C_lt C_ge C_eq : C -> C -> bool.
Variable problem : Problem State Action C.

Local Abbreviation N := (Node State Action C).
Local Abbreviation E := (entry State Action C).
Local Abbreviation root := (Node_init (initial problem) None None C0).

(** Fuel that is enough stays enough, for the same outcome. *)
Lemma bfs_loop_more_fuel (fuel : nat) :
  forall (more : nat) (front : list N) (explore : set State),
    bfs_loop State_eq_dec problem fuel front explore <> OutOfFuel ->
    bfs_loop State_eq_dec problem (fuel + more) front explore
    = bfs_loop State_eq_dec problem fuel front explore.
Proof.
  induction fuel as [|fuel IH]; intros more front explore; cbn [bfs_loop Nat.add];
    [congruence|].
  destruct front as [|node front1]; [reflexivity|].
  destruct (actions problem (state node)) as [acts|]; [|reflexivity].
  destruct (bfs_for State_eq_dec problem node acts front1 _) as [[c|front2]|];
    try reflexivity.
  apply IH.
Qed.

Lemma dfs_loop_more_fuel (fuel : nat) :
  forall (more : nat) (front : list N) (explore : set State),
    dfs_loop State_eq_dec problem fuel front explore <> OutOfFuel ->
    dfs_loop State_eq_dec problem (fuel + more) front explore
    = dfs_loop State_eq_dec problem fuel front explore.
Proof.
  induction fuel as [|fuel IH]; intros more front explore; cbn [dfs_loop Nat.add];
    [congruence|].
  destruct (list_pop front) as [[node front1]|]; [|reflexivity].
  destruct (actions problem (state node)) as [acts|]; [|reflexivity].
  destruct (dfs_for State_eq_dec problem node acts front1 _) as [[c|front2]|];
    try reflexivity.
  apply IH.
Qed.

Lemma bfgs_loop_more_fuel (f : N -> option C) (fuel : nat) :
  forall (more : nat) (front : list E) (explore : set State),
    bfgs_loop State_eq_dec state_lt is_LEFT C_lt C_ge C_eq problem f fuel front explore
    <> OutOfFuel ->
    bfgs_loop State_eq_dec state_lt is_LEFT C_lt C_ge C_eq problem f (fuel + more)
              front explore
    = bfgs_loop State_eq_dec state_lt is_LEFT C_lt C_ge C_eq problem f fuel front explore.
Proof.
  induction fuel as [|fuel IH]; intros more front explore; cbn [bfgs_loop Nat.add];
    [congruence|].
  destruct (pq_pop State_eq_dec state_lt C_lt C_eq front) as [[node front1]|];
    [|reflexivity].
  destruct (goal_test problem (state node)); [reflexivity|].
  destruct (expand is_LEFT problem node) as [cs|]; [|reflexivity].
  destruct (bfgs_for State_eq_dec C_ge f _ cs front1) as [front2|]; [|reflexivity].
  apply IH.
Qed.

Variable U : list State.
Hypothesis U_covers : forall s, reachable problem s -> In s U.

(** X7. The loops of the graph searches end: when the states that can
    be reached from the initial state are finitely many, each search
    returns or ends with an exception after at most as many iterations
    as there are such states; with more iterations allowed than that the
    outcome is always the same. *)
Theorem searches_stop (f : option (N -> option C)) (fuel fuel' : nat) :
  List.length U < fuel -> fuel <= fuel' ->
  (breadth_first_graph_search State_eq_dec C0 problem fuel <> OutOfFuel
   /\ breadth_first_graph_search State_eq_dec C0 problem fuel'
      = breadth_first_graph_search State_eq_dec C0 problem fuel)
  /\ (depth_first_graph_search State_eq_dec C0 problem fuel <> OutOfFuel
      /\ depth_first_graph_search State_eq_dec C0 problem fuel'
         = depth_first_graph_search State_eq_dec C0 problem fuel)
  /\ (best_first_graph_search State_eq_dec state_lt is_LEFT C0 C_lt C_ge C_eq problem f fuel
      <> OutOfFuel
      /\ best_first_graph_search State_eq_dec state_lt is_LEFT C0 C_lt C_ge C_eq problem f
                                 fuel'
         = best_first_graph_search State_eq_dec state_lt is_LEFT C0 C_lt C_ge C_eq problem
                                   f fuel).
Proof.
  intros Hfuel Hle.
  destruct (searches_terminate State_eq_dec state_lt is_LEFT C_lt C_ge C_eq problem U
                               U_covers C0 f fuel Hfuel) as (Hb & Hd & Hf).
  replace fuel' with (fuel + (fuel' - fuel)) by lia.
  split; [|split]; (split; [assumption|]).
  - unfold breadth_first_graph_search in *.
    destruct (goal_test problem _); [reflexivity|]. now apply bfs_loop_more_fuel.
  - unfold depth_first_graph_search in *.
    destruct (goal_test problem _); [reflexivity|]. now apply dfs_loop_more_fuel.
  - unfold best_first_graph_search in *.
    destruct (pq_append _ _ _) as [front|]; [|reflexivity].
    now apply bfgs_loop_more_fuel.
Qed.

(** X8. On a problem with finitely many reachable states, whose methods
    [actions] and [path_cost] raise nowhere on a path from the root, and
    with a goal among the reachable states, breadth-first, depth-first and
    best-first graph search (whatever [f], as long as it raises on no
    node of a path from the root) each return a solution: a node at a
    goal state, built from the root along legal actions. *)
Theorem searches_find_a_reachable_goal (f : option (N -> option C)) (fuel : nat)
        (goal : State) :
  List.length U < fuel ->
  ~ problem_raises problem root ->
  reachable problem goal -> goal_test problem goal = true ->
  (exists n explored,
      breadth_first_graph_search State_eq_dec C0 problem fuel = Returned (Some n, explored)
      /\ legal problem root n /\ goal_test problem (state n) = true)
  /\ (exists n explored,
         depth_first_graph_search State_eq_dec C0 problem fuel = Returned (Some n, explored)
         /\ legal problem root n /\ goal_test problem (state n) = true)
  /\ ((forall n, legal problem root n ->
                 match f with Some g => g | None => fun n => Some (h problem n) end n
                 <> None) ->
      exists n explored,
        best_first_graph_search State_eq_dec state_lt is_LEFT C0 C_lt C_ge C_eq problem
                                f fuel
        = Returned (Some n, explored)
        /\ legal problem root n /\ goal_test problem (state n) = true).
Proof.
  intros Hfuel Hno Hreach Hgoal.
  destruct (searches_terminate State_eq_dec state_lt is_LEFT C_lt C_ge C_eq problem U
                               U_covers C0 f fuel Hfuel) as (Hb & Hd & Hf).
  destruct (uninformed_answers State_eq_dec C0 problem fuel) as [Ab Ad].
  pose proof (best_first_answers State_eq_dec state_lt is_LEFT C0 C_lt C_ge C_eq
                                 problem f fuel) as Af.
  assert (Hsolve :
           forall o : outcome (option N * set State),
             o <> OutOfFuel -> answers problem root o ->
             exists n explored,
               o = Returned (Some n, explored)
               /\ legal problem root n /\ goal_test problem (state n) = true).
  { intros [[[n|] explored]| |] Ho Ha; cbn [answers] in Ha.
    - exists n, explored. auto.
    - destruct (Ha goal Hreach) as [_ H]. congruence.
    - contradiction.
    - congruence. }
  split; [|split]; [now apply Hsolve|now apply Hsolve|].
  intros Hf'. apply Hsolve; [assumption|].
  destruct (best_first_graph_search _ _ _ _ _ _ _ _ _ _) as [[[n|] explored]| |];
    cbn [answers_with answers] in *; auto.
  destruct Af as [Af|(n & Hn & Hnone)]; [exact Af|].
  exfalso. exact (Hf' n Hn Hnone).
Qed.

End SearchStops.

(** *** Breadth-first search returns a shallowest goal *)

Section BreadthFirstShortest.

Context {State Action C : Type}.
Variable State_eq_dec : forall x y : State, {x = y} + {x <> y}.
Variable C0 : C.
Variable problem : Problem State Action C.

Local Abbreviation N := (Node State Action C).
Local Abbreviation root := (Node_init (initial problem) None None C0).
Local Abbreviation states := (map (@state State Action C)).

(** A path to a state that is not explored passes through the frontier. *)
Lemma bfs_bound (front : list N) (explore : set State) (m : N) :
  bfs_invariant problem root front explore ->
  legal problem root m -> ~ In (state m) explore ->
  shallow front (state m) (depth m) \/ exists n', In n' front /\ depth n' < depth m.
Proof.
  intros Hinv Hm. induction Hm as [|n c avail act Hn IH Ha Hact Hc]; intros Hnot.
  - destruct (bfs_initial Hinv) as [H|H]; [contradiction|now left].
  - destruct (child_node_fields problem _ _ _ Hc) as (Hsc & _ & _ & Hdc & _).
    destruct (in_dec State_eq_dec (state n) explore) as [Hin|Hnin].
    + destruct (bfs_explored Hinv (state n) Hin) as (_ & d & Hd & Hcov).
      destruct (Hcov avail act Ha Hact) as [H|(n' & Hn' & Hs & Hle)].
      * rewrite <- Hsc in H. contradiction.
      * left. exists n'. split; [exact Hn'|]. split; [congruence|].
        specialize (Hd n Hn eq_refl). lia.
    + right. destruct (IH Hnin) as [(n' & Hn' & _ & Hle)|(n' & Hn' & Hlt)];
        exists n'; split; auto; lia.
Qed.

Lemma layered_head (node : N) (front1 : list N) (d : nat) :
  layered (node :: front1) d ->
  layered front1 (depth node)
  /\ forall n, In n (node :: front1) -> depth node <= depth n <= S (depth node).
Proof.
  intros (A & B & Heq & HA & HB). destruct A as [|a A].
  - simpl in Heq. subst B. inversion HB as [|? ? Hd HB']; subst. split.
    + exists front1, []. rewrite app_nil_r. rewrite Hd. auto.
    + intros n [<-|Hn]; [lia|].
      pose proof (proj1 (Forall_forall _ _) HB' n Hn) as H. simpl in H. lia.
  - injection Heq as <- ->. inversion HA as [|? ? Hd HA']; subst. split.
    + exists A, B. auto.
    + intros n [<-|Hn]; [lia|]. apply in_app_or in Hn. destruct Hn as [Hn|Hn].
      * pose proof (proj1 (Forall_forall _ _) HA' n Hn) as H. simpl in H. lia.
      * pose proof (proj1 (Forall_forall _ _) HB n Hn) as H. simpl in H. lia.
Qed.

Lemma bfs_invariant_step (node : N) (avail : list Action) (front1 front2 : list N)
      (explore : set State) :
  bfs_invariant problem root (node :: front1) explore ->
  actions problem (state node) = Some avail ->
  bfs_for State_eq_dec problem node avail front1
          (explore_add State_eq_dec (state node) explore) = Some (Continue front2) ->
  bfs_invariant problem root front2 (explore_add State_eq_dec (state node) explore).
Proof.
  intros Hinv Ha Hscan.
  destruct (bfs_legal Hinv node (or_introl eq_refl)) as [Hleg Hng].
  destruct (bfs_layers Hinv) as (d0 & Hlay).
  destruct (layered_head node front1 d0 Hlay) as [Hlay1 Hdepth].
  pose proof (scan_answer State_eq_dec C0 problem node avail Hleg Ha avail front1
                          (explore_add State_eq_dec (state node) explore)
                          (incl_refl _)) as H.
  rewrite Hscan in H. destruct H as ((new & -> & Hnew) & Hcov).
  assert (Hsub : forall n, In n front1 -> In n (front1 ++ new))
    by (intros n Hn; apply in_or_app; now left).
  assert (Hdeep : forall n, In n (front1 ++ new) -> depth n <= S (depth node)).
  { intros n Hn. apply in_app_or in Hn. destruct Hn as [Hn|Hn].
    - apply Hdepth. now right.
    - destruct (proj1 (Forall_forall _ _) Hnew n Hn) as (_ & _ & ->). lia. }
  assert (Hmove : forall s k,
             In s explore \/ shallow (node :: front1) s k ->
             In s (explore_add State_eq_dec (state node) explore)
             \/ shallow (front1 ++ new) s k).
  { intros s k [H|(n & [<-|Hn] & Hs & Hle)].
    - left. apply explore_add_iff. now right.
    - left. apply explore_add_iff. now left.
    - right. exists n. auto. }
  constructor.
  - intros n Hn. apply in_app_or in Hn. destruct Hn as [Hn|Hn].
    + apply (bfs_legal Hinv). now right.
    + destruct (proj1 (Forall_forall _ _) Hnew n Hn) as (H1 & H2 & _). auto.
  - exists (depth node). destruct Hlay1 as (A & B & -> & HA & HB).
    exists A, (B ++ new). rewrite app_assoc. split; [reflexivity|]. split; [exact HA|].
    apply Forall_app. split; [exact HB|].
    apply Forall_forall. intros n Hn.
    exact (proj2 (proj2 (proj1 (Forall_forall _ _) Hnew n Hn))).
  - intros s Hs.
    destruct (in_dec State_eq_dec s explore) as [Hold|Hnew'].
    + destruct (bfs_explored Hinv s Hold) as (Hg & d & Hd & Hc).
      split; [exact Hg|]. exists d. split; [exact Hd|].
      intros avail' act Ha' Hact. apply Hmove. exact (Hc avail' act Ha' Hact).
    + apply explore_add_iff in Hs. destruct Hs as [->|Hs]; [|contradiction].
      split; [exact Hng|]. exists (depth node). split.
      * intros n Hn Hsn. rewrite <- Hsn in Hnew'.
        destruct (bfs_bound _ explore n Hinv Hn Hnew')
          as [(n' & Hn' & _ & Hle)|(n' & Hn' & Hlt)];
          pose proof (proj1 (Hdepth n' Hn')); lia.
      * intros avail' act Ha' Hact. rewrite Ha in Ha'. injection Ha' as <-.
        destruct (Hcov act Hact) as [H|H]; [now left|right].
        apply in_map_iff in H. destruct H as (n' & Hs' & Hn').
        exists n'. auto.
  - apply Hmove. exact (bfs_initial Hinv).
Qed.

Lemma bfs_loop_shallowest (fuel : nat) :
  forall (front : list N) (explore : set State) (n : N) (explored : set State),
    bfs_invariant problem root front explore ->
    bfs_loop State_eq_dec problem fuel front explore = Returned (Some n, explored) ->
    forall m, legal problem root m -> goal_test problem (state m) = true ->
              depth n <= depth m.
Proof.
  induction fuel as [|fuel IH]; intros front explore n explored Hinv; cbn [bfs_loop];
    [discriminate|].
  destruct front as [|node front1]; [discriminate|].
  destruct (actions problem (state node)) as [acts|] eqn:Ha; [|discriminate].
  destruct (bfs_for State_eq_dec problem node acts front1 _) as [[c|front2]|] eqn:Hs;
    [| |discriminate].
  - intros H m Hm Hg. injection H as <- <-.
    destruct (bfs_legal Hinv node (or_introl eq_refl)) as [Hleg _].
    pose proof (scan_answer State_eq_dec C0 problem node acts Hleg Ha acts front1
                            (explore_add State_eq_dec (state node) explore)
                            (incl_refl _)) as H.
    rewrite Hs in H. destruct H as (_ & _ & Hdc).
    destruct (bfs_layers Hinv) as (d0 & Hlay).
    destruct (layered_head node front1 d0 Hlay) as [_ Hdepth].
    assert (Hnot : ~ In (state m) explore).
    { intros Hin. destruct (bfs_explored Hinv _ Hin) as (Hng & _). congruence. }
    destruct (bfs_bound _ explore m Hinv Hm Hnot)
      as [(n' & Hn' & Hsn & _)|(n' & Hn' & Hlt)].
    + destruct (bfs_legal Hinv n' Hn') as [_ Hng]. congruence.
    + pose proof (proj1 (Hdepth n' Hn')). lia.
  - apply IH. exact (bfs_invariant_step node acts front1 front2 explore Hinv Ha Hs).
Qed.

Lemma solution_length (n : N) :
  legal problem root n -> List.length (solution n) = depth n.
Proof.
  intros Hn. induction Hn as [|n c avail act Hn IH Ha Hact Hc]; [reflexivity|].
  destruct (child_node_fields problem _ _ _ Hc) as (_ & Hp & _ & Hd & _).
  rewrite (solution_child _ _ Hp), length_app, IH, Hd. simpl. lia.
Qed.

(** X9. Breadth-first graph search returns a shortest solution: no path
    from the initial state along legal actions to a goal state has fewer
    actions than the solution of the node it returns. *)
Theorem breadth_first_search_returns_a_shortest_solution (fuel : nat) (n : N)
        (explored : set State) :
  breadth_first_graph_search State_eq_dec C0 problem fuel = Returned (Some n, explored) ->
  forall m : N,
    legal problem root m -> goal_test problem (state m) = true ->
    depth n <= depth m
    /\ List.length (solution n) <= List.length (solution m).
Proof.
  unfold breadth_first_graph_search. cbn [state Node_init].
  intros H m Hm Hg.
  assert (Hd : depth n <= depth m /\ legal problem root n).
  { destruct (goal_test problem (initial problem)) eqn:Hg0.
    - injection H as <- <-. split; [simpl; lia|apply legal_root].
    - assert (Hinv : bfs_invariant problem root [root] []).
      { constructor.
        - intros x [<-|[]]. split; [apply legal_root|exact Hg0].
        - exists 0, [root], []. repeat split; auto.
        - intros s [].
        - right. exists root. simpl. auto. }
      split; [exact (bfs_loop_shallowest fuel [root] [] n explored Hinv H m Hm Hg)|].
      pose proof (bfs_loop_answers State_eq_dec C0 problem fuel [root] []
                    (closed_search_initial C0 problem)) as Hans.
      rewrite H in Hans. apply Hans. constructor; auto. }
  destruct Hd as [Hd Hn]. split; [exact Hd|].
  now rewrite (solution_length n Hn), (solution_length m Hm).
Qed.

End BreadthFirstShortest.

(** *** The actions of the vacuum problem *)

Section VacuumActions.

Import Vacuum.
Local Open Scope string_scope.
Local Open Scope Z_scope.

Lemma remove_each_app (ds ds' : list Action) :
  forall l, Moves.remove_each (ds ++ ds') l
            = (l1 <- Moves.remove_each ds l ;; Moves.remove_each ds' l1).
Proof.
  induction ds as [|d ds IH]; intros l; simpl; [reflexivity|].
  destruct (list_remove String.eqb d l) as [l1|]; [apply IH|reflexivity].
Qed.

Lemma actions_slot_removes (s : State) (slot : Thing) (l : list Action) :
  actions_slot s slot l = Moves.remove_each (Moves.blocked_by s slot) l.
Proof.
  unfold actions_slot, Moves.blocked_by.
  destruct (thing_kind slot); try reflexivity.
  destruct (location slot) as [x y].
  destruct ((x =? fst s) && (y =? snd s + 1)),
           ((x =? fst s) && (y =? snd s - 1)),
           ((x =? fst s + 1) && (y =? snd s)),
           ((x =? fst s - 1) && (y =? snd s));
    cbn [app Moves.remove_each];
    repeat (match goal with
            | |- context [list_remove String.eqb ?d ?l] =>
                destruct (list_remove String.eqb d l)
            end);
    reflexivity.
Qed.

Lemma actions_loop_removes (s : State) (slots : list Thing) :
  forall l, actions_loop s slots l
            = Moves.remove_each (flat_map (Moves.blocked_by s) slots) l.
Proof.
  induction slots as [|slot slots IH]; intros l; cbn [actions_loop flat_map];
    [reflexivity|].
  rewrite remove_each_app, actions_slot_removes.
  destruct (Moves.remove_each (Moves.blocked_by s slot) l); [apply IH|reflexivity].
Qed.

Lemma list_remove_present (d : Action) (l : list Action) :
  NoDup l -> In d l ->
  list_remove String.eqb d l
  = Some (filter (fun a => negb (String.eqb a d)) l).
Proof.
  induction l as [|y l IH]; intros Hnd Hin; [destruct Hin|]. cbn [list_remove filter].
  inversion Hnd as [|? ? Hy Hnd']; subst.
  destruct (String.eqb y d) eqn:E; cbn [negb].
  - apply String.eqb_eq in E. subst y. f_equal. symmetry.
    apply forallb_filter_id. apply forallb_forall. intros a Ha.
    destruct (String.eqb a d) eqn:E'; [|reflexivity].
    apply String.eqb_eq in E'. subst a. contradiction.
  - destruct Hin as [->|Hin]; [rewrite String.eqb_refl in E; discriminate|].
    now rewrite (IH Hnd' Hin).
Qed.

Lemma list_remove_absent (d : Action) (l : list Action) :
  ~ In d l -> list_remove String.eqb d l = None.
Proof.
  induction l as [|y l IH]; intros Hin; [reflexivity|]. cbn [list_remove].
  destruct (String.eqb y d) eqn:E.
  - apply String.eqb_eq in E. subst y. exfalso. apply Hin. now left.
  - rewrite IH; [reflexivity|]. intros H. apply Hin. now right.
Qed.

Lemma remove_each_spec (ds : list Action) :
  forall l, NoDup l ->
            (NoDup ds /\ incl ds l ->
             Moves.remove_each ds l
             = Some (filter (fun a => negb (existsb (String.eqb a) ds)) l))
            /\ (~ (NoDup ds /\ incl ds l) -> Moves.remove_each ds l = None).
Proof.
  induction ds as [|d ds IH]; intros l Hnd.
  - split.
    + intros _. simpl. f_equal. symmetry.
      apply forallb_filter_id. now apply forallb_forall.
    + intros H. exfalso. apply H. split; [constructor|intros a []].
  - cbn [Moves.remove_each].
    destruct (in_dec String.string_dec d l) as [Hin|Hnin].
    + rewrite (list_remove_present d l Hnd Hin).
      assert (Hnd' : NoDup (filter (fun a => negb (String.eqb a d)) l))
        by (apply NoDup_filter; exact Hnd).
      destruct (IH _ Hnd') as [IH1 IH2].
      assert (Hiff : NoDup (d :: ds) /\ incl (d :: ds) l
                     <-> NoDup ds /\ incl ds (filter (fun a => negb (String.eqb a d)) l)).
      { split.
        - intros [H1 H2]. inversion H1 as [|? ? Hd H1']; subst. split; [exact H1'|].
          intros a Ha. apply filter_In. split; [apply H2; now right|].
          destruct (String.eqb a d) eqn:E; [|reflexivity].
          apply String.eqb_eq in E. subst a. contradiction.
        - intros [H1 H2]. split.
          + constructor; [|exact H1]. intros Hd.
            apply H2, filter_In in Hd. rewrite String.eqb_refl in Hd.
            destruct Hd as [_ Hd]. discriminate Hd.
          + intros a [<-|Ha]; [exact Hin|]. apply H2, filter_In in Ha. tauto. }
      split.
      * intros H. rewrite (IH1 (proj1 Hiff H)). f_equal.
        clear. induction l as [|y l IHl]; [reflexivity|]. cbn [filter existsb].
        destruct (String.eqb y d); cbn [negb orb filter]; [exact IHl|].
        destruct (existsb (String.eqb y) ds); cbn [negb]; [exact IHl|].
        now rewrite IHl.
      * intros H. apply IH2. intros H'. apply H. exact (proj2 Hiff H').
    + rewrite (list_remove_absent d l Hnin). split; [|reflexivity].
      intros [_ H]. exfalso. apply Hnin, H. now left.
Qed.

Lemma blocked_directions (self : VacuumPlanning) (s : State) :
  incl (Moves.blocked self s) ["UP"; "DOWN"; "LEFT"; "RIGHT"].
Proof.
  unfold Moves.blocked. intros a Ha. apply in_flat_map in Ha.
  destruct Ha as (slot & _ & Ha). unfold Moves.blocked_by in Ha.
  destruct (thing_kind slot); try destruct Ha.
  destruct (location slot) as [x y].
  repeat (apply in_app_or in Ha; destruct Ha as [Ha|Ha]);
    match type of Ha with
    | In _ (if ?c then _ else _) => destruct c
    end; simpl in Ha; simpl; tauto.
Qed.

(** X10. [VacuumPlanning.actions] removes from UP, DOWN, LEFT, RIGHT the
    direction of every wall that [things_near] reports in a neighbouring
    cell.  When no direction is blocked by two reported walls it returns
    the directions that are not blocked, in the order UP, DOWN, LEFT,
    RIGHT; when two reported walls block the same direction,
    [possible_actions.remove] raises [ValueError]. *)
Theorem actions_are_the_unblocked_directions (self : VacuumPlanning) (s : State) :
  (NoDup (Moves.blocked self s) ->
   actions self s
   = Some (filter (fun a => negb (Moves.is_blocked self s a))
                  ["UP"; "DOWN"; "LEFT"; "RIGHT"]))
  /\ (~ NoDup (Moves.blocked self s) -> actions self s = None).
Proof.
  unfold actions. rewrite actions_loop_removes.
  assert (Hnd : NoDup ["UP"; "DOWN"; "LEFT"; "RIGHT"]).
  { repeat constructor; simpl; intuition discriminate. }
  destruct (remove_each_spec (flat_map (Moves.blocked_by s) (things_near (env self) s))
                             _ Hnd) as [H1 H2].
  split.
  - intros H. apply H1. split; [exact H|apply blocked_directions].
  - intros H. apply H2. intros [H' _]. exact (H H').
Qed.

Lemma actions_some (self : VacuumPlanning) (s : State) (acts : list Action) :
  actions self s = Some acts ->
  acts = filter (fun a => negb (Moves.is_blocked self s a)) ["UP"; "DOWN"; "LEFT"; "RIGHT"].
Proof.
  unfold actions. rewrite actions_loop_removes.
  assert (Hnd : NoDup ["UP"; "DOWN"; "LEFT"; "RIGHT"]).
  { repeat constructor; simpl; intuition discriminate. }
  destruct (remove_each_spec (flat_map (Moves.blocked_by s) (things_near (env self) s))
                             _ Hnd) as [H1 H2].
  destruct (ListDec.NoDup_dec String.string_dec
              (flat_map (Moves.blocked_by s) (things_near (env self) s))) as [Hb|Hb].
  - rewrite H1 by (split; [exact Hb|apply blocked_directions]).
    intros H. injection H as <-. reflexivity.
  - rewrite H2 by (intros [H' _]; exact (Hb H')). discriminate.
Qed.

Lemma blocked_by_wall (self : VacuumPlanning) (s : State) (slot : Thing) (a : Action) :
  In a ["UP"; "DOWN"; "LEFT"; "RIGHT"] ->
  In a (Moves.blocked_by s slot)
  <-> thing_kind slot = Wall /\ location slot = fst (result self s a).
Proof.
  unfold Moves.blocked_by.
  intros [<-|[<-|[<-|[<-|[]]]]].
  - change (fst (result self s "UP")) with (fst s, snd s + 1).
    destruct (thing_kind slot); [|simpl; intuition discriminate..].
    destruct (location slot) as [x y].
    destruct (Z.eqb_spec x (fst s)), (Z.eqb_spec y (snd s + 1)),
      (Z.eqb_spec y (snd s - 1)), (Z.eqb_spec x (fst s + 1)),
      (Z.eqb_spec y (snd s)), (Z.eqb_spec x (fst s - 1));
      cbn [andb app In]; split; intros H;
      try (split; [reflexivity|f_equal; lia]);
      try (destruct H as [_ H]; injection H as Hx Hy; lia);
      try (intuition discriminate); auto.
  - change (fst (result self s "DOWN")) with (fst s, snd s - 1).
    destruct (thing_kind slot); [|simpl; intuition discriminate..].
    destruct (location slot) as [x y].
    destruct (Z.eqb_spec x (fst s)), (Z.eqb_spec y (snd s + 1)),
      (Z.eqb_spec y (snd s - 1)), (Z.eqb_spec x (fst s + 1)),
      (Z.eqb_spec y (snd s)), (Z.eqb_spec x (fst s - 1));
      cbn [andb app In]; split; intros H;
      try (split; [reflexivity|f_equal; lia]);
      try (destruct H as [_ H]; injection H as Hx Hy; lia);
      try (intuition discriminate); auto.
  - change (fst (result self s "LEFT")) with (fst s - 1, snd s).
    destruct (thing_kind slot); [|simpl; intuition discriminate..].
    destruct (location slot) as [x y].
    destruct (Z.eqb_spec x (fst s)), (Z.eqb_spec y (snd s + 1)),
      (Z.eqb_spec y (snd s - 1)), (Z.eqb_spec x (fst s + 1)),
      (Z.eqb_spec y (snd s)), (Z.eqb_spec x (fst s - 1));
      cbn [andb app In]; split; intros H;
      try (split; [reflexivity|f_equal; lia]);
      try (destruct H as [_ H]; injection H as Hx Hy; lia);
      try (intuition discriminate); auto.
  - change (fst (result self s "RIGHT")) with (fst s + 1, snd s).
    destruct (thing_kind slot); [|simpl; intuition discriminate..].
    destruct (location slot) as [x y].
    destruct (Z.eqb_spec x (fst s)), (Z.eqb_spec y (snd s + 1)),
      (Z.eqb_spec y (snd s - 1)), (Z.eqb_spec x (fst s + 1)),
      (Z.eqb_spec y (snd s)), (Z.eqb_spec x (fst s - 1));
      cbn [andb app In]; split; intros H;
      try (split; [reflexivity|f_equal; lia]);
      try (destruct H as [_ H]; injection H as Hx Hy; lia);
      try (intuition discriminate); auto.
Qed.

(** X11. The moves that [actions] returns never enter a wall: the cell
    that [result] gives for an action of the list holds no wall that
    [things_near] reports, and every one of UP, DOWN, LEFT, RIGHT whose
    cell holds no such wall is in the list. *)
Theorem offered_moves_avoid_the_walls (self : VacuumPlanning) (s : State)
        (acts : list Action) (a : Action) :
  actions self s = Some acts ->
  In a acts
  <-> In a ["UP"; "DOWN"; "LEFT"; "RIGHT"]
      /\ forall slot, In slot (things_near (env self) s) -> thing_kind slot = Wall ->
                      location slot <> fst (result self s a).
Proof.
  intros Hacts. rewrite (actions_some self s acts Hacts), filter_In.
  unfold Moves.is_blocked, Moves.blocked.
  split; intros [Hdir H]; (split; [exact Hdir|]).
  - intros slot Hslot Hwall Hloc.
    apply negb_true_iff in H.
    assert (Hex : existsb (String.eqb a)
                          (flat_map (Moves.blocked_by s) (things_near (env self) s)) = true);
      [|rewrite Hex in H; discriminate H].
    apply existsb_exists. exists a. split; [|apply String.eqb_refl].
    apply in_flat_map. exists slot. split; [exact Hslot|].
    apply (blocked_by_wall self s slot a Hdir). auto.
  - apply negb_true_iff.
    destruct (existsb _ _) eqn:Hex; [|reflexivity]. exfalso.
    apply existsb_exists in Hex. destruct Hex as (b & Hb & Hab).
    apply String.eqb_eq in Hab. subst b.
    apply in_flat_map in Hb. destruct Hb as (slot & Hslot & Hb).
    apply (blocked_by_wall self s slot a Hdir) in Hb. destruct Hb as [Hwall Hloc].
    exact (H slot Hslot Hwall Hloc).
Qed.

End VacuumActions.

(** *** The path costs of the vacuum problem *)

Section VacuumCosts.

Import Vacuum.
Local Open Scope string_scope.
Local Open Scope Z_scope.

(** With an integer cost so far, the cost functions other than StayUp
    give an integer and never raise. *)
Lemma path_cost_of_int (self : VacuumPlanning) (curNode : VNode)
      (state1 : State) (a : Action) (state2 : State) (z : Z) :
  costFunc (env self) <> "StayUp" ->
  node_path_cost curNode = NInt z ->
  exists z', path_cost self curNode state1 a state2 = Some (NInt z').
Proof.
  intros HE Hz. unfold path_cost. rewrite Hz.
  destruct (String.eqb (costFunc (env self)) "Step"); [cbn; eauto|].
  destruct (String.eqb (costFunc (env self)) "StepTurn"); [cbn; eauto|].
  destruct (String.eqb (costFunc (env self)) "StayLeft"); [cbn; eauto|].
  destruct (String.eqb (costFunc (env self)) "StayUp") eqn:E; [|eauto].
  apply String.eqb_eq in E. contradiction.
Qed.

Lemma legal_int_cost (self : VacuumPlanning) (n : VNode) :
  costFunc (env self) <> "StayUp" ->
  legal (as_problem self) (Node_init (self_initial self) None None (NInt 0)) n ->
  exists z, node_path_cost n = NInt z.
Proof.
  intros HE Hn. induction Hn as [|n c avail act Hn IH Ha Hact Hc]; [exists 0; reflexivity|].
  destruct IH as (z & Hz).
  destruct (child_node_fields _ _ _ _ Hc) as (_ & _ & _ & _ & Hcost).
  cbn [as_problem problem_path_cost] in Hcost.
  destruct (path_cost_of_int self n (state n) act (state c) z HE Hz) as (z' & Hz').
  rewrite Hz' in Hcost. injection Hcost as Hcost. exists z'.
  unfold node_path_cost. symmetry. exact Hcost.
Qed.

Lemma computeTurnCost_range (action1 action : option string) :
  0 <= computeTurnCost action1 action <= 6.
Proof.
  rewrite TurnCost.computeTurnCost_parsed.
  destruct (Notions.parse_direction action1) as [d1|]; [|lia].
  destruct (Notions.parse_direction action) as [d2|]; [|lia].
  destruct (TurnCost.rotation_distance_range d1 d2) as [E|[E|E]]; rewrite E; lia.
Qed.

Lemma small_constant (z : Z) : 0 <= z <= 6 -> float_of_Z z <> None.
Proof.
  intros Hz. rewrite FloatFacts.float_of_Z_small; [discriminate|].
  change (2 ^ 53) with 9007199254740992. lia.
Qed.

Lemma int_truediv_float (y n : Z) (q : num) :
  int_truediv y n = Some q -> exists x, q = NFloat x.
Proof.
  unfold int_truediv. destruct (n =? 0); [discriminate|].
  destruct (finite_result _) as [x|]; [|discriminate].
  intros H. injection H as <-. eauto.
Qed.

(** X12. [VacuumPlanning.path_cost] raises only under the StayLeft and
    StayUp cost functions, and only from a conversion or a division.
    Under StayUp it raises exactly when the division of the y coordinate
    by the length of the map raises ([ZeroDivisionError] on an empty map,
    [OverflowError] on a quotient beyond the floats) or the cost so far
    is an integer too large for a float; under StayLeft exactly when the
    cost so far is a float and the x coordinate is too large for one.
    With coordinates, length and integer cost below [2^53] it raises in
    one case only, StayUp with an empty map.  The y coordinate [10^400]
    gives [OverflowError] with a map of 17 things. *)
Theorem path_cost_raises_by_division_or_overflow :
  (forall (self : VacuumPlanning) (curNode : VNode) (state1 : State) (a : Action)
          (state2 : State),
      path_cost self curNode state1 a state2 = None
      <-> (costFunc (env self) = "StayLeft"
           /\ exists x, node_path_cost curNode = NFloat x
                        /\ float_of_Z (fst state2) = None)
          \/ (costFunc (env self) = "StayUp"
              /\ (int_truediv (snd state2) (Z.of_nat (List.length (self_map self))) = None
                  \/ exists c, node_path_cost curNode = NInt c
                               /\ float_of_Z (c + 1) = None)))
  /\ (forall (self : VacuumPlanning) (curNode : VNode) (state1 : State) (a : Action)
             (state2 : State),
         Z.abs (fst state2) < 2 ^ 53 -> Z.abs (snd state2) < 2 ^ 53 ->
         Z.of_nat (List.length (self_map self)) < 2 ^ 53 ->
         (forall c, node_path_cost curNode = NInt c -> Z.abs (c + 1) < 2 ^ 53) ->
         (path_cost self curNode state1 a state2 = None
          <-> costFunc (env self) = "StayUp" /\ self_map self = []))
  /\ (path_cost (Examples.corner_dirty "StayUp" "UCS") (Examples.root (1, 1))
                (1, 1) "UP" (1, 10 ^ 400)
      = None
      /\ List.length (self_map (Examples.corner_dirty "StayUp" "UCS")) = 17%nat).
Proof.
  assert (H1 : float_of_Z 1 = Some 1%float)
    by (rewrite FloatFacts.float_of_Z_small; reflexivity).
  assert (H5 : float_of_Z 5 = Some 5%float)
    by (rewrite FloatFacts.float_of_Z_small; reflexivity).
  assert (Hgeneral :
           forall (self : VacuumPlanning) (curNode : VNode) (state1 : State) (a : Action)
                  (state2 : State),
             path_cost self curNode state1 a state2 = None
             <-> (costFunc (env self) = "StayLeft"
                  /\ exists x, node_path_cost curNode = NFloat x
                               /\ float_of_Z (fst state2) = None)
                 \/ (costFunc (env self) = "StayUp"
                     /\ (int_truediv (snd state2)
                                     (Z.of_nat (List.length (self_map self))) = None
                         \/ exists c, node_path_cost curNode = NInt c
                                      /\ float_of_Z (c + 1) = None))).
  { intros self curNode state1 a state2. unfold path_cost.
    destruct (String.eqb (costFunc (env self)) "Step") eqn:E1.
    { apply String.eqb_eq in E1. rewrite E1. split.
      - destruct (node_path_cost curNode); cbn [num_add]; [|rewrite H1]; discriminate.
      - intros [[H _]|[H _]]; discriminate H. }
    destruct (String.eqb (costFunc (env self)) "StepTurn") eqn:E2.
    { apply String.eqb_eq in E2. rewrite E2. split.
      - pose proof (computeTurnCost_range (node_action curNode) (Some a)) as Ht.
        destruct (node_path_cost curNode); cbn [num_add]; [discriminate|].
        rewrite H1. cbn [num_add].
        destruct (float_of_Z (computeTurnCost _ _)) eqn:Ef; [discriminate|].
        exfalso. exact (small_constant _ Ht Ef).
      - intros [[H _]|[H _]]; discriminate H. }
    destruct (String.eqb (costFunc (env self)) "StayLeft") eqn:E3.
    { apply String.eqb_eq in E3. rewrite E3. split.
      - destruct (node_path_cost curNode) as [c|x]; cbn [num_add]; [discriminate|].
        destruct (float_of_Z (fst state2)) eqn:Ef; [discriminate|].
        intros _. left. split; [reflexivity|]. exists x. auto.
      - intros [[_ (x & -> & Hx)]|[H _]]; [|discriminate H].
        cbn [num_add]. now rewrite Hx. }
    destruct (String.eqb (costFunc (env self)) "StayUp") eqn:E4.
    { apply String.eqb_eq in E4. rewrite E4. split.
      - intros H. right. split; [reflexivity|].
        destruct (int_truediv _ _) as [q|] eqn:Eq; [|now left].
        destruct (int_truediv_float _ _ _ Eq) as (xq & ->).
        destruct (node_path_cost curNode) as [c|x]; cbn [num_add] in H.
        + right. exists c. split; [reflexivity|].
          destruct (float_of_Z (c + 1)); [|reflexivity].
          destruct (_ && _); [cbn [num_add] in H; rewrite H5 in H|]; discriminate H.
        + rewrite H1 in H. cbn [num_add] in H.
          destruct (_ && _); [cbn [num_add] in H; rewrite H5 in H|]; discriminate H.
      - intros [[H _]|[_ [Hq|(c & -> & Hc)]]]; [discriminate H| |].
        + rewrite Hq. destruct (num_add _ _); reflexivity.
        + cbn [num_add]. destruct (int_truediv _ _) as [q|] eqn:Eq; [|reflexivity].
          destruct (int_truediv_float _ _ _ Eq) as (xq & ->).
          cbn [num_add]. now rewrite Hc. }
    split; [discriminate|].
    apply String.eqb_neq in E3, E4.
    intros [[H _]|[H _]]; contradiction. }
  split; [exact Hgeneral|]. split.
  - intros self curNode state1 a state2 Hx Hy Hlen Hcost.
    rewrite Hgeneral. split.
    + intros [(_ & x & _ & Hf)|(HE & [Hq|(c & Hc & Hf)])].
      * rewrite FloatFacts.float_of_Z_small in Hf by exact Hx. discriminate Hf.
      * split; [exact HE|].
        destruct (self_map self) as [|t l]; [reflexivity|].
        rewrite FloatFacts.int_truediv_small in Hq; [discriminate Hq|exact Hy|].
        split; [cbn [List.length]; lia|exact Hlen].
      * rewrite FloatFacts.float_of_Z_small in Hf by exact (Hcost c Hc).
        discriminate Hf.
    + intros [HE Hmap]. right. split; [exact HE|]. left. now rewrite Hmap.
  - split; vm_compute; reflexivity.
Qed.

Lemma Step_cost_is_depth (self : VacuumPlanning) (n : VNode) :
  costFunc (env self) = "Step" ->
  legal (as_problem self) (Node_init (self_initial self) None None (NInt 0)) n ->
  node_path_cost n = NInt (Z.of_nat (depth n)).
Proof.
  intros E Hn. induction Hn as [|n c avail act Hn IH Ha Hact Hc]; [reflexivity|].
  destruct (child_node_fields _ _ _ _ Hc) as (_ & _ & _ & Hd & Hcost).
  cbn [as_problem problem_path_cost] in Hcost. unfold path_cost in Hcost.
  rewrite E, IH in Hcost. cbn in Hcost. injection Hcost as Hcost.
  unfold node_path_cost. rewrite <- Hcost, Hd. f_equal. lia.
Qed.

(** In a set of cells that the moves do not leave, no method of the
    problem raises, under a cost function other than StayUp. *)
Lemma closed_cells_are_safe (self : VacuumPlanning) (cells : list State) :
  Examples.closed_under_moves self cells = true ->
  In (self_initial self) cells ->
  costFunc (env self) <> "StayUp" ->
  (forall s, reachable (as_problem self) s -> In s cells)
  /\ ~ problem_raises (as_problem self)
                      (Node_init (self_initial self) None None (NInt 0)).
Proof.
  intros Hclosed Hinit Hmap.
  pose proof (closed_under_moves_sound self cells Hclosed) as Hsound.
  assert (Hcover : forall s, reachable (as_problem self) s -> In s cells).
  { exact (reachable_in_U (as_problem self) cells Hinit Hsound). }
  split; [exact Hcover|].
  intros (n & Hn & Hraise).
  pose proof (Hcover _ (legal_reachable (NInt 0) (as_problem self) n Hn)) as Hin.
  destruct (Hsound _ Hin) as (acts & Hacts & _).
  destruct Hraise as [H|(avail & act & _ & _ & H)].
  { change (actions self (state n) = None) in H. congruence. }
  unfold child_node in H. cbn [as_problem problem_path_cost] in H.
  destruct (legal_int_cost self n Hmap Hn) as (z & Hz).
  destruct (path_cost self n (state n) act _) eqn:Hcost; [discriminate H|].
  match type of Hcost with
  | path_cost _ _ _ _ ?s2 = _ =>
      destruct (path_cost_of_int self n (state n) act s2 z Hmap Hz) as (z' & Hz')
  end.
  congruence.
Qed.

Lemma last_cons {A : Type} (x d : A) (l : list A) :
  last (x :: l) d = last l x.
Proof.
  revert x d. induction l as [|y l IH]; intros x d; [reflexivity|].
  change (last (x :: y :: l) d) with (last (y :: l) d). rewrite (IH y d).
  symmetry. apply (IH y x).
Qed.

Lemma turn_costs_snoc (sol : list (option Action)) (a : option Action) :
  forall prev,
    Moves.turn_costs prev (sol ++ [a])
    = Moves.turn_costs prev sol + computeTurnCost (last sol prev) a.
Proof.
  induction sol as [|x sol IH]; intros prev; cbn [app Moves.turn_costs].
  - simpl. lia.
  - rewrite IH, last_cons. lia.
Qed.

Lemma last_solution (self : VacuumPlanning) (s0 : State) (n : VNode) :
  descends (as_problem self) (Node_init s0 None None (NInt 0)) n ->
  last (solution n) None = action n.
Proof.
  intros Hn. induction Hn as [|n c act Hn IH Hc]; [reflexivity|].
  destruct (child_node_fields _ _ _ _ Hc) as (_ & Hp & _).
  rewrite (solution_child _ _ Hp). apply last_last.
Qed.

Lemma fold_right_from (a : Z) (zs : list Z) :
  fold_right Z.add a zs = fold_right Z.add 0 zs + a.
Proof. induction zs as [|z zs IH]; cbn [fold_right]; lia. Qed.

Lemma columns_child (p c : VNode) :
  parent c = Some p -> Moves.columns c = Moves.columns p + fst (state c).
Proof.
  intros Hp. unfold Moves.columns. rewrite (path_child _ _ Hp).
  pose proof (path_nonempty p) as Hne.
  destruct (path p) as [|x l]; [congruence|]. cbn [tl app].
  rewrite map_app, fold_right_app. cbn [map fold_right].
  rewrite (fold_right_from (fst (state c) + 0)), Z.add_0_r. reflexivity.
Qed.

(** X13. The path cost of a node built from the root [Node(state)] by
    [child_node], in closed form: under Step it is the depth of the
    node; under StepTurn it is the depth plus the turn costs between the
    successive actions of its solution (none for the first action);
    under StayLeft it is the sum of the x coordinates of the states
    entered; under a cost function that is none of Step, StepTurn,
    StayLeft and StayUp it stays 0. *)
Theorem path_cost_in_closed_form (self : VacuumPlanning) (s0 : State) (n : VNode) :
  descends (as_problem self) (Node_init s0 None None (NInt 0)) n ->
  (costFunc (env self) = "Step" -> node_path_cost n = NInt (Z.of_nat (depth n)))
  /\ (costFunc (env self) = "StepTurn" ->
      node_path_cost n
      = NInt (Z.of_nat (depth n) + Moves.turn_costs None (solution n)))
  /\ (costFunc (env self) = "StayLeft" -> node_path_cost n = NInt (Moves.columns n))
  /\ (costFunc (env self) <> "Step" -> costFunc (env self) <> "StepTurn" ->
      costFunc (env self) <> "StayLeft" -> costFunc (env self) <> "StayUp" ->
      node_path_cost n = NInt 0).
Proof.
  intros Hn. unfold node_path_cost.
  pose proof (last_solution self s0 n Hn) as Hlast.
  induction Hn as [|n c act Hn IH Hc].
  - repeat split; intros; reflexivity.
  - specialize (IH (last_solution self s0 n Hn)).
    destruct IH as (IH1 & IH2 & IH3 & IH4).
    destruct (child_node_fields _ _ _ _ Hc) as (_ & Hp & Hact & Hd & Hcost).
    cbn [as_problem problem_path_cost] in Hcost. unfold path_cost in Hcost.
    unfold node_path_cost, node_action in Hcost.
    split; [|split; [|split]].
    + intros E. rewrite E, (IH1 E) in Hcost. cbn in Hcost. injection Hcost as <-.
      rewrite Hd. f_equal. lia.
    + intros E. rewrite E, (IH2 E) in Hcost. cbn in Hcost. injection Hcost as <-.
      rewrite Hd, (solution_child _ _ Hp), turn_costs_snoc.
      rewrite (last_solution self s0 n Hn), Hact. f_equal. lia.
    + intros E. rewrite E, (IH3 E) in Hcost. cbn in Hcost. injection Hcost as <-.
      rewrite (columns_child _ _ Hp). reflexivity.
    + intros E1 E2 E3 E4.
      apply String.eqb_neq in E1, E2, E3, E4.
      rewrite E1, E2, E3, E4 in Hcost. injection Hcost as <-.
      exact (IH4 (proj1 (String.eqb_neq _ _) E1) (proj1 (String.eqb_neq _ _) E2)
                 (proj1 (String.eqb_neq _ _) E3) (proj1 (String.eqb_neq _ _) E4)).
Qed.

(** X14. Under the Step cost, uniform-cost search returns a shortest
    solution, as breadth-first search does: on a vacuum problem whose
    moves do not leave a finite set of cells, and with a dirty cell that
    can be reached, it returns a node at a goal, and no path from the
    initial state to a goal has fewer actions. *)
Theorem uniform_cost_search_is_shortest_under_Step (self : VacuumPlanning)
        (cells : list State) (fuel : nat) :
  costFunc (env self) = "Step" ->
  Examples.closed_under_moves self cells = true ->
  In (self_initial self) cells ->
  (List.length cells < fuel)%nat ->
  (exists m, legal (as_problem self) (Node_init (self_initial self) None None (NInt 0)) m
             /\ goal_test self (state m) = true) ->
  exists n explored,
    ucs self fuel = Returned (Some n, explored)
    /\ goal_test self (state n) = true
    /\ legal (as_problem self) (Node_init (self_initial self) None None (NInt 0)) n
    /\ forall m,
        legal (as_problem self) (Node_init (self_initial self) None None (NInt 0)) m ->
        goal_test self (state m) = true ->
        (depth n <= depth m)%nat.
Proof.
  intros E Hclosed Hinit Hfuel Hgoal.
  destruct (bfgs_loop_optimal
              State_eq_dec state_lt is_LEFT (NInt 0) num_lt num_ge num_eq
              (as_problem self) Examples.one_more Examples.is_int cells) with
    (fuel := fuel)
    (front := [(NInt 0, Node_init (self_initial self) None None (NInt 0) : VNode)])
    (explore := @nil State)
    as (n & explored & Hret & Hg & Hleg & Hmin).
  - intros n acts a (z & Hz) _ _ _. cbn [as_problem problem_path_cost].
    unfold path_cost, node_path_cost. rewrite E, Hz. reflexivity.
  - exists 0. reflexivity.
  - intros c s acts a Hc _ _ _. now apply one_more_int.
  - exact int_ge_refl.
  - exact int_ge_trans.
  - exact int_ge_total.
  - exact int_lt_not_ge.
  - exact int_eq_both_ge.
  - intros c s acts a Hc _ _ _. now apply one_more_nonneg.
  - intros c c' s acts a Hc Hc' _ _ _. now apply one_more_monotone.
  - exact Hinit.
  - exact (closed_under_moves_sound self cells Hclosed).
  - apply (initial_invariant (NInt 0) num_ge (as_problem self) Examples.is_int).
    + exists 0. reflexivity.
    + exact int_ge_refl.
  - simpl. lia.
  - exact Hgoal.
  - exists n, explored. split; [exact Hret|]. split; [exact Hg|]. split; [exact Hleg|].
    intros m Hm Hgm. specialize (Hmin m Hm Hgm). unfold cost_le in Hmin.
    pose proof (Step_cost_is_depth self n E Hleg) as Hn.
    pose proof (Step_cost_is_depth self m E Hm) as Hm'.
    unfold node_path_cost in Hn, Hm'. rewrite Hn, Hm' in Hmin.
    cbn [num_ge] in Hmin. apply Z.geb_le in Hmin. lia.
Qed.

End VacuumCosts.

(** *** The heuristic of the vacuum problem *)

Section VacuumHeuristic.

Import Vacuum Notions.
Local Open Scope string_scope.
Local Open Scope Z_scope.

Lemma selected_distance_zero (selector : string) (p q : State) :
  0 <= selected_distance selector p q
  /\ (selected_distance selector p q = 0 <-> p = q).
Proof.
  unfold selected_distance, manhattan, euclid_squared.
  destruct p as [px py], q as [qx qy].
  destruct (String.eqb selector "Manhattan"); cbn [fst snd].
  - split; [lia|]. split; [intros H; f_equal; lia|intros H; injection H as -> ->; lia].
  - rewrite !Z.pow_2_r.
    pose proof (Z.square_nonneg (px - qx)) as Hx.
    pose proof (Z.square_nonneg (py - qy)) as Hy.
    split; [lia|]. split.
    + intros H.
      assert (Hx0 : (px - qx) * (px - qx) = 0) by lia.
      assert (Hy0 : (py - qy) * (py - qy) = 0) by lia.
      apply Z.mul_eq_0 in Hx0, Hy0. f_equal; lia.
    + intros H. injection H as -> ->. rewrite !Z.sub_diag. reflexivity.
Qed.

(** X15. [VacuumPlanning.h] is an integer that is never negative, under
    either distance; it is 0 exactly when the environment holds no dirt
    or a thing that is dirt is at the state of the node. *)
Theorem h_is_zero_exactly_on_dirt (self : VacuumPlanning) (node : VNode) :
  exists z : Z,
    h self node = NInt z
    /\ 0 <= z
    /\ (z = 0
        <-> (forall t, In t (things (env self)) -> thing_kind t <> Dirt)
            \/ exists t, In t (things (env self)) /\ thing_kind t = Dirt
                         /\ location t = state node).
Proof.
  assert (H : exists z : Z,
             h self node = NInt z
             /\ 0 <= z
             /\ (z = 0 <-> dirty_rooms self = [] \/ In (state node) (dirty_rooms self))).
  { rewrite Heuristic.h_eq.
    destruct (dirty_rooms self) as [|room rooms] eqn:Hrooms.
    - exists 0. split; [reflexivity|]. split; [lia|]. split; auto.
    - destruct (Heuristic.running_min_nonempty
                  (selected_distance (heuristic (env self)) (state node)) room rooms)
        as (r & Hin & -> & Hall).
      exists (selected_distance (heuristic (env self)) (state node) r).
      split; [reflexivity|].
      destruct (selected_distance_zero (heuristic (env self)) (state node) r) as [H0 Hz].
      split; [exact H0|]. split.
      + intros Hzero. right. apply Hz in Hzero. now rewrite Hzero.
      + intros [H|H]; [discriminate H|].
        pose proof (proj1 (Forall_forall _ _) Hall (state node) H) as Hle.
        cbn beta in Hle.
        destruct (selected_distance_zero (heuristic (env self)) (state node) (state node))
          as [_ Hself].
        rewrite (proj2 Hself eq_refl) in Hle. lia. }
  destruct H as (z & Hh & H0 & Hz). exists z. split; [exact Hh|]. split; [exact H0|].
  rewrite Hz, Heuristic.dirty_rooms_nil, Heuristic.dirty_rooms_spec. reflexivity.
Qed.

Lemma manhattan_step (self : VacuumPlanning) (s : State) (a : Action) (room : State) :
  manhattan s room <= manhattan (fst (result self s a)) room + 1
  /\ manhattan (fst (result self s a)) room <= manhattan s room + 1.
Proof.
  unfold result, manhattan. destruct s as [x y], room as [rx ry]. cbn [fst snd].
  destruct (String.eqb a "RIGHT"); [cbn [fst snd]; lia|].
  destruct (String.eqb a "LEFT"); [cbn [fst snd]; lia|].
  destruct (String.eqb a "UP"); [cbn [fst snd]; lia|].
  destruct (String.eqb a "DOWN"); cbn [fst snd]; lia.
Qed.

Lemma running_min_step (d d' : State -> Z) (room : State) (rooms : list State) :
  (forall r, d r <= d' r + 1) ->
  exists z z',
    running_min d (room :: rooms) Inf = Fin z
    /\ running_min d' (room :: rooms) Inf = Fin z'
    /\ z <= z' + 1.
Proof.
  intros Hstep.
  destruct (Heuristic.running_min_nonempty d room rooms) as (r & Hin & Hm & Hall).
  destruct (Heuristic.running_min_nonempty d' room rooms) as (r' & Hin' & Hm' & _).
  exists (d r), (d' r'). split; [exact Hm|]. split; [exact Hm'|].
  pose proof (proj1 (Forall_forall _ _) Hall r' Hin') as Hle. cbn beta in Hle.
  specialize (Hstep r'). lia.
Qed.

(** X16. With the Manhattan distance, [h] changes by at most 1 from a
    node to each of its children, whatever the action: it never drops by
    more than the cost of a step. *)
Theorem manhattan_h_changes_by_at_most_one (self : VacuumPlanning) (node c : VNode)
        (act : Action) :
  heuristic (env self) = "Manhattan" ->
  child_node (as_problem self) node act = Some c ->
  exists z z' : Z,
    h self node = NInt z /\ h self c = NInt z' /\ z <= z' + 1 /\ z' <= z + 1.
Proof.
  intros Hsel Hc.
  destruct (child_node_fields _ _ _ _ Hc) as (Hs & _).
  change (state c = fst (result self (state node) act)) in Hs.
  rewrite !Heuristic.h_eq, Hs. unfold selected_distance. rewrite Hsel, String.eqb_refl.
  destruct (dirty_rooms self) as [|room rooms].
  - exists 0, 0. repeat split; lia.
  - destruct (running_min_step (manhattan (state node))
                               (manhattan (fst (result self (state node) act)))
                               room rooms) as (z & z' & Hz & Hz' & Hle).
    { intros r. apply (manhattan_step self). }
    destruct (running_min_step (manhattan (fst (result self (state node) act)))
                               (manhattan (state node))
                               room rooms) as (y' & y & Hy' & Hy & Hle').
    { intros r. apply (manhattan_step self). }
    rewrite Hz in Hy. rewrite Hz' in Hy'. injection Hy as <-. injection Hy' as <-.
    exists z, z'. rewrite Hz, Hz'. repeat split; auto.
Qed.

(** X17. [distance_manhattan] is a distance on the cells: it is never
    negative, it is 0 exactly between a cell and itself, it is symmetric,
    it obeys the triangle inequality, and one move changes it by at most
    1. *)
Theorem distance_manhattan_is_a_metric (p q r : State) :
  0 <= Moves.distance_manhattan p q
  /\ (Moves.distance_manhattan p q = 0 <-> p = q)
  /\ Moves.distance_manhattan p q = Moves.distance_manhattan q p
  /\ Moves.distance_manhattan p r
     <= Moves.distance_manhattan p q + Moves.distance_manhattan q r
  /\ forall (self : VacuumPlanning) (a : Action),
      Z.abs (Moves.distance_manhattan (fst (result self p a)) q
             - Moves.distance_manhattan p q) <= 1.
Proof.
  unfold Moves.distance_manhattan.
  destruct p as [px py], q as [qx qy], r as [rx ry]. cbn [fst snd].
  split; [lia|]. split; [|split; [lia|split; [lia|]]].
  - split; [intros H; f_equal; lia|intros H; injection H as -> ->; lia].
  - intros self a.
    pose proof (manhattan_step self (px, py) a (qx, qy)) as H.
    unfold manhattan in H. cbn [fst snd] in H. lia.
Qed.

End VacuumHeuristic.

(** *** A* search with a heuristic that adds nothing *)

Section ZeroHeuristic.

Context {State Action C : Type}.
Variable State_eq_dec : forall x y : State, {x = y} + {x <> y}.
Variable state_lt : State -> State -> bool.
Variable is_LEFT : Action -> bool.
Variable C0 : C.
Variable C_add : C -> C -> option C.
Variables C_lt C_ge C_eq : C -> C -> bool.
Variable problem : Problem State Action C.

Local Abbreviation N := (Node State Action C).
Local Abbreviation E := (entry State Action C).
Local Abbreviation root := (Node_init (initial problem) None None C0).

Variables f g : N -> option C.
Hypothesis same_value : forall n, legal problem root n -> f n = g n.

Lemma bfgs_for_same (explore : set State) (cs : list N) :
  forall front : list E,
    (forall c, In c cs -> legal problem root c) ->
    bfgs_for State_eq_dec C_ge f explore cs front
    = bfgs_for State_eq_dec C_ge g explore cs front.
Proof.
  induction cs as [|c cs IH]; intros front Hcs; cbn [bfgs_for]; [reflexivity|].
  assert (Hc : bfgs_child State_eq_dec C_ge f explore front c
               = bfgs_child State_eq_dec C_ge g explore front c).
  { unfold bfgs_child, pq_append. rewrite (same_value c (Hcs c (or_introl eq_refl))).
    reflexivity. }
  rewrite Hc. destruct (bfgs_child State_eq_dec C_ge g explore front c); [|reflexivity].
  apply IH. intros c' Hc'. apply Hcs. now right.
Qed.

Lemma bfgs_loop_same (fuel : nat) :
  forall (front : list E) (explore : set State),
    (forall e, In e front -> legal problem root (snd e)) ->
    bfgs_loop State_eq_dec state_lt is_LEFT C_lt C_ge C_eq problem f fuel front explore
    = bfgs_loop State_eq_dec state_lt is_LEFT C_lt C_ge C_eq problem g fuel front explore.
Proof.
  induction fuel as [|fuel IH]; intros front explore Hleg; cbn [bfgs_loop];
    [reflexivity|].
  unfold pq_pop.
  destruct (pq_extract_min State_eq_dec state_lt C_lt C_eq front)
    as [[m front1]|] eqn:Hpop; [|reflexivity].
  destruct (pq_extract_min_split State_eq_dec state_lt C_lt C_eq front m front1 Hpop)
    as (pre & post & -> & ->).
  cbn [snd]. destruct (goal_test problem (state (snd m))); [reflexivity|].
  assert (Hm : legal problem root (snd m)) by (apply Hleg, in_elt).
  destruct (expand is_LEFT problem (snd m)) as [cs|] eqn:Hexp; [|reflexivity].
  assert (Hcs : forall c, In c cs -> legal problem root c).
  { intros c Hc. unfold expand in Hexp.
    destruct (actions problem (state (snd m))) as [avail|] eqn:Ha; [|discriminate].
    destruct (proj1 (mapM_In _ _ _ Hexp) c Hc) as (act & Hact & Hchild).
    apply (proj1 (list_sort_In is_LEFT avail act)) in Hact.
    exact (@legal_child _ _ _ problem root (snd m) c avail act Hm Ha Hact Hchild). }
  rewrite <- (bfgs_for_same _ cs (pre ++ post) Hcs).
  pose proof (bfgs_for_total State_eq_dec C_ge f
                             (explore_add State_eq_dec (state (snd m)) explore)
                             cs (pre ++ post)) as Hfor.
  destruct (bfgs_for State_eq_dec C_ge f _ cs (pre ++ post)) as [front2|];
    [|reflexivity].
  destruct Hfor as (He & _).
  apply IH. intros e Hin. destruct (He e Hin) as [H|H]; [|exact (Hcs _ H)].
  apply Hleg. exact (in_app_middle _ _ _ _ H).
Qed.

Lemma best_first_same (fuel : nat) :
  best_first_graph_search State_eq_dec state_lt is_LEFT C0 C_lt C_ge C_eq problem
                          (Some f) fuel
  = best_first_graph_search State_eq_dec state_lt is_LEFT C0 C_lt C_ge C_eq problem
                            (Some g) fuel.
Proof.
  unfold best_first_graph_search, memoize, pq_append. cbn [app].
  rewrite (same_value root (legal_root problem root)).
  destruct (g root) as [v|]; [|reflexivity].
  apply bfgs_loop_same. intros e [<-|[]]. apply legal_root.
Qed.

End ZeroHeuristic.

(** X18. A* search with a heuristic that adds nothing to the cost of
    any path from the root (a heuristic that is 0 there) is uniform-cost
    search: the two return the same node and the same explored set. *)
Theorem astar_with_a_zero_heuristic_is_uniform_cost_search
        {State Action C : Type}
        (State_eq_dec : forall x y : State, {x = y} + {x <> y})
        (state_lt : State -> State -> bool) (is_LEFT : Action -> bool)
        (C0 : C) (C_add : C -> C -> option C) (C_lt C_ge C_eq : C -> C -> bool)
        (problem : Problem State Action C)
        (h' : option (Node State Action C -> C)) (fuel : nat) :
  (forall n, legal problem (Node_init (initial problem) None None C0) n ->
             C_add (path_cost n) (match h' with Some k => k | None => h problem end n)
             = Some (path_cost n)) ->
  astar_search State_eq_dec state_lt is_LEFT C0 C_add C_lt C_ge C_eq problem h' fuel
  = uniform_cost_search State_eq_dec state_lt is_LEFT C0 C_lt C_ge C_eq problem fuel.
Proof.
  intros Hzero. unfold astar_search, uniform_cost_search, memoize.
  apply best_first_same. exact Hzero.
Qed.

(** *** A* search with the Manhattan heuristic under the Step cost *)

Section AStarShortest.

Local Abbreviation problem_result := (@result Vacuum.State Vacuum.Action num).
Local Abbreviation problem_actions := (@actions Vacuum.State Vacuum.Action num).
Local Abbreviation problem_goal_test := (@goal_test Vacuum.State Vacuum.Action num).

Import Vacuum Notions.
Local Open Scope string_scope.
Local Open Scope Z_scope.

Variable self : VacuumPlanning.
Hypothesis Step_cost : costFunc (env self) = "Step".
Hypothesis Manhattan_h : heuristic (env self) = "Manhattan".

Local Abbreviation P := (as_problem self).
Local Abbreviation P' := (Reduced.reduced_problem self).
Local Abbreviation phi := (Reduced.with_h self).
Local Abbreviation Phi := (Reduced.with_h_entry self).
Local Abbreviation hz := (Reduced.hz self).
Local Abbreviation f := (Reduced.f_astar self).
Local Abbreviation f' := (fun n : VNode => Some (node_path_cost n)).
Local Abbreviation int_cost := (fun n : VNode => Examples.is_int (node_path_cost n)).

Lemma findMinManhattanDist_hz (s : State) :
  findMinManhattanDist self s = NInt (hz s) /\ 0 <= hz s.
Proof.
  unfold Reduced.hz. rewrite Heuristic.findMinManhattanDist_eq.
  destruct (dirty_rooms self) as [|room rooms]; [split; [reflexivity|lia]|].
  destruct (Heuristic.running_min_nonempty (manhattan s) room rooms)
    as (r & _ & -> & _).
  split; [reflexivity|]. cbn [ext_num]. unfold manhattan. lia.
Qed.

Lemma h_hz (n : VNode) : h self n = NInt (hz (state n)).
Proof.
  unfold h. rewrite Manhattan_h, String.eqb_refl.
  exact (proj1 (findMinManhattanDist_hz (state n))).
Qed.

Lemma hz_step (s : State) (a : Action) : hz s <= hz (fst (result self s a)) + 1.
Proof.
  unfold Reduced.hz. rewrite !Heuristic.findMinManhattanDist_eq.
  destruct (dirty_rooms self) as [|room rooms]; [lia|].
  destruct (running_min_step (manhattan s) (manhattan (fst (result self s a)))
                             room rooms) as (z & z' & -> & -> & Hle).
  - intros r. apply (manhattan_step self).
  - exact Hle.
Qed.

Lemma hz_dirt (s : State) : In s (dirty_rooms self) -> hz s = 0.
Proof.
  intros Hs. pose proof (findMinManhattanDist_hz s) as [_ H0].
  unfold Reduced.hz in *. rewrite Heuristic.findMinManhattanDist_eq in *.
  destruct (dirty_rooms self) as [|room rooms]; [destruct Hs|].
  destruct (Heuristic.running_min_nonempty (manhattan s) room rooms)
    as (r & _ & Hm & Hall).
  rewrite Hm in *. cbn [ext_num] in *.
  pose proof (proj1 (Forall_forall _ _) Hall s Hs) as Hle. cbn beta in Hle.
  assert (manhattan s s = 0) by (unfold manhattan; lia). lia.
Qed.

(** *** The nodes of the two problems *)

Lemma with_h_fields (n : VNode) :
  state (phi n) = state n /\ action (phi n) = action n /\ depth (phi n) = depth n.
Proof. destruct n as [s p a c d]. cbn. auto. Qed.

(** On a node with an integer cost the evaluation function of A* search
    does not raise, and its value is the cost of the node of the other
    problem. *)
Lemma with_h_cost (n : VNode) :
  int_cost n -> f n = Some (node_path_cost (phi n)).
Proof.
  destruct n as [s p a c d]. intros (z & Hz).
  unfold Reduced.f_astar, node_path_cost, h in *. cbn in Hz. subst c.
  rewrite Manhattan_h, String.eqb_refl. cbn.
  destruct (findMinManhattanDist_hz s) as [-> _]. reflexivity.
Qed.

Lemma child_node_with_h (n : VNode) (a : Action) :
  int_cost n ->
  exists c,
    child_node P n a = Some c
    /\ child_node P' (phi n) a = Some (phi c)
    /\ int_cost c.
Proof.
  intros (g & Hg). unfold child_node.
  cbn [as_problem Reduced.reduced_problem problem_path_cost].
  unfold path_cost. rewrite Step_cost, String.eqb_refl, Hg.
  eexists. split; [reflexivity|]. split; [|exists (g + 1); reflexivity].
  destruct (with_h_fields n) as (Hs & _ & Hd).
  pose proof (with_h_cost n (ex_intro _ g Hg)) as Hc.
  unfold Reduced.f_astar in Hc. rewrite Hg, h_hz in Hc. cbn [num_add] in Hc.
  injection Hc as Hc.
  rewrite Hs, <- Hc. unfold Node_init. cbn [Reduced.with_h]. rewrite Hd.
  unfold Reduced.reduced_step, Examples.num_sum.
  destruct (findMinManhattanDist_hz (fst (result self (state n) a))) as [Hh _].
  change (problem_result P (state n) a) with (fst (result self (state n) a)).
  change (problem_result P' (state n) a) with (fst (result self (state n) a)).
  rewrite Hh. cbn [num_add]. do 3 f_equal. lia.
Qed.

Lemma mapM_with_h (n : VNode) (l : list Action) :
  int_cost n ->
  exists cs,
    mapM (child_node P n) l = Some cs
    /\ mapM (child_node P' (phi n)) l = Some (map phi cs)
    /\ Forall int_cost cs.
Proof.
  intros Hn. induction l as [|a l IH]; cbn [mapM].
  - exists []. repeat split. constructor.
  - destruct (child_node_with_h n a Hn) as (c & -> & -> & Hc).
    destruct IH as (cs & -> & -> & Hcs).
    exists (c :: cs). repeat split. now constructor.
Qed.

Lemma expand_with_h (n : VNode) :
  int_cost n ->
  match expand is_LEFT P n with
  | Some cs => expand is_LEFT P' (phi n) = Some (map phi cs) /\ Forall int_cost cs
  | None => expand is_LEFT P' (phi n) = None
  end.
Proof.
  intros Hn. unfold expand. destruct (with_h_fields n) as (-> & _).
  change (problem_actions P' (state n)) with (problem_actions P (state n)).
  destruct (problem_actions P (state n)) as [acts|]; [|reflexivity].
  destruct (mapM_with_h n (list_sort (fun a => if is_LEFT a then 0%nat else 1%nat) acts) Hn)
    as (cs & -> & -> & Hcs).
  auto.
Qed.

(** *** The frontiers of the two searches *)

Lemma node_eq_with_h (a b : VNode) :
  node_eq State_eq_dec (phi a) (phi b) = node_eq State_eq_dec a b.
Proof.
  unfold node_eq.
  destruct (with_h_fields a) as (-> & _). destruct (with_h_fields b) as (-> & _).
  reflexivity.
Qed.

Lemma entry_lt_with_h (a b : entry State Action num) :
  entry_lt State_eq_dec state_lt num_lt num_eq (Phi a) (Phi b)
  = entry_lt State_eq_dec state_lt num_lt num_eq a b.
Proof.
  unfold entry_lt, Reduced.with_h_entry. cbn [fst snd]. rewrite node_eq_with_h.
  destruct (with_h_fields (snd a)) as (-> & _).
  destruct (with_h_fields (snd b)) as (-> & _).
  reflexivity.
Qed.

Lemma pq_extract_min_with_h (q : list (entry State Action num)) :
  pq_extract_min State_eq_dec state_lt num_lt num_eq (map Phi q)
  = match pq_extract_min State_eq_dec state_lt num_lt num_eq q with
    | Some (m, r) => Some (Phi m, map Phi r)
    | None => None
    end.
Proof.
  induction q as [|e q IH]; cbn [map pq_extract_min]; [reflexivity|].
  rewrite IH.
  destruct (pq_extract_min State_eq_dec state_lt num_lt num_eq q) as [[m r]|];
    [|reflexivity].
  rewrite entry_lt_with_h.
  destruct (entry_lt State_eq_dec state_lt num_lt num_eq m e); reflexivity.
Qed.

Lemma pq_contains_with_h (q : list (entry State Action num)) (c : VNode) :
  pq_contains State_eq_dec (map Phi q) (phi c) = pq_contains State_eq_dec q c.
Proof.
  unfold pq_contains. induction q as [|e q IH]; cbn [map existsb]; [reflexivity|].
  rewrite IH. unfold Reduced.with_h_entry at 1. cbn [snd].
  now rewrite node_eq_with_h.
Qed.

Lemma pq_getitem_with_h (q : list (entry State Action num)) (c : VNode) :
  pq_getitem State_eq_dec (map Phi q) (phi c) = pq_getitem State_eq_dec q c.
Proof.
  unfold pq_getitem. induction q as [|e q IH]; cbn [map find]; [reflexivity|].
  unfold Reduced.with_h_entry at 1 2. cbn [snd fst]. rewrite node_eq_with_h.
  destruct (node_eq State_eq_dec (snd e) c); [reflexivity|exact IH].
Qed.

Lemma pq_delitem_with_h (q : list (entry State Action num)) (c : VNode) :
  pq_delitem State_eq_dec (map Phi q) (phi c)
  = match pq_delitem State_eq_dec q c with
    | Some r => Some (map Phi r)
    | None => None
    end.
Proof.
  induction q as [|e q IH]; cbn [map pq_delitem]; [reflexivity|].
  unfold Reduced.with_h_entry at 1. cbn [snd]. rewrite node_eq_with_h.
  destruct (node_eq State_eq_dec (snd e) c); [reflexivity|].
  rewrite IH. destruct (pq_delitem State_eq_dec q c); reflexivity.
Qed.

Lemma pq_append_with_h (q : list (entry State Action num)) (c : VNode) :
  int_cost c ->
  pq_append f' (map Phi q) (phi c)
  = match pq_append f q c with
    | Some r => Some (map Phi r)
    | None => None
    end.
Proof.
  intros Hc. unfold pq_append. rewrite (with_h_cost c Hc), map_app. reflexivity.
Qed.

Lemma bfgs_child_with_h (explore : set State) (front : list (entry State Action num))
      (c : VNode) :
  int_cost c ->
  bfgs_child State_eq_dec num_ge f' explore (map Phi front) (phi c)
  = match bfgs_child State_eq_dec num_ge f explore front c with
    | Some front1 => Some (map Phi front1)
    | None => None
    end.
Proof.
  intros Hc. unfold bfgs_child.
  rewrite pq_contains_with_h, pq_getitem_with_h, pq_delitem_with_h.
  destruct (with_h_fields c) as (-> & _).
  destruct (negb _); [now apply pq_append_with_h|].
  destruct (pq_contains State_eq_dec front c); [|reflexivity].
  rewrite (with_h_cost c Hc).
  destruct (pq_getitem State_eq_dec front c) as [v|]; [|reflexivity].
  destruct (negb (num_ge (node_path_cost (phi c)) v)); [|reflexivity].
  destruct (pq_delitem State_eq_dec front c) as [front1|]; [|reflexivity].
  now apply pq_append_with_h.
Qed.

Lemma bfgs_for_with_h (explore : set State) (cs : list VNode) :
  forall front : list (entry State Action num),
    Forall int_cost cs ->
    bfgs_for State_eq_dec num_ge f' explore (map phi cs) (map Phi front)
    = match bfgs_for State_eq_dec num_ge f explore cs front with
      | Some front1 => Some (map Phi front1)
      | None => None
      end.
Proof.
  induction cs as [|c cs IH]; intros front Hcs; cbn [map bfgs_for]; [reflexivity|].
  inversion Hcs as [|? ? Hc Hcs']; subst.
  rewrite (bfgs_child_with_h _ _ _ Hc).
  destruct (bfgs_child State_eq_dec num_ge f explore front c) as [front1|];
    [now apply IH|reflexivity].
Qed.

Lemma bfgs_loop_with_h (fuel : nat) :
  forall (front : list (entry State Action num)) (explore : set State),
    (forall e, In e front -> int_cost (snd e)) ->
    bfgs_loop State_eq_dec state_lt is_LEFT num_lt num_ge num_eq P' f' fuel
              (map Phi front) explore
    = Reduced.with_h_outcome
        self
        (bfgs_loop State_eq_dec state_lt is_LEFT num_lt num_ge num_eq P f fuel
                   front explore).
Proof.
  induction fuel as [|fuel IH]; intros front explore Hint; cbn [bfgs_loop];
    [reflexivity|].
  unfold pq_pop. rewrite pq_extract_min_with_h.
  destruct (pq_extract_min State_eq_dec state_lt num_lt num_eq front)
    as [[m front1]|] eqn:Hpop; [|reflexivity].
  destruct (pq_extract_min_split State_eq_dec state_lt num_lt num_eq front m front1 Hpop)
    as (pre & post & -> & ->).
  change (snd (Phi m)) with (phi (snd m)).
  destruct (with_h_fields (snd m)) as (-> & _).
  change (problem_goal_test P' (state (snd m)))
    with (problem_goal_test P (state (snd m))).
  destruct (problem_goal_test P (state (snd m))); [reflexivity|].
  assert (Hm : int_cost (snd m)) by (apply Hint, in_elt).
  pose proof (expand_with_h (snd m) Hm) as Hexp.
  destruct (expand is_LEFT P (snd m)) as [cs|]; [|now rewrite Hexp].
  destruct Hexp as [-> Hcs]. rewrite (bfgs_for_with_h _ _ _ Hcs).
  pose proof (bfgs_for_total State_eq_dec num_ge f
                             (explore_add State_eq_dec (state (snd m)) explore)
                             cs (pre ++ post)) as Hfor.
  destruct (bfgs_for State_eq_dec num_ge f _ cs (pre ++ post)) as [front2|];
    [|reflexivity].
  destruct Hfor as (He & _).
  apply IH. intros e Hin. destruct (He e Hin) as [H|H].
  - apply Hint. exact (in_app_middle _ _ _ _ H).
  - exact (proj1 (Forall_forall _ _) Hcs _ H).
Qed.

(** *** Paths of the two problems *)

Local Abbreviation root := (Node_init (self_initial self) None None (NInt 0)).
Local Abbreviation C0' :=
  (Examples.num_sum (NInt 0) (findMinManhattanDist self (self_initial self))).
Local Abbreviation root' := (Node_init (self_initial self) None None C0').

Lemma legal_with_h (m : VNode) :
  legal P root m -> legal P' root' (phi m) /\ int_cost m.
Proof.
  intros Hm. induction Hm as [|n c avail act Hn IH Ha Hact Hc].
  - split; [apply legal_root|exists 0; reflexivity].
  - destruct IH as [IH Hint].
    destruct (child_node_with_h n act Hint) as (c0 & Hc0 & Hc' & Hint').
    rewrite Hc in Hc0. injection Hc0 as <-.
    split; [|exact Hint'].
    apply (@legal_child _ _ _ P' root' (phi n) (phi c) avail act IH); [|exact Hact|exact Hc'].
    destruct (with_h_fields n) as (-> & _). exact Ha.
Qed.

Lemma reduced_step_int (c : num) (s : State) (a : Action) (s' : State) :
  Examples.is_int c -> Examples.is_int (Reduced.reduced_step self c s a s').
Proof. intros (z & ->). eexists. reflexivity. Qed.

Lemma reduced_step_nonneg (c : num) (s : State) (a : Action) (s' : State) :
  Examples.is_int c -> num_ge (Reduced.reduced_step self c s a s') c = true.
Proof.
  intros (z & ->). unfold Reduced.reduced_step, Examples.num_sum. cbn [num_add num_ge].
  apply Z.geb_le. pose proof (hz_step s a). lia.
Qed.

Lemma reduced_step_monotone (c c' : num) (s : State) (a : Action) (s' : State) :
  Examples.is_int c -> Examples.is_int c' -> num_ge c' c = true ->
  num_ge (Reduced.reduced_step self c' s a s') (Reduced.reduced_step self c s a s') = true.
Proof.
  intros (x & ->) (y & ->). unfold Reduced.reduced_step, Examples.num_sum.
  cbn [num_add num_ge]. rewrite !Z.geb_le. lia.
Qed.

(** Under the Step cost the value of A* search on a path is its number
    of actions plus the heuristic at its end. *)
Lemma with_h_depth (m : VNode) :
  legal P root m ->
  f m = Some (NInt (Z.of_nat (depth m) + hz (state m)))
  /\ node_path_cost (phi m) = NInt (Z.of_nat (depth m) + hz (state m)).
Proof.
  intros Hm. pose proof (with_h_cost m (proj2 (legal_with_h m Hm))) as Hc.
  unfold Reduced.f_astar in *.
  rewrite (Step_cost_is_depth self m Step_cost Hm), h_hz in *. cbn [num_add] in *.
  injection Hc as Hc. auto.
Qed.

Lemma with_h_outcome_some (o : outcome (option VNode * set State)) (n' : VNode)
      (explored : set State) :
  Reduced.with_h_outcome self o = Returned (Some n', explored) ->
  exists n, o = Returned (Some n, explored) /\ n' = phi n.
Proof.
  destruct o as [[[n|] e]| |]; cbn [Reduced.with_h_outcome]; try discriminate.
  intros H. injection H as <- <-. exists n. auto.
Qed.

(** X19. A* search with the Manhattan heuristic under the Step cost
    returns a shortest solution: on a vacuum problem whose goals are the
    dirty rooms and whose moves do not leave a finite set of cells, with
    a goal that can be reached, [astar_search] returns a node at a goal
    on a legal path, and no legal path from the initial state to a goal
    has fewer actions. *)
Theorem astar_search_returns_a_shortest_solution (cells : list State) (fuel : nat) :
  (forall s, goal_test self s = true -> In s (dirty_rooms self)) ->
  Examples.closed_under_moves self cells = true ->
  In (self_initial self) cells ->
  (List.length cells < fuel)%nat ->
  (exists m, legal P root m /\ goal_test self (state m) = true) ->
  exists n explored,
    astar self fuel = Returned (Some n, explored)
    /\ goal_test self (state n) = true
    /\ legal P root n
    /\ forall m, legal P root m -> goal_test self (state m) = true ->
                 (depth n <= depth m)%nat.
Proof.
  intros Hdirt Hclosed Hinit Hfuel (m0 & Hm0 & Hg0).
  assert (HC0 : Examples.is_int C0').
  { destruct (findMinManhattanDist_hz (self_initial self)) as [-> _].
    eexists. reflexivity. }
  destruct (bfgs_loop_optimal
              State_eq_dec state_lt is_LEFT C0' num_lt num_ge num_eq
              P' (Reduced.reduced_step self) Examples.is_int cells) with
    (fuel := fuel)
    (front := [(C0', root' : VNode)])
    (explore := @nil State)
    as (n' & explored & Hret & _ & _ & Hmin).
  - intros n acts a _ _ _ _. reflexivity.
  - exact HC0.
  - intros c s acts a Hc _ _ _. now apply reduced_step_int.
  - exact int_ge_refl.
  - exact int_ge_trans.
  - exact int_ge_total.
  - exact int_lt_not_ge.
  - exact int_eq_both_ge.
  - intros c s acts a Hc _ _ _. now apply reduced_step_nonneg.
  - intros c c' s acts a Hc Hc' _ _ _. now apply reduced_step_monotone.
  - exact Hinit.
  - exact (closed_under_moves_sound self cells Hclosed).
  - exact (initial_invariant C0' num_ge P' Examples.is_int HC0 int_ge_refl).
  - simpl. lia.
  - exists (phi m0). split; [exact (proj1 (legal_with_h m0 Hm0))|].
    destruct (with_h_fields m0) as (Hs & _).
    change (goal_test self (state (phi m0)) = true). now rewrite Hs.
  - assert (Hroot : int_cost root) by (exists 0; reflexivity).
    change [(C0', root' : VNode)] with (map Phi [(C0', root : VNode)]) in Hret.
    rewrite bfgs_loop_with_h in Hret.
    + apply with_h_outcome_some in Hret. destruct Hret as (n & Hret & ->).
      assert (Hastar : astar self fuel = Returned (Some n, explored)).
      { transitivity
          (match pq_append f [] (root : VNode) with
           | Some front =>
               bfgs_loop State_eq_dec state_lt is_LEFT num_lt num_ge num_eq P f fuel
                         front []
           | None => Raised
           end); [reflexivity|].
        unfold pq_append. rewrite (with_h_cost root Hroot). exact Hret. }
      pose proof (best_first_answers State_eq_dec state_lt is_LEFT (NInt 0)
                    num_lt num_ge num_eq P (Some f) fuel) as Hans.
      change (best_first_graph_search State_eq_dec state_lt is_LEFT (NInt 0)
                num_lt num_ge num_eq P (Some f) fuel)
        with (astar self fuel) in Hans.
      rewrite Hastar in Hans. destruct Hans as [Hleg Hg].
      exists n, explored. split; [exact Hastar|]. split; [exact Hg|].
      split; [exact Hleg|].
      intros m Hm Hgm.
      pose proof (Hmin (phi m) (proj1 (legal_with_h m Hm))) as Hle.
      destruct (with_h_fields m) as (Hsm & _).
      destruct (with_h_depth m Hm) as [_ Hcm].
      destruct (with_h_depth n Hleg) as [_ Hcn].
      unfold cost_le in Hle. unfold node_path_cost in Hcm, Hcn.
      rewrite Hcm, Hcn in Hle.
      change (goal_test self (state (phi m)) = true ->
              num_ge (NInt (Z.of_nat (depth m) + hz (state m)))
                     (NInt (Z.of_nat (depth n) + hz (state n))) = true) in Hle.
      rewrite Hsm in Hle. specialize (Hle Hgm).
      rewrite (hz_dirt (state m) (Hdirt _ Hgm)) in Hle.
      cbn [num_ge] in Hle. apply Z.geb_le in Hle.
      destruct (findMinManhattanDist_hz (state n)) as [_ H0]. lia.
    + intros e [<-|[]]. exact Hroot.
Qed.

End AStarShortest.

(** *** Uniform-cost search with a cost that adds up from step to step *)

Section UniformCostOptimal.

Context {State Action C : Type}.
Variable State_eq_dec : forall x y : State, {x = y} + {x <> y}.
Variable state_lt : State -> State -> bool.
Variable is_LEFT : Action -> bool.
Variable C0 : C.
Variables C_lt C_ge C_eq : C -> C -> bool.
Variable problem : Problem State Action C.
Variable step : C -> State -> Action -> State -> C.
Variable good : C -> Prop.
Variable U : list State.

Local Abbreviation N := (Node State Action C).
Local Abbreviation root := (Node_init (initial problem) None None C0).
Local Abbreviation reach := (reachable problem).
Local Abbreviation next := (result problem).

Hypothesis cost_by_step :
  forall (n : N) (acts : list Action) (a : Action),
    good (path_cost n) -> reach (state n) ->
    actions problem (state n) = Some acts -> In a acts ->
    problem_path_cost problem n (state n) a (next (state n) a)
    = Some (step (path_cost n) (state n) a (next (state n) a)).
Hypothesis good_C0 : good C0.
Hypothesis good_step :
  forall c s acts a,
    good c -> reach s -> actions problem s = Some acts -> In a acts ->
    good (step c s a (next s a)).
Hypothesis ge_refl : forall a, good a -> C_ge a a = true.
Hypothesis ge_trans :
  forall a b c, good a -> good b -> good c ->
                C_ge a b = true -> C_ge b c = true -> C_ge a c = true.
Hypothesis ge_total :
  forall a b, good a -> good b -> C_ge a b = true \/ C_ge b a = true.
Hypothesis lt_not_ge : forall a b, good a -> good b -> C_lt a b = negb (C_ge a b).
Hypothesis eq_both_ge :
  forall a b, good a -> good b -> C_eq a b = (C_ge a b && C_ge b a)%bool.
Hypothesis step_nonneg :
  forall c s acts a,
    good c -> reach s -> actions problem s = Some acts -> In a acts ->
    C_ge (step c s a (next s a)) c = true.
Hypothesis step_monotone :
  forall c c' s acts a,
    good c -> good c' -> reach s -> actions problem s = Some acts -> In a acts ->
    C_ge c' c = true -> C_ge (step c' s a (next s a)) (step c s a (next s a)) = true.
Hypothesis U_initial : In (initial problem) U.
Hypothesis U_closed :
  forall s, In s U ->
            exists acts, actions problem s = Some acts
                         /\ forall a, In a acts -> In (result problem s a) U.

(** X20. Uniform-cost search returns a cheapest path when the cost adds
    up from step to step.  Let, on the costs of the paths from the root,
    in the states that can be reached and for the actions of the state,
    the cost of a step depend on the cost so far, the two states and the
    action only, not on the actions taken before; let a step never lower
    the cost nor reverse the order of two costs, the order [>=] being
    total on these costs; and let the reachable states be finitely many,
    with [actions] defined on them.  Then, when a goal can be reached,
    uniform-cost search with more fuel than there are states returns a
    goal node that is a path of the problem, and no path from the initial
    state to a goal costs less. *)
Theorem uniform_cost_search_optimal (fuel : nat) :
  List.length U < fuel ->
  (exists m, legal problem root m /\ goal_test problem (state m) = true) ->
  exists n explored,
    uniform_cost_search State_eq_dec state_lt is_LEFT C0 C_lt C_ge C_eq problem fuel
    = Returned (Some n, explored)
    /\ goal_test problem (state n) = true
    /\ legal problem root n
    /\ forall m, legal problem root m -> goal_test problem (state m) = true ->
                 C_ge (path_cost m) (path_cost n) = true.
Proof.
  intros Hfuel Hgoal.
  apply (bfgs_loop_optimal State_eq_dec state_lt is_LEFT C0 C_lt C_ge C_eq problem
           step good U cost_by_step good_C0 good_step ge_refl ge_trans ge_total
           lt_not_ge eq_both_ge step_nonneg step_monotone U_initial U_closed
           fuel [(C0, root)] []).
  - exact (initial_invariant C0 C_ge problem good good_C0 ge_refl).
  - simpl. lia.
  - exact Hgoal.
Qed.

End UniformCostOptimal.

(* ------------------------------------------------------------------ *)
(** ** The further properties at the examples *)

(** [expand] at the middle of the room with two dirty neighbors. *)
Lemma expand_puts_LEFT_first_witness :
  exists cs : list Vacuum.VNode,
    expand Vacuum.is_LEFT (Vacuum.as_problem Examples.two_dirty_neighbors)
           (Examples.root (1, 1)%Z) = Some cs
    /\ map action cs = map Some ["LEFT"; "UP"; "DOWN"; "RIGHT"]%string.
Proof.
  destruct (expand Vacuum.is_LEFT (Vacuum.as_problem Examples.two_dirty_neighbors)
                   (Examples.root (1, 1)%Z)) as [cs|] eqn:Hexp;
    [|vm_compute in Hexp; discriminate Hexp].
  exists cs. split; [reflexivity|].
  assert (Ha : actions (Vacuum.as_problem Examples.two_dirty_neighbors)
                       (state (Examples.root (1, 1)%Z))
               = Some ["UP"; "DOWN"; "LEFT"; "RIGHT"]%string)
    by (vm_compute; reflexivity).
  exact (proj1 (expand_puts_LEFT_first Vacuum.is_LEFT
                  (Vacuum.as_problem Examples.two_dirty_neighbors)
                  (Examples.root (1, 1)%Z) _ cs Ha Hexp)).
Defined.

(** The path of the node reached from [(1,1)] by UP, RIGHT. *)
Lemma path_runs_from_the_root_witness :
  exists n : Vacuum.VNode,
    Examples.walk (Examples.corner_dirty "Step" "BFS") (1, 1)%Z ["UP"; "RIGHT"]%string
    = Some n
    /\ hd_error (path n) = Some (Examples.root (1, 1)%Z)
    /\ last (path n) (Examples.root (1, 1)%Z) = n
    /\ List.length (path n) = S (depth n).
Proof.
  destruct (Examples.walk (Examples.corner_dirty "Step" "BFS") (1, 1)%Z
                          ["UP"; "RIGHT"]%string) as [n|] eqn:Hn;
    [|vm_compute in Hn; discriminate Hn].
  exists n. split; [reflexivity|].
  destruct (path_runs_from_the_root
              (Vacuum.as_problem (Examples.corner_dirty "Step" "BFS"))
              (1, 1)%Z None (NInt 0) n) as (H1 & H2 & H3 & _).
  - apply (follow_descends _ _ ["UP"; "RIGHT"]%string (Examples.root (1, 1)%Z));
      [apply descends_root|exact Hn].
  - auto.
Defined.

(** Breadth-first search in the room with the dirty corner. *)
Lemma returned_node_is_a_solution_witness :
  exists (n : Vacuum.VNode) (explored : set Vacuum.State),
    Vacuum.bfs (Examples.corner_dirty "Step" "BFS") 10 = Returned (Some n, explored)
    /\ legal (Vacuum.as_problem (Examples.corner_dirty "Step" "BFS"))
             (Examples.root (1, 1)%Z) n
    /\ Vacuum.goal_test (Examples.corner_dirty "Step" "BFS") (state n) = true.
Proof.
  destruct (Vacuum.bfs (Examples.corner_dirty "Step" "BFS") 10)
    as [[[n|] explored]| |] eqn:H; try (vm_compute in H; discriminate H).
  exists n, explored. split; [reflexivity|].
  exact (returned_node_is_a_solution
           Vacuum.State_eq_dec Vacuum.state_lt Vacuum.is_LEFT (NInt 0)
           num_lt num_ge num_eq (Vacuum.as_problem (Examples.corner_dirty "Step" "BFS"))
           None 10 n explored (or_introl H)).
Defined.

(** Breadth-first search in the room without dirt. *)
Lemma no_node_means_no_reachable_goal_witness :
  exists explored : set Vacuum.State,
    Vacuum.bfs Moves.clean_room 10 = Returned (None, explored)
    /\ forall s, reachable (Vacuum.as_problem Moves.clean_room) s ->
                 In s explored /\ Vacuum.goal_test Moves.clean_room s = false.
Proof.
  destruct (Vacuum.bfs Moves.clean_room 10) as [[[n|] explored]| |] eqn:H;
    try (vm_compute in H; discriminate H).
  exists explored. split; [reflexivity|].
  exact (no_node_means_no_reachable_goal
           Vacuum.State_eq_dec Vacuum.state_lt Vacuum.is_LEFT (NInt 0)
           num_lt num_ge num_eq (Vacuum.as_problem Moves.clean_room)
           None 10 explored (or_introl H)).
Defined.

(** Breadth-first search under the StayUp cost without things: the
    division by the length of the map raises at the first child. *)
Lemma searches_raise_only_with_the_problem_witness :
  Vacuum.bfs Moves.no_things 1 = Raised
  /\ exists n : Vacuum.VNode,
      legal (Vacuum.as_problem Moves.no_things) (Examples.root (0, 0)%Z) n
      /\ (Vacuum.actions Moves.no_things (state n) = None
          \/ exists avail act,
              Vacuum.actions Moves.no_things (state n) = Some avail /\ In act avail
              /\ Vacuum.path_cost Moves.no_things n (state n) act
                                  (fst (Vacuum.result Moves.no_things (state n) act))
                 = None).
Proof.
  assert (H : Vacuum.bfs Moves.no_things 1 = Raised) by (vm_compute; reflexivity).
  split; [exact H|].
  destruct (searches_raise_only_with_the_problem
              Vacuum.State_eq_dec Vacuum.state_lt Vacuum.is_LEFT (NInt 0)
              num_lt num_ge num_eq (Vacuum.as_problem Moves.no_things)
              None 1 (or_introl H)) as [Hproblem|(_ & n & _ & Hn)].
  - exact Hproblem.
  - discriminate Hn.
Defined.

(** The searches in the 3 x 3 room, whose nine cells the moves do not
    leave. *)
Lemma searches_stop_witness :
  Vacuum.bfs (Examples.corner_dirty "Step" "UCS") 10 <> OutOfFuel
  /\ Vacuum.bfs (Examples.corner_dirty "Step" "UCS") 25
     = Vacuum.bfs (Examples.corner_dirty "Step" "UCS") 10.
Proof.
  destruct (closed_cells_are_safe (Examples.corner_dirty "Step" "UCS")
                                   Examples.room3_cells)
    as [Hcover _];
    [vm_compute; reflexivity|cbn; tauto|intros H; vm_compute in H; discriminate H|].
  exact (proj1 (searches_stop
                  Vacuum.State_eq_dec Vacuum.state_lt Vacuum.is_LEFT (NInt 0)
                  num_lt num_ge num_eq
                  (Vacuum.as_problem (Examples.corner_dirty "Step" "UCS"))
                  Examples.room3_cells Hcover None 10 25
                  ltac:(cbn; lia) ltac:(lia))).
Defined.

Lemma searches_find_a_reachable_goal_witness :
  exists (n : Vacuum.VNode) (explored : set Vacuum.State),
    Vacuum.dfs (Examples.corner_dirty "Step" "UCS") 10 = Returned (Some n, explored)
    /\ legal (Vacuum.as_problem (Examples.corner_dirty "Step" "UCS"))
             (Examples.root (1, 1)%Z) n
    /\ Vacuum.goal_test (Examples.corner_dirty "Step" "UCS") (state n) = true.
Proof.
  destruct (closed_cells_are_safe (Examples.corner_dirty "Step" "UCS")
                                   Examples.room3_cells)
    as [Hcover Hsafe];
    [vm_compute; reflexivity|cbn; tauto|intros H; vm_compute in H; discriminate H|].
  destruct (Examples.legal_walk (Examples.corner_dirty "Step" "UCS") (1, 1)%Z
                                ["UP"; "RIGHT"]%string) as [m|] eqn:Hm;
    [|vm_compute in Hm; discriminate Hm].
  pose proof (legal_reachable (NInt 0) _ m (proj1 (legal_walk_sound _ _ _ _ Hm)))
    as Hreach.
  assert (Hgoal : goal_test (Vacuum.as_problem (Examples.corner_dirty "Step" "UCS"))
                            (state m) = true).
  { vm_compute in Hm. injection Hm as <-. reflexivity. }
  exact (proj1 (proj2 (searches_find_a_reachable_goal
                         Vacuum.State_eq_dec Vacuum.state_lt Vacuum.is_LEFT (NInt 0)
                         num_lt num_ge num_eq
                         (Vacuum.as_problem (Examples.corner_dirty "Step" "UCS"))
                         Examples.room3_cells Hcover None 10 (state m)
                         ltac:(cbn; lia) Hsafe Hreach Hgoal))).
Defined.

(** Breadth-first search returns a path of two actions to the dirty
    corner; UP, RIGHT is another. *)
Lemma breadth_first_search_returns_a_shortest_solution_witness :
  exists (n m : Vacuum.VNode) (explored : set Vacuum.State),
    Vacuum.bfs (Examples.corner_dirty "Step" "BFS") 10 = Returned (Some n, explored)
    /\ Examples.legal_walk (Examples.corner_dirty "Step" "BFS") (1, 1)%Z
                           ["UP"; "RIGHT"]%string = Some m
    /\ depth n <= depth m
    /\ List.length (solution n) <= List.length (solution m).
Proof.
  destruct (Vacuum.bfs (Examples.corner_dirty "Step" "BFS") 10)
    as [[[n|] explored]| |] eqn:H; try (vm_compute in H; discriminate H).
  destruct (Examples.legal_walk (Examples.corner_dirty "Step" "BFS") (1, 1)%Z
                                ["UP"; "RIGHT"]%string) as [m|] eqn:Hm;
    [|vm_compute in Hm; discriminate Hm].
  exists n, m, explored. split; [reflexivity|]. split; [reflexivity|].
  apply (breadth_first_search_returns_a_shortest_solution
           Vacuum.State_eq_dec (NInt 0)
           (Vacuum.as_problem (Examples.corner_dirty "Step" "BFS")) 10 n explored H m).
  - exact (proj1 (legal_walk_sound _ _ _ _ Hm)).
  - vm_compute in Hm. injection Hm as <-. reflexivity.
Defined.

(** The upper path of the two corridors under the StepTurn cost: five
    steps and three quarter turns. *)
Lemma path_cost_in_closed_form_witness :
  exists n : Vacuum.VNode,
    Examples.walk Examples.corridors (0, 1)%Z Examples.upper_path = Some n
    /\ Vacuum.node_path_cost n
       = NInt (Z.of_nat (depth n) + Moves.turn_costs None (solution n))
    /\ Vacuum.node_path_cost n = NInt 14.
Proof.
  destruct (Examples.walk Examples.corridors (0, 1)%Z Examples.upper_path)
    as [n|] eqn:Hn; [|vm_compute in Hn; discriminate Hn].
  exists n. split; [reflexivity|]. split.
  - apply (path_cost_in_closed_form Examples.corridors (0, 1)%Z n);
      [|reflexivity].
    apply (follow_descends _ _ Examples.upper_path (Examples.root (0, 1)%Z));
      [apply descends_root|exact Hn].
  - vm_compute in Hn. injection Hn as <-. reflexivity.
Defined.

(** One step UP from the middle of the room with the dirty corner. *)
Lemma manhattan_h_changes_by_at_most_one_witness :
  exists (c : Vacuum.VNode) (z z' : Z),
    child_node (Vacuum.as_problem (Examples.corner_dirty "Step" "BFS"))
               (Examples.root (1, 1)%Z) "UP"%string = Some c
    /\ Vacuum.h (Examples.corner_dirty "Step" "BFS") (Examples.root (1, 1)%Z) = NInt z
    /\ Vacuum.h (Examples.corner_dirty "Step" "BFS") c = NInt z'
    /\ (z <= z' + 1)%Z /\ (z' <= z + 1)%Z.
Proof.
  destruct (child_node (Vacuum.as_problem (Examples.corner_dirty "Step" "BFS"))
                       (Examples.root (1, 1)%Z) "UP"%string) as [c|] eqn:Hc;
    [|vm_compute in Hc; discriminate Hc].
  destruct (manhattan_h_changes_by_at_most_one
              (Examples.corner_dirty "Step" "BFS") (Examples.root (1, 1)%Z) c
              "UP"%string eq_refl Hc) as (z & z' & H).
  exists c, z, z'. split; [reflexivity|exact H].
Defined.

(** In the corner [(0,0)] of the room the walls leave UP and RIGHT. *)
Lemma offered_moves_avoid_the_walls_witness :
  Vacuum.actions Examples.two_dirty_neighbors (0, 0)%Z = Some ["UP"; "RIGHT"]%string
  /\ forall slot,
      In slot (Vacuum.things_near (Vacuum.env Examples.two_dirty_neighbors) (0, 0)%Z) ->
      Vacuum.thing_kind slot = Vacuum.Wall ->
      Vacuum.location slot
      <> fst (Vacuum.result Examples.two_dirty_neighbors (0, 0)%Z "UP"%string).
Proof.
  assert (H : Vacuum.actions Examples.two_dirty_neighbors (0, 0)%Z
              = Some ["UP"; "RIGHT"]%string) by (vm_compute; reflexivity).
  split; [exact H|].
  apply (proj1 (offered_moves_avoid_the_walls Examples.two_dirty_neighbors (0, 0)%Z
                  ["UP"; "RIGHT"]%string "UP"%string H)).
  now left.
Defined.

(** A* search in the room without dirt, where [h] is 0. *)
Lemma astar_with_a_zero_heuristic_is_uniform_cost_search_witness :
  Vacuum.astar Moves.clean_room 10 = Vacuum.ucs Moves.clean_room 10.
Proof.
  apply (astar_with_a_zero_heuristic_is_uniform_cost_search
           Vacuum.State_eq_dec Vacuum.state_lt Vacuum.is_LEFT (NInt 0) num_add
           num_lt num_ge num_eq (Vacuum.as_problem Moves.clean_room) None 10).
  intros n Hn.
  pose proof (Step_cost_is_depth Moves.clean_room n eq_refl Hn) as Hz.
  unfold Vacuum.node_path_cost in Hz. rewrite Hz.
  change (h (Vacuum.as_problem Moves.clean_room) n) with (NInt 0).
  cbn [num_add]. now rewrite Z.add_0_r.
Defined.

(** Uniform-cost search in the room with the dirty corner, Step cost. *)
Lemma uniform_cost_search_is_shortest_under_Step_witness :
  exists (n : Vacuum.VNode) (explored : set Vacuum.State),
    Vacuum.ucs (Examples.corner_dirty "Step" "UCS") 10 = Returned (Some n, explored)
    /\ depth n = 2.
Proof.
  destruct (uniform_cost_search_is_shortest_under_Step
              (Examples.corner_dirty "Step" "UCS") Examples.room3_cells 10)
    as (n & explored & Hret & _).
  - reflexivity.
  - vm_compute. reflexivity.
  - cbn. tauto.
  - cbn. lia.
  - destruct (Examples.legal_walk (Examples.corner_dirty "Step" "UCS") (1, 1)%Z
                                  ["UP"; "RIGHT"]%string) as [m|] eqn:Hm;
      [|vm_compute in Hm; discriminate Hm].
    exists m. split.
    + exact (proj1 (legal_walk_sound _ _ _ _ Hm)).
    + vm_compute in Hm. injection Hm as <-. reflexivity.
  - exists n, explored. split; [exact Hret|].
    vm_compute in Hret. injection Hret as <- _. reflexivity.
Defined.

(** In a grid environment the goals are the dirty rooms. *)
Lemma grid_goals_are_dirty (ths : list Vacuum.Thing) (loc : Vacuum.State)
      (costfn searchtype heur st : string) (s : Vacuum.State) :
  Vacuum.goal_test (Vacuum.init (Vacuum.grid_env ths loc costfn searchtype heur) st) s
  = true ->
  In s (Vacuum.dirty_rooms (Vacuum.init (Vacuum.grid_env ths loc costfn searchtype heur) st)).
Proof.
  unfold Vacuum.goal_test, Vacuum.dirty_rooms. cbn.
  intros H. apply existsb_exists in H. destruct H as (t & Ht & H).
  apply andb_prop in H. destruct H as [Hk Hl].
  apply state_eqb_eq in Hl. apply in_map_iff. exists t. split; [exact Hl|].
  apply filter_In. split; [exact Ht|exact Hk].
Qed.

(** A* search in the room with the dirty corner, Step cost, Manhattan
    heuristic. *)
Lemma astar_search_returns_a_shortest_solution_witness :
  exists (n : Vacuum.VNode) (explored : set Vacuum.State),
    Vacuum.astar (Examples.corner_dirty "Step" "A*") 10 = Returned (Some n, explored)
    /\ depth n = 2.
Proof.
  destruct (astar_search_returns_a_shortest_solution
              (Examples.corner_dirty "Step" "A*") eq_refl eq_refl
              Examples.room3_cells 10)
    as (n & explored & Hret & _).
  - intros s. apply grid_goals_are_dirty.
  - vm_compute. reflexivity.
  - cbn. tauto.
  - cbn. lia.
  - destruct (Examples.legal_walk (Examples.corner_dirty "Step" "A*") (1, 1)%Z
                                  ["UP"; "RIGHT"]%string) as [m|] eqn:Hm;
      [|vm_compute in Hm; discriminate Hm].
    exists m. split.
    + exact (proj1 (legal_walk_sound _ _ _ _ Hm)).
    + vm_compute in Hm. injection Hm as <-. reflexivity.
  - exists n, explored. split; [exact Hret|].
    vm_compute in Hret. injection Hret as <- _. reflexivity.
Defined.

(** In the 3 x 3 room no cell has a negative x coordinate. *)
Lemma room3_columns (s : Vacuum.State) :
  In s Examples.room3_cells -> (0 <= fst s)%Z.
Proof.
  intros Hs.
  assert (H : forallb (fun c : Vacuum.State => (0 <=? fst c)%Z) Examples.room3_cells = true)
    by reflexivity.
  apply Z.leb_le. exact (proj1 (forallb_forall _ _) H s Hs).
Qed.

(** Uniform-cost search in the room with the dirty corner under the
    StayLeft cost, where a step adds the x coordinate of the cell
    entered. *)
Lemma uniform_cost_search_optimal_witness :
  exists (n : Vacuum.VNode) (explored : set Vacuum.State),
    Vacuum.ucs Examples.stay_left_room 10 = Returned (Some n, explored)
    /\ Vacuum.goal_test Examples.stay_left_room (state n) = true
    /\ legal (Vacuum.as_problem Examples.stay_left_room) (Examples.root (1, 1)%Z) n
    /\ forall m,
        legal (Vacuum.as_problem Examples.stay_left_room) (Examples.root (1, 1)%Z) m ->
        Vacuum.goal_test Examples.stay_left_room (state m) = true ->
        num_ge (path_cost m) (path_cost n) = true.
Proof.
  destruct (closed_cells_are_safe Examples.stay_left_room Examples.room3_cells)
    as [Hcover _];
    [vm_compute; reflexivity|cbn; tauto|intros H; vm_compute in H; discriminate H|].
  pose proof (closed_under_moves_sound Examples.stay_left_room Examples.room3_cells
                                       eq_refl) as Hclosed.
  apply (uniform_cost_search_optimal
           Vacuum.State_eq_dec Vacuum.state_lt Vacuum.is_LEFT (NInt 0)
           num_lt num_ge num_eq
           (Vacuum.as_problem Examples.stay_left_room)
           Examples.column_more Examples.is_int Examples.room3_cells).
  - intros n acts a (z & Hz) _ _ _.
    cbn [Vacuum.as_problem problem_path_cost].
    unfold Vacuum.path_cost, Vacuum.node_path_cost. rewrite Hz. reflexivity.
  - exists 0%Z. reflexivity.
  - intros c s acts a (z & ->) _ _ _. eexists. reflexivity.
  - exact int_ge_refl.
  - exact int_ge_trans.
  - exact int_ge_total.
  - exact int_lt_not_ge.
  - exact int_eq_both_ge.
  - intros c s acts a (z & ->) Hs Ha Hin.
    destruct (Hclosed s (Hcover s Hs)) as (acts' & Ha' & Hmove).
    change (Vacuum.actions Examples.stay_left_room s = Some acts) in Ha.
    rewrite Ha in Ha'. injection Ha' as <-.
    pose proof (room3_columns _ (Hmove a Hin)) as H0.
    unfold Examples.column_more, Examples.num_sum. cbn [num_add num_ge].
    apply Z.geb_le.
    change (result (Vacuum.as_problem Examples.stay_left_room) s a)
      with (fst (Vacuum.result Examples.stay_left_room s a)).
    lia.
  - intros c c' s acts a (x & ->) (y & ->) _ _ _.
    unfold Examples.column_more, Examples.num_sum. cbn [num_add num_ge].
    rewrite !Z.geb_le. lia.
  - cbn. tauto.
  - exact Hclosed.
  - cbn. lia.
  - destruct (Examples.legal_walk Examples.stay_left_room (1, 1)%Z
                                  ["UP"; "RIGHT"]%string) as [m|] eqn:Hm;
      [|vm_compute in Hm; discriminate Hm].
    exists m. split.
    + exact (proj1 (legal_walk_sound _ _ _ _ Hm)).
    + vm_compute in Hm. injection Hm as <-. reflexivity.
Defined.
